(** * stremthru: the Usenet streaming engine, embedded and verified

    A shallow embedding of the streaming core of stremthru
    (packages [nzb], [usenet_pool] and [nzb_info]) together with the
    properties its specification states about it.

    Conventions of the embedding:
    - Go's [int64] and (64-bit) [int] are [Z] with the two's complement
      wrap-around written out ([Int64.wrap]);
    - Go's [float64] is IEEE 754 binary64, computed with the Standard
      Library's [SpecFloat] (round to nearest, ties to even);
    - Go strings are byte strings ([string]); the functions of package
      [strings] and the regular expressions are embedded for ASCII text;
    - a Go [map] is an stdpp [gmap]; its iteration order is arbitrary;
    - goroutines talking over channels are embedded by the sequence of
      values that crosses each channel. *)

From Stdlib Require Import ZArith List Bool Ascii String Lia Permutation Sorted SpecFloat.
From stdpp Require Import base gmap strings list sorting.

Local Open Scope string_scope.
Local Open Scope list_scope.
Local Open Scope Z_scope.

(** ** Machine integers *)

Module Int64.

Definition min_int : Z := - 2 ^ 63.
Definition max_int : Z := 2 ^ 63 - 1.

(** The value a 64-bit signed register holds after an operation whose
    mathematical result is [z]. *)
Definition wrap (z : Z) : Z := (z + 2 ^ 63) mod 2 ^ 64 - 2 ^ 63.

Definition add (a b : Z) : Z := wrap (a + b).
Definition sub (a b : Z) : Z := wrap (a - b).

Definition in_range (z : Z) : Prop := min_int <= z <= max_int.

End Int64.

(** ** Package nzb: the NZB document model *)

Module Nzb.

Record Segment := {
  Bytes : Z;
  Number : Z;
  MessageId : string;
}.

Record File := {
  Poster : string;
  Date : Z;
  Subject : string;
  Groups : list string;
  Segments : list Segment;
  name : string;
}.

Record NZB := {
  Files : list File;
}.

Definition Name (f : File) : string := name f.

Definition FileCount (n : NZB) : Z := Z.of_nat (length (Files n)).

Definition SegmentCount (f : File) : Z := Z.of_nat (length (Segments f)).

(** [File.Size]: the sum of the declared segment sizes, accumulated in an
    [int64].  The source memoises the sum in the private field
    [totalSize]; no other code writes that field, so the memo always
    holds this value. *)
Definition Size (f : File) : Z :=
  fold_left (fun acc s => Int64.add acc (Bytes s)) (Segments f) 0.

(** The loop of [NZB.GetLargestFileIdx], from file index [i] on. *)
Fixpoint largestFrom (skip : option (string -> bool)) (files : list File)
    (i largestIdx largestSize : Z) : Z :=
  match files with
  | [] => largestIdx
  | f :: rest =>
      if match skip with Some sk => sk (Name f) | None => false end
      then largestFrom skip rest (i + 1) largestIdx largestSize
      else
        let size := Size f in
        if largestSize <? size
        then largestFrom skip rest (i + 1) i size
        else largestFrom skip rest (i + 1) largestIdx largestSize
  end.

Definition GetLargestFileIdx (n : NZB) (skip : option (string -> bool)) : Z :=
  largestFrom skip (Files n) 0 (-1) 0.

(** [strings.TrimSpace] on the bytes of a string.  The white space of Go
    is that of [unicode.IsSpace]: tab, line feed, vertical tab, form
    feed, carriage return and space, of one byte each; U+0085 and U+00A0,
    of two bytes in UTF-8; U+1680, U+2000 to U+200A, U+2028, U+2029,
    U+202F, U+205F and U+3000, of three. *)
Definition isSpace (c : ascii) : bool :=
  let n := nat_of_ascii c in
  ((9 <=? n) && (n <=? 13))%nat || (n =? 32)%nat.

Definition isSpace2 (a b : ascii) : bool :=
  let a := nat_of_ascii a in
  let b := nat_of_ascii b in
  ((a =? 194) && ((b =? 133) || (b =? 160)))%nat.

Definition isSpace3 (a b c : ascii) : bool :=
  let a := nat_of_ascii a in
  let b := nat_of_ascii b in
  let c := nat_of_ascii c in
  (((a =? 225) && (b =? 154) && (c =? 128))
   || ((a =? 226) && (b =? 128)
       && (((128 <=? c) && (c <=? 138)) || (c =? 168) || (c =? 169) || (c =? 175)))
   || ((a =? 226) && (b =? 129) && (c =? 159))
   || ((a =? 227) && (b =? 128) && (c =? 128)))%nat.

(** The runes are decoded from the front: a byte that starts no white
    space ends the trimming. *)
Fixpoint trimLeft (s : list ascii) : list ascii :=
  match s with
  | [] => []
  | a :: rest =>
      if isSpace a then trimLeft rest
      else
        match rest with
        | b :: rest2 =>
            if isSpace2 a b then trimLeft rest2
            else
              match rest2 with
              | c :: rest3 => if isSpace3 a b c then trimLeft rest3 else s
              | [] => s
              end
        | [] => s
        end
  end.

(** The runes are decoded from the back, over the bytes in reverse. *)
Fixpoint trimRight (reversed : list ascii) : list ascii :=
  match reversed with
  | [] => []
  | a :: rest =>
      if isSpace a then trimRight rest
      else
        match rest with
        | b :: rest2 =>
            if isSpace2 b a then trimRight rest2
            else
              match rest2 with
              | c :: rest3 => if isSpace3 c b a then trimRight rest3 else reversed
              | [] => reversed
              end
        | [] => reversed
        end
  end.

Definition TrimSpace (s : string) : string :=
  string_of_list_ascii
    (rev (trimRight (rev (trimLeft (list_ascii_of_string s))))).

(** What one file adds to the running MD5 state in
    [HashByFileBoundarySegmentIds]: [segments[0]], then [segments[last]]
    when [last > 0]. *)
Definition boundaryWrites (f : File) : list string :=
  let segments := Segments f in
  match segments with
  | [] => []
  | first :: _ =>
      let last := (length segments - 1)%nat in
      TrimSpace (MessageId first) ::
      (if (0 <? last)%nat
       then match nth_error segments last with
            | Some s => [TrimSpace (MessageId s)]
            | None => []
            end
       else [])
  end.

(** Every [io.WriteString] into the hash, in order. *)
Definition hashWrites (n : NZB) : list string :=
  concat (map boundaryWrites (Files n)).

Definition written (ws : list string) : string :=
  fold_left String.append ws EmptyString.

Section Hash.

(** The digest of Go's [crypto/md5] over everything written, and
    [hex.EncodeToString]. *)
Variable md5_Sum : string -> string.
Variable hex_EncodeToString : string -> string.

Definition HashByFileBoundarySegmentIds (n : NZB) : string :=
  hex_EncodeToString (md5_Sum (written (hashWrites n))).

End Hash.

End Nzb.

(** ** Go values shared by the packages *)

Module Go.

(** An [error] value: [io.EOF], the error of a cancelled context, or an
    error made from a message ([errors.New], [fmt.Errorf]). *)
Inductive error :=
  | EOF
  | Canceled
  | Errorf (msg : string).

(** A [(T, error)] pair of which exactly one side is set. *)
Inductive result (A : Type) :=
  | Ok (a : A)
  | Err (e : error).

Arguments Ok {A} a.
Arguments Err {A} e.

End Go.

(** ** IEEE 754 binary64 *)

Module F64.

Definition prec : Z := 53.
Definition emax : Z := 1024.

Definition t := spec_float.

(** [float64(z)] for an integer [z]: the nearest double. *)
Definition of_int (z : Z) : t := binary_normalize prec emax z 0 false.

Definition mul : t -> t -> t := SFmul prec emax.
Definition div : t -> t -> t := SFdiv prec emax.

(** [int64(x)]: the fraction is discarded.  For a value that does not fit
    (and for NaN) Go leaves the result to the platform; amd64 gives the
    smallest [int64]. *)
Definition to_int64 (x : t) : Z :=
  match x with
  | S754_zero _ => 0
  | S754_finite s m e =>
      let mag := if 0 <=? e then Zpos m * 2 ^ e else Zpos m / 2 ^ (- e) in
      let v := if s then - mag else mag in
      if (Int64.min_int <=? v) && (v <=? Int64.max_int) then v else Int64.min_int
  | S754_infinity _ => Int64.min_int
  | S754_nan => Int64.min_int
  end.

End F64.

(** ** Package usenet_pool: byte ranges and fetched segments *)

Module Pool.

(** [[Start, End)]; the field is [End_] since [End] is a keyword. *)
Record ByteRange := {
  Start : Z;
  End_ : Z;
}.

Definition Count (r : ByteRange) : Z := Int64.sub (End_ r) (Start r).

Definition Contains (r : ByteRange) (byteIdx : Z) : bool :=
  (Start r <=? byteIdx) && (byteIdx <? End_ r).

Definition ContainsRange (r other : ByteRange) : bool :=
  (Start r <=? Start other) && (End_ other <=? End_ r).

Definition NewByteRangeFromSize (start size : Z) : ByteRange :=
  {| Start := start; End_ := Int64.add start size |}.

(** [SegmentData]; the field [ByteRange] is [Range] here. *)
Record SegmentData := {
  Body : list Byte.byte;
  Range : ByteRange;
  FileSize : Z;
  Size : Z;
}.

(** [Pool.fetchSegment]: what fetching a segment (by its message-id, from
    the cache or from a provider) gives. *)
Definition fetcher := Nzb.Segment -> Go.result SegmentData.

(** The part of [config.Newz] the streams read; the values are those of
    the deployment. *)
Record Config := {
  MaxConnectionPerStream : Z;
  StreamBufferSize : Z;
}.

End Pool.

(** ** Segments Stream: parallel fetch, in-order delivery *)

Module SegmentsStream.

Import Pool.

(** [segmentResult]: what a worker posts on the result channel.  The
    pair [(data, err)] of the source is the [Go.result] it came from. *)
Record segmentResult := {
  idx : nat;
  fetched : Go.result SegmentData;
}.

(** The inner loop of [startSegmentResultCollector]: while
    [pending[nextIdx]] is present, delete it, send it on [dataChan] and
    advance.  Every round deletes a key, so [size pending] rounds are
    all the loop can make; the third component is what was sent. *)
Fixpoint flush (rounds : nat) (pending : gmap nat SegmentData) (nextIdx : nat)
    : gmap nat SegmentData * nat * list SegmentData :=
  match rounds with
  | O => (pending, nextIdx, [])
  | S rounds' =>
      match pending !! nextIdx with
      | None => (pending, nextIdx, [])
      | Some d =>
          let '(p, n, sent) := flush rounds' (delete nextIdx pending) (S nextIdx) in
          (p, n, d :: sent)
      end
  end.

(** [startSegmentResultCollector] over the values [resultCh] carries
    before it is closed, with no cancellation on the way.  It gives what
    the collector sends on [dataChan] and the error it publishes on
    [errChan]. *)
Fixpoint collect (totalSegments : nat) (resultCh : list segmentResult)
    (pending : gmap nat SegmentData) (nextIdx receivedCount : nat)
    : list SegmentData * option Go.error :=
  if (totalSegments <=? receivedCount)%nat then ([], None)
  else
    match resultCh with
    | [] => ([], None)
    | r :: rest =>
        match fetched r with
        | Go.Err e => ([], Some e)
        | Go.Ok d =>
            let pending1 := <[idx r := d]> pending in
            let '(pending2, nextIdx2, sent) := flush (size pending1) pending1 nextIdx in
            let '(more, e) := collect totalSegments rest pending2 nextIdx2 (S receivedCount) in
            (sent ++ more, e)
        end
    end.

(** The stream as its reader sees it once the fetcher goroutine has run
    to its end: [dataChan] holds what the collector sent and is closed
    behind it.  The dispatcher, the workers, the collector and the
    reader each run one sequential loop and talk over first-in
    first-out channels, so what the reader receives is fixed by the
    order in which the workers post on the result channel, the one
    place where several writers meet; that order is the parameter
    [resultCh] below.  The buffer budget only delays the dispatcher (it
    is given back in full by the workers and the reader, so a positive
    budget lets every segment through) and is left out. *)
Record t := {
  segments : list Nzb.Segment;
  workerCount : Z;
  workersStarted : Z;
  dataChan : list SegmentData;
  errChan : option Go.error;
  currData : list Byte.byte;
  currPos : nat;
  closed : bool;
  canceled : bool;
}.

(** [NewSegmentsStream] followed by [startSegmentFetcher]; [resultCh] is
    the sequence in which the workers post their results. *)
Definition NewSegmentsStream (cfg : Config) (segs : list Nzb.Segment)
    (resultCh : list segmentResult) : t :=
  let n := Z.of_nat (length segs) in
  let workers := Z.max (Z.min n (MaxConnectionPerStream cfg)) 1 in
  if n =? 0 then
    {| segments := segs; workerCount := workers; workersStarted := 0;
       dataChan := []; errChan := None;
       currData := []; currPos := 0; closed := false; canceled := false |}
  else
    let '(sent, e) := collect (length segs) resultCh ∅ 0 0 in
    {| segments := segs; workerCount := workers; workersStarted := workers;
       dataChan := sent; errChan := e;
       currData := []; currPos := 0; closed := false; canceled := false |}.

(** The results the workers post when every segment is dispatched and
    fetched: one per segment index, in any order. *)
Definition posted (pool : fetcher) (segs : list Nzb.Segment) : list segmentResult :=
  imap (fun i seg => {| idx := i; fetched := pool seg |}) segs.

Definition deliveryOrder (pool : fetcher) (segs : list Nzb.Segment)
    (resultCh : list segmentResult) : Prop :=
  Permutation resultCh (posted pool segs).

(** The loop of [Read], with [plen = len(p)] and [out] the bytes copied
    into [p] so far.  A round that copies is followed by a round that
    either leaves the loop ([p] is full) or receives from [dataChan]
    (the current segment is used up); the two are taken together here. *)
Fixpoint readLoop (plen : nat) (chan : list SegmentData)
    (cur : list Byte.byte) (pos : nat) (out : list Byte.byte)
    : list SegmentData * list Byte.byte * nat * (list Byte.byte * option Go.error) :=
  let chunk := take (plen - length out) (drop pos cur) in
  let out1 := out ++ chunk in
  let pos1 := (pos + length chunk)%nat in
  if (plen <=? length out1)%nat then (chan, cur, pos1, (out1, None))
  else
    match chan with
    | [] =>
        (chan, cur, pos1,
         (out1, if (0 <? length out1)%nat then None else Some Go.EOF))
    | d :: rest => readLoop plen rest (Body d) 0 out1
    end.

(** [Read(p)] with [len(p) = plen]: the bytes put into [p] and the
    error. *)
Definition Read (s : t) (plen : nat) : t * (list Byte.byte * option Go.error) :=
  if closed s then (s, ([], Some Go.EOF))
  else if (plen =? 0)%nat then (s, ([], None))
  else
    match errChan s with
    | Some e =>
        ({| segments := segments s; workerCount := workerCount s;
            workersStarted := workersStarted s; dataChan := dataChan s;
            errChan := None; currData := currData s; currPos := currPos s;
            closed := closed s; canceled := canceled s |},
         ([], Some e))
    | None =>
        let '(chan, cur, pos, res) :=
          readLoop plen (dataChan s) (currData s) (currPos s) [] in
        ({| segments := segments s; workerCount := workerCount s;
            workersStarted := workersStarted s; dataChan := chan;
            errChan := None; currData := cur; currPos := pos;
            closed := closed s; canceled := canceled s |},
         res)
    end.

(** [Close]: cancel, then drain [dataChan]. *)
Definition Close (s : t) : t * option Go.error :=
  if closed s then (s, None)
  else
    ({| segments := segments s; workerCount := workerCount s;
        workersStarted := workersStarted s; dataChan := [];
        errChan := errChan s; currData := currData s; currPos := currPos s;
        closed := true; canceled := true |},
     None).

(** Reading to exhaustion: one [Read] per buffer length of [bufs], up to
    the first [Read] that returns an error. *)
Fixpoint readAll (s : t) (bufs : list nat) : list Byte.byte * option Go.error :=
  match bufs with
  | [] => ([], None)
  | plen :: rest =>
      match Read s plen with
      | (s1, (bytes, Some e)) => (bytes, Some e)
      | (s1, (bytes, None)) =>
          let '(more, e) := readAll s1 rest in (bytes ++ more, e)
      end
  end.

End SegmentsStream.

(** ** File Stream: the seekable reader over one NZB file *)

Module FileStream.

Import Pool.

Record t := {
  file : Nzb.File;
  fileSize : Z;
  avgSegmentSize : Z;
  segmentSizeRatio : F64.t;
  bufferSize : Z;
  position : Z;
  stream : option SegmentsStream.t;
  closed : bool;
}.

(** [NewFileStream]: the first segment is fetched once and its
    [FileSize] is taken as the size of the file.  [None] stands for the
    panic of [file.Segments[0]] on a file without segments. *)
Definition NewFileStream (cfg : Config) (pool : fetcher) (f : Nzb.File)
    (bufSize : Z) : option (Go.result t) :=
  let bufSize := if bufSize <=? 0 then StreamBufferSize cfg else bufSize in
  match Nzb.Segments f with
  | [] => None
  | firstSegment :: _ =>
      Some
        match pool firstSegment with
        | Go.Err e => Go.Err e
        | Go.Ok first =>
            let size := FileSize first in
            let avg :=
              if 0 <? Nzb.SegmentCount f
              then Z.quot size (Nzb.SegmentCount f) else 0 in
            let totalSegmentBytes := Nzb.Size f in
            let ratio :=
              if 0 <? totalSegmentBytes
              then F64.div (F64.of_int size) (F64.of_int totalSegmentBytes)
              else F64.of_int 1 in
            Go.Ok {| file := f; fileSize := size; avgSegmentSize := avg;
                     segmentSizeRatio := ratio; bufferSize := bufSize;
                     position := 0; stream := None; closed := false |}
        end
  end.

Definition Size (s : t) : Z := fileSize s.

Definition SeekStart : Z := 0.
Definition SeekCurrent : Z := 1.
Definition SeekEnd : Z := 2.

(** The position [Seek] computes from [offset] and [whence], before it
    is checked: [None] for a [whence] that is none of the three. *)
Definition seekTarget (s : t) (offset whence : Z) : option Z :=
  if whence =? SeekStart then Some offset
  else if whence =? SeekCurrent then Some (Int64.add (position s) offset)
  else if whence =? SeekEnd then Some (Int64.add (fileSize s) offset)
  else None.

Inductive seekError :=
  | InvalidWhence (whence : Z)
  | NegativePosition (newPos : Z).

(** [Seek]: the stream after the call, the position returned and the
    error.  A change of position closes and drops the Segments Stream. *)
Definition Seek (s : t) (offset whence : Z) : t * (Z * option seekError) :=
  match seekTarget s offset whence with
  | None => (s, (position s, Some (InvalidWhence whence)))
  | Some newPos =>
      if newPos <? 0 then (s, (position s, Some (NegativePosition newPos)))
      else
        let newPos := if fileSize s <? newPos then fileSize s else newPos in
        if newPos =? position s then (s, (position s, None))
        else
          ({| file := file s; fileSize := fileSize s;
              avgSegmentSize := avgSegmentSize s;
              segmentSizeRatio := segmentSizeRatio s;
              bufferSize := bufferSize s;
              position := newPos; stream := None; closed := closed s |},
           (newPos, None))
  end.

(** [getSegmentByteRange]: the decoded range of segment [index], by a
    fetch.  Indexing outside the segments panics in the source; the
    search only asks for indices inside. *)
Definition getSegmentByteRange (pool : fetcher) (s : t) (index : Z)
    : Go.result ByteRange :=
  match nth_error (Nzb.Segments (file s)) (Z.to_nat index) with
  | None => Go.Err (Go.Errorf "index out of range")
  | Some segment =>
      match pool segment with
      | Go.Err e => Go.Err e
      | Go.Ok data => Go.Ok (Range data)
      end
  end.

(** The loop of [estimateSegmentIndex] from segment [i] on. *)
Fixpoint estimateFrom (ratio : F64.t) (segs : list Nzb.Segment)
    (i offset targetByte : Z) : option Z :=
  match segs with
  | [] => None
  | seg :: rest =>
      let segBytes := Nzb.Bytes seg in
      if segBytes <=? 0 then estimateFrom ratio rest (i + 1) offset targetByte
      else
        let estimatedDecodedBytes := F64.to_int64 (F64.mul (F64.of_int segBytes) ratio) in
        if targetByte <? Int64.add offset estimatedDecodedBytes then Some i
        else estimateFrom ratio rest (i + 1)
               (Int64.add offset estimatedDecodedBytes) targetByte
  end.

Definition estimateSegmentIndex (s : t) (targetByte : Z) : Z :=
  match estimateFrom (segmentSizeRatio s) (Nzb.Segments (file s)) 0 0 targetByte with
  | Some i => i
  | None => Nzb.SegmentCount (file s) - 1
  end.

Record searchResult := {
  SegmentIndex : Z;
  ByteRange_ : ByteRange;
}.

Inductive searchError :=
  | NoSegments
  | OutOfBounds
  | CannotFind (byteRange : ByteRange)
  | FetchFailed (index : Z) (e : Go.error)
  | Corrupt (index : Z)
  | Unfinished.

(** What [interpolationSearch] returns. *)
Inductive outcome :=
  | Found (r : searchResult)
  | Failed (e : searchError).

(** The index the loop of [interpolationSearch] probes next, by linear
    interpolation in [float64] and clamped into [indexRange]. *)
Definition guessIndex (targetByte : Z) (indexRange byteRange : ByteRange) : Z :=
  let bytesPerSegment :=
    F64.div (F64.of_int (Count byteRange)) (F64.of_int (Count indexRange)) in
  let offsetFromStart := F64.of_int (Int64.sub targetByte (Start byteRange)) in
  let guessedOffset := F64.to_int64 (F64.div offsetFromStart bytesPerSegment) in
  let guessedIndex := Int64.add (Start indexRange) guessedOffset in
  let guessedIndex :=
    if guessedIndex <? Start indexRange then Start indexRange else guessedIndex in
  if End_ indexRange <=? guessedIndex then Int64.sub (End_ indexRange) 1
  else guessedIndex.

(** The [for] loop of [interpolationSearch], the context not cancelled.
    [probes] lists the indices whose range was asked of the pool so far.
    Every round either returns or shrinks [indexRange], so [rounds] is
    passed as one more than the number of segments and [Unfinished]
    never comes out (lemma [searchLoop_finishes]). *)
Fixpoint searchLoop (rounds : nat) (pool : fetcher) (s : t) (targetByte : Z)
    (indexRange byteRange : ByteRange) (probes : list Z) : outcome * list Z :=
  match rounds with
  | O => (Failed Unfinished, probes)
  | S rounds' =>
      if negb (Contains byteRange targetByte) || (Count indexRange <=? 0)
      then (Failed (CannotFind byteRange), probes)
      else
        let guessedIndex := guessIndex targetByte indexRange byteRange in
        let probes := probes ++ [guessedIndex] in
        match getSegmentByteRange pool s guessedIndex with
        | Go.Err e => (Failed (FetchFailed guessedIndex e), probes)
        | Go.Ok segmentRange =>
            if negb (ContainsRange byteRange segmentRange)
            then (Failed (Corrupt guessedIndex), probes)
            else if Contains segmentRange targetByte
            then (Found {| SegmentIndex := guessedIndex; ByteRange_ := segmentRange |},
                  probes)
            else if targetByte <? Start segmentRange
            then searchLoop rounds' pool s targetByte
                   {| Start := Start indexRange; End_ := guessedIndex |}
                   {| Start := Start byteRange; End_ := Start segmentRange |}
                   probes
            else searchLoop rounds' pool s targetByte
                   {| Start := Int64.add guessedIndex 1; End_ := End_ indexRange |}
                   {| Start := End_ segmentRange; End_ := End_ byteRange |}
                   probes
        end
  end.

(** [interpolationSearch]: the segment that holds [targetByte], and the
    probes made on the way. *)
Definition interpolationSearch (pool : fetcher) (s : t) (targetByte : Z)
    : outcome * list Z :=
  let segmentCount := Nzb.SegmentCount (file s) in
  if segmentCount =? 0 then (Failed NoSegments, [])
  else if (targetByte <? 0) || (fileSize s <=? targetByte)
  then (Failed OutOfBounds, [])
  else
    let rounds := S (Z.to_nat segmentCount) in
    let whole := {| Start := 0; End_ := segmentCount |} in
    let allBytes := {| Start := 0; End_ := fileSize s |} in
    let estimatedIdx := estimateSegmentIndex s targetByte in
    if (0 <=? estimatedIdx) && (estimatedIdx <? segmentCount) then
      match getSegmentByteRange pool s estimatedIdx with
      | Go.Ok segmentRange =>
          if Contains segmentRange targetByte
          then (Found {| SegmentIndex := estimatedIdx; ByteRange_ := segmentRange |},
                [estimatedIdx])
          else if targetByte <? Start segmentRange
          then searchLoop rounds pool s targetByte
                 {| Start := 0; End_ := estimatedIdx |}
                 {| Start := 0; End_ := Start segmentRange |}
                 [estimatedIdx]
          else searchLoop rounds pool s targetByte
                 {| Start := Int64.add estimatedIdx 1; End_ := segmentCount |}
                 {| Start := End_ segmentRange; End_ := fileSize s |}
                 [estimatedIdx]
      | Go.Err _ =>
          searchLoop rounds pool s targetByte whole allBytes [estimatedIdx]
      end
    else searchLoop rounds pool s targetByte whole allBytes [].

End FileStream.

(** ** Text: the functions of package strings and the regular expressions

    File names and links are taken as ASCII text, on which a byte is a
    character and [strings.ToLower] keeps the length. *)

Module Text.

Definition isDigit (c : ascii) : bool :=
  let n := nat_of_ascii c in ((48 <=? n) && (n <=? 57))%nat.

Definition lowerChar (c : ascii) : ascii :=
  let n := nat_of_ascii c in
  if ((65 <=? n) && (n <=? 90))%nat then ascii_of_nat (n + 32) else c.

Definition chars (s : string) : list ascii := list_ascii_of_string s.
Definition text (l : list ascii) : string := string_of_list_ascii l.

Definition ToLower (s : string) : string := text (map lowerChar (chars s)).

(** [strings.EqualFold] on ASCII text. *)
Definition EqualFold (a b : string) : bool := String.eqb (ToLower a) (ToLower b).

(** [s[:n]]. *)
Definition prefix (n : nat) (s : string) : string := text (take n (chars s)).

Fixpoint dropWhile (p : ascii -> bool) (l : list ascii) : list ascii :=
  match l with
  | c :: rest => if p c then dropWhile p rest else l
  | [] => []
  end.

Fixpoint takeWhile (p : ascii -> bool) (l : list ascii) : list ascii :=
  match l with
  | c :: rest => if p c then c :: takeWhile p rest else []
  | [] => []
  end.

(** [strings.Trim(s, "/")]. *)
Definition isSlash (c : ascii) : bool := (nat_of_ascii c =? 47)%nat.

Definition TrimSlashes (s : string) : string :=
  text (rev (dropWhile isSlash (rev (dropWhile isSlash (chars s))))).

(** [strings.Cut(s, sep)] for a one-byte [sep]: the text before the
    first [sep] (all of [s] when there is none) and whether it was
    found. *)
Fixpoint cutChars (sep : ascii) (l : list ascii) : list ascii * bool :=
  match l with
  | [] => ([], false)
  | c :: rest =>
      if Ascii.eqb c sep then ([], true)
      else let '(before, found) := cutChars sep rest in (c :: before, found)
  end.

Definition Cut (s : string) (sep : ascii) : string * bool :=
  let '(before, found) := cutChars sep (chars s) in (text before, found).

(** Splitting off the decimal digits a text ends with:
    [(before, digits)] with [digits] the longest such run. *)
Definition splitDigits (l : list ascii) : list ascii * list ascii :=
  let r := rev l in
  (rev (dropWhile isDigit r), rev (takeWhile isDigit r)).

(** The text before the suffix [suffix] (given in lower case), letter
    case ignored; [None] when the text does not end with it. *)
Definition stripSuffixFold (suffix : string) (l : list ascii) : option (list ascii) :=
  let k := (length l - length (chars suffix))%nat in
  if (length (chars suffix) <=? length l)%nat
     && String.eqb (text (map lowerChar (drop k l))) suffix
  then Some (take k l) else None.

Definition digitValue (c : ascii) : Z := Z.of_nat (nat_of_ascii c) - 48.

(** [strconv.Atoi] on a run of decimal digits, its error dropped: the
    number, or the largest [int] when the number does not fit. *)
Definition Atoi (digits : list ascii) : Z :=
  Z.min (fold_left (fun acc c => acc * 10 + digitValue c) digits 0) Int64.max_int.

(** A match of a regular expression anchored at the end of the text:
    the text before the match and the digits of its group. *)
Definition regexMatch := option (list ascii * list ascii).

(** [<before>(\d+)<after>$], letter case ignored: the digits are the
    whole run in front of [after], since [before] ends in a letter or a
    dot. *)
Definition matchNumbered (before after : string) (s : string) : regexMatch :=
  match stripSuffixFold after (chars s) with
  | None => None
  | Some s1 =>
      let '(s2, digits) := splitDigits s1 in
      match digits with
      | [] => None
      | _ :: _ =>
          match stripSuffixFold before s2 with
          | None => None
          | Some s3 => Some (s3, digits)
          end
      end
  end.

(** [<suffix>$], letter case ignored. *)
Definition matchSuffix (suffix : string) (s : string) : regexMatch :=
  match stripSuffixFold suffix (chars s) with
  | None => None
  | Some s1 => Some (s1, [])
  end.

(** [len(matches[0])] of a match in [s]. *)
Definition matchLength (s : string) (m : list ascii * list ascii) : nat :=
  (length (chars s) - length (fst m))%nat.

End Text.

(** ** Package slices and cmp *)

Module Slices.

Section Sort.

Context {A : Type}.
Variable cmp : A -> A -> Z.

(** One pass of the insertion sort of [slices.SortStableFunc]: [x] is
    swapped towards the front while [cmp x y < 0] for the element [y]
    in front of it.  The sorted part is held back to front. *)
Fixpoint sink (x : A) (sortedRev : list A) : list A :=
  match sortedRev with
  | [] => [x]
  | y :: rest => if cmp x y <? 0 then y :: sink x rest else x :: sortedRev
  end.

(** [slices.SortStableFunc].  Go sorts runs of up to 20 elements by this
    insertion sort and merges longer ones stably; for a [cmp] that is a
    consistent ordering, the one the callers mean to pass, every stable
    sort gives this same result. *)
Definition SortStableFunc (l : list A) : list A :=
  rev (fold_left (fun sortedRev x => sink x sortedRev) l []).

End Sort.

(** [cmp.Compare] on integers. *)
Definition Compare (x y : Z) : Z :=
  if x <? y then -1 else if y <? x then 1 else 0.

End Slices.

(** ** File types *)

Module FileTypes.

(** Modelled from the spec: the declaration of [FileType] and its
    [String] method are not among the sources.  The specification lists
    the types a file is given ("one of {Plain, RAR, SevenZ, ...}"); the
    three the grouping code names are kept, and [String] gives each a
    name of its own without a colon. *)
Inductive FileType :=
  | FileTypePlain
  | FileTypeRAR
  | FileType7z.

Definition String_ (t : FileType) : string :=
  match t with
  | FileTypePlain => "plain"
  | FileTypeRAR => "rar"
  | FileType7z => "7z"
  end.

Definition eqb (a b : FileType) : bool :=
  match a, b with
  | FileTypePlain, FileTypePlain => true
  | FileTypeRAR, FileTypeRAR => true
  | FileType7z, FileType7z => true
  | _, _ => false
  end.

End FileTypes.

(** ** RAR archives *)

Module Rar.

Import Text.

(** The fields of [rardecode.FileHeader] the adapter reads. *)
Record FileHeader := {
  HeaderName : string;
  PackedSize : Z;
  UnPackedSize : Z;
  Solid : bool;
}.

(** What [rardecode.OpenIter] gives: it fails, or it iterates over the
    headers and ends with [iter.Err()]. *)
Inductive headerIter :=
  | OpenFailed (e : Go.error)
  | Iter (headers : list FileHeader) (err : option Go.error).

Record UsenetRARFile := {
  name : string;
  unPackedSize : Z;
  packedSize : Z;
  solid : bool;
}.

(** [RARArchive].  [openIter splitBlocks password] stands for the
    decoder run over the archive's file system and first volume, with
    [IterSplitBlocks] or without and with the password option when the
    password is not empty; [isSolid] and [files] are the two memo
    fields. *)
Record RARArchive := {
  openIter : bool -> string -> headerIter;
  password : string;
  isSolidMemo : option bool;
  files : option (list UsenetRARFile);
}.

Definition Open (a : RARArchive) (pw : string) : RARArchive :=
  {| openIter := openIter a; password := pw;
     isSolidMemo := isSolidMemo a; files := files a |}.

(** The header loop of [isSolid]: stop at the first solid header. *)
Fixpoint anySolid (headers : list FileHeader) : bool :=
  match headers with
  | [] => false
  | h :: rest => if Solid h then true else anySolid rest
  end.

Definition isSolid (a : RARArchive) : RARArchive * Go.result bool :=
  match isSolidMemo a with
  | Some b => (a, Go.Ok b)
  | None =>
      match openIter a true (password a) with
      | OpenFailed e => (a, Go.Err e)
      | Iter headers err =>
          let found := anySolid headers in
          match (if found then None else err) with
          | Some e => (a, Go.Err e)
          | None =>
              ({| openIter := openIter a; password := password a;
                  isSolidMemo := Some found; files := files a |},
               Go.Ok found)
          end
      end
  end.

(** [RARArchive.IsStreamable]: [err == nil && !solid]. *)
Definition IsStreamable (a : RARArchive) : RARArchive * bool :=
  match isSolid a with
  | (a1, Go.Ok b) => (a1, negb b)
  | (a1, Go.Err _) => (a1, false)
  end.

Definition fileOfHeader (h : FileHeader) : UsenetRARFile :=
  {| name := HeaderName h; unPackedSize := UnPackedSize h;
     packedSize := PackedSize h; solid := Solid h |}.

Definition GetFiles (a : RARArchive) : RARArchive * Go.result (list UsenetRARFile) :=
  match files a with
  | Some fs => (a, Go.Ok fs)
  | None =>
      match openIter a false (password a) with
      | OpenFailed e => (a, Go.Err e)
      | Iter headers (Some e) => (a, Go.Err e)
      | Iter headers None =>
          let fs := map fileOfHeader headers in
          ({| openIter := openIter a; password := password a;
              isSolidMemo := isSolidMemo a; files := Some fs |},
           Go.Ok fs)
      end
  end.

(** [UsenetRARFile.IsStreamable]. *)
Definition FileIsStreamable (f : UsenetRARFile) : bool :=
  negb (solid f) && (packedSize f =? unPackedSize f).

(** [(?i)\.part(\d+)\.rar$], [(?i)\.r(\d+)$] and [(?i)\.rar$]. *)
Definition rarPartNumberRegex : string -> regexMatch := matchNumbered ".part" ".rar".
Definition rarRNumberRegex : string -> regexMatch := matchNumbered ".r" "".
Definition rarFirstPartRegex : string -> regexMatch := matchSuffix ".rar".

Definition GetRARVolumeNumber (filename : string) : Z :=
  match rarPartNumberRegex filename with
  | Some (_, digits) => Atoi digits
  | None =>
      match rarRNumberRegex filename with
      | Some (_, digits) => Int64.add (Atoi digits) 1
      | None =>
          match rarFirstPartRegex filename with
          | Some _ => 0
          | None => -1
          end
      end
  end.

End Rar.

(** ** 7z archives *)

Module SevenZip.

Import Text.

(** Modelled from the spec: the 7z adapter is not among the sources.
    The specification gives its volume numbering: "[.7z.<digits>$] is
    [<digits>]; [.7z$] is 0; else -1", letter case ignored. *)
Definition sevenzipPartNumberRegex : string -> regexMatch := matchNumbered ".7z." "".
Definition sevenzipFirstPartRegex : string -> regexMatch := matchSuffix ".7z".

Definition Get7zVolumeNumber (filename : string) : Z :=
  match sevenzipPartNumberRegex filename with
  | Some (_, digits) => Atoi digits
  | None =>
      match sevenzipFirstPartRegex filename with
      | Some _ => 0
      | None => -1
      end
  end.

End SevenZip.

(** ** Archive Volume Grouper *)

Module ArchiveVolume.

Import Text FileTypes.

(** A file handed to the grouper: a [simpleFile], which may also be a
    [typedArchiveFile] and then knows its [FileType()] and [Volume()]. *)
Record file := {
  Name : string;
  Size : Z;
  typed : option (FileType * Z);
}.

Record archiveVolumeGroup := {
  BaseName : string;
  Aliased : bool;
  FileType_ : FileType;
  Files : list file;
  Volumes : list Z;
  TotalSize : Z;
}.

(** [trailingNumbersRegex] is [\.\d+$]. *)
Definition stripTrailingNumbers (filename : string) : string :=
  match matchNumbered "." "" filename with
  | Some m => prefix (length (chars filename) - matchLength filename m) filename
  | None => filename
  end.

(** [filename[:len(filename)-len(matches[0])]] for a match in the
    lower-cased name. *)
Definition cutMatch (filename lower : string) (m : list ascii * list ascii) : string :=
  prefix (length (chars filename) - matchLength lower m) filename.

Definition getArchiveBaseName (filename : string) : string * FileType :=
  let lower := ToLower filename in
  match Rar.rarPartNumberRegex lower with
  | Some m => (cutMatch filename lower m, FileTypeRAR)
  | None =>
  match Rar.rarRNumberRegex lower with
  | Some m => (cutMatch filename lower m, FileTypeRAR)
  | None =>
  match Rar.rarFirstPartRegex lower with
  | Some m => (cutMatch filename lower m, FileTypeRAR)
  | None =>
  match SevenZip.sevenzipPartNumberRegex lower with
  | Some m => (cutMatch filename lower m, FileType7z)
  | None =>
  match SevenZip.sevenzipFirstPartRegex lower with
  | Some m => (cutMatch filename lower m, FileType7z)
  | None => ("", FileTypePlain)
  end end end end end.

Definition getFileVolume (f : file) (fileType : FileType) : Z :=
  match typed f with
  | Some (_, volume) => volume
  | None =>
      match fileType with
      | FileTypeRAR => Rar.GetRARVolumeNumber (Name f)
      | FileType7z => SevenZip.Get7zVolumeNumber (Name f)
      | FileTypePlain => -1
      end
  end.

(** The group a file goes to: base name, type and whether it is
    aliased; [None] for a file the first loop passes over. *)
Definition groupOf (f : file) : option (string * FileType * bool) :=
  let '(baseName, fileType) := getArchiveBaseName (Name f) in
  match fileType with
  | FileTypePlain =>
      match typed f with
      | Some (ty, _) =>
          if eqb ty FileTypePlain then None
          else Some (stripTrailingNumbers (Name f), ty, true)
      | None => None
      end
  | _ => Some (baseName, fileType, false)
  end.

Definition groupKey (baseName : string) (fileType : FileType) : string :=
  String.append baseName (String.append ":" (String_ fileType)).

(** One round of the first loop of [groupArchiveVolumes]. *)
Definition addFile (groups : gmap string archiveVolumeGroup) (f : file)
    : gmap string archiveVolumeGroup :=
  match groupOf f with
  | None => groups
  | Some (baseName, fileType, aliased) =>
      let key := groupKey baseName fileType in
      match groups !! key with
      | Some g =>
          <[key := {| BaseName := BaseName g; Aliased := Aliased g;
                      FileType_ := FileType_ g;
                      Files := Files g ++ [f]; Volumes := Volumes g;
                      TotalSize := Int64.add (TotalSize g) (Size f) |}]> groups
      | None =>
          <[key := {| BaseName := baseName; Aliased := aliased;
                      FileType_ := fileType;
                      Files := [f]; Volumes := [];
                      TotalSize := Size f |}]> groups
      end
  end.

Definition collectGroups (files : list file) : gmap string archiveVolumeGroup :=
  fold_left addFile files ∅.

(** The body of the second loop: the files of a group put in the order
    of their volume numbers. *)
Definition compareVolume (a b : nat * Z) : Z := Int64.sub (snd a) (snd b).

Definition orderVolumes (g : archiveVolumeGroup) : archiveVolumeGroup :=
  let ivs := imap (fun i f => (i, getFileVolume f (FileType_ g))) (Files g) in
  let ivs := Slices.SortStableFunc compareVolume ivs in
  {| BaseName := BaseName g; Aliased := Aliased g; FileType_ := FileType_ g;
     Files := omap (fun iv => Files g !! fst iv) ivs;
     Volumes := map snd ivs;
     TotalSize := TotalSize g |}.

Definition compareTotalSize (a b : archiveVolumeGroup) : Z :=
  Slices.Compare (TotalSize b) (TotalSize a).

(** [groupArchiveVolumes] when the [range] over the map visits the
    groups in the order [visited]. *)
Definition groupArchiveVolumesIn (visited : list archiveVolumeGroup)
    : list archiveVolumeGroup :=
  Slices.SortStableFunc compareTotalSize (map orderVolumes visited).

(** [groupArchiveVolumes files] may return [result]: Go visits the
    entries of a map in an order of its choosing. *)
Definition groupArchiveVolumes (files : list file)
    (result : list archiveVolumeGroup) : Prop :=
  exists visited,
    Permutation visited (map snd (map_to_list (collectGroups files)))
    /\ result = groupArchiveVolumesIn visited.

End ArchiveVolume.

(** ** Content Resolver: the public stream API *)

Module Stream.

Import Text.

(** Modelled from the spec: the declaration of [NZBContentFile] is not
    among the sources.  The specification gives the record as
    "{type, name, alias?, size, streamable, errors[], files[], parts[],
    volume?}"; the fields the resolver reads, [Name], [Alias] and
    [Parts], are kept. *)
#[local] Set Warnings "-register-all".
Inductive NZBContentFile :=
  | ContentFile (cfName cfAlias : string) (cfParts : list NZBContentFile).

Definition CName (cf : NZBContentFile) : string :=
  match cf with ContentFile n _ _ => n end.
Definition CAlias (cf : NZBContentFile) : string :=
  match cf with ContentFile _ a _ => a end.
Definition CParts (cf : NZBContentFile) : list NZBContentFile :=
  match cf with ContentFile _ _ p => p end.

Record StreamConfig := {
  Password : string;
  SegmentBufferSize : Z;
  ContentFiles : list NZBContentFile;
}.

Definition emptyConfig : StreamConfig :=
  {| Password := ""; SegmentBufferSize := 0; ContentFiles := [] |}.

(** [findFileByName]: the NZB file and the content record, either of
    which may be [nil]. *)
Definition findFileByName (nzbDoc : Nzb.NZB) (contentFiles : list NZBContentFile)
    (name : string) : option Nzb.File * option NZBContentFile :=
  let name := TrimSlashes name in
  let contentFile :=
    find (fun cf => EqualFold (CName cf) name || EqualFold (CAlias cf) name)
         contentFiles in
  let lookupName :=
    match contentFile with Some cf => CName cf | None => name end in
  match find (fun f => EqualFold (Nzb.Name f) lookupName) (Nzb.Files nzbDoc) with
  | None => (None, None)
  | Some f => (Some f, contentFile)
  end.

(** How far [StreamByContentPath] gets before it turns to the network:
    an error, the plain stream of a file, a [nil] dereference, or the
    archive it goes on to open (the name its type is detected with, the
    file whose first segment is fetched, the aliases given to the
    virtual file system, the archive's name and the rest of the path). *)
Inductive resolution :=
  | InvalidContentPath
  | NoFileMatching (name : string)
  | StreamPlainFile (f : Nzb.File)
  | NilDereference
  | OpenArchive (archiveName : string) (archiveFile : Nzb.File)
      (aliases : list (string * string)) (name : string) (rest : list string).

Definition partAliases (cf : NZBContentFile) : list (string * string) :=
  omap (fun part =>
          if String.eqb (CAlias part) "" then None
          else Some (CAlias part, CName part))
       (CParts cf).

Definition StreamByContentPath (nzbDoc : Nzb.NZB) (contentPath : list string)
    (config : option StreamConfig) : resolution :=
  match contentPath with
  | [] => InvalidContentPath
  | name :: rest =>
      if String.eqb name "" then InvalidContentPath
      else
        let config := match config with Some c => c | None => emptyConfig end in
        match findFileByName nzbDoc (ContentFiles config) name with
        | (None, _) => NoFileMatching name
        | (Some f, contentFile) =>
            match rest with
            | [] => StreamPlainFile f
            | _ :: _ =>
                match contentFile with
                | None => NilDereference
                | Some cf =>
                    let archiveName :=
                      if String.eqb (CAlias cf) "" then CName cf else CAlias cf in
                    OpenArchive archiveName f (partAliases cf) name rest
                end
            end
        end
  end.

(** How far [streamFile] gets before it fetches the first segment. *)
Inductive selection :=
  | NoFiles
  | IndexOutOfRange (fileIdx count : Z)
  | FileHasNoSegments
  | StreamFileAt (fileIdx : Z) (f : Nzb.File).

Definition streamFile (nzbDoc : Nzb.NZB) (fileIdx : Z) : selection :=
  if (fileIdx <? 0) || (Nzb.FileCount nzbDoc <=? fileIdx)
  then IndexOutOfRange fileIdx (Nzb.FileCount nzbDoc)
  else
    match nth_error (Nzb.Files nzbDoc) (Z.to_nat fileIdx) with
    | None => IndexOutOfRange fileIdx (Nzb.FileCount nzbDoc)
    | Some f =>
        if Nzb.SegmentCount f =? 0 then FileHasNoSegments
        else StreamFileAt fileIdx f
    end.

Section LargestFile.

(** [isVideoFile] and [IsArchiveFile] classify a name by its extension;
    their tables are not among the sources. *)
Variable isVideoFile : string -> bool.
Variable IsArchiveFile : string -> bool.

(** The [skip] function [StreamLargestFile] passes on. *)
Definition skipFile (filename : string) : bool :=
  negb (isVideoFile filename) && negb (IsArchiveFile filename).

Definition StreamLargestFile (nzbDoc : Nzb.NZB) : selection :=
  match Nzb.Files nzbDoc with
  | [] => NoFiles
  | _ :: _ => streamFile nzbDoc (Nzb.GetLargestFileIdx nzbDoc (Some skipFile))
  end.

End LargestFile.

End Stream.

(** ** Package nzb_info: fetching NZB files *)

Module NzbInfo.

Import Text.

Record NZBFile := {
  Blob : string;
  FileName : string;
  Link : string;
  Mod_ : Z;
}.

(** [cleanNZBFileLink]. *)
Definition cleanNZBFileLink (link : string) : string :=
  let '(link, ok) := Cut link "?" in
  let link := if ok then link else fst (Cut link "&") in
  fst (Cut link "#").

(** [time.Minute] in nanoseconds, the unit of [time.Duration]. *)
Definition Minute : Z := 60 * 1000000000.

(** The lifetime of [nzbFetchErrCache]. *)
Definition fetchErrLifetime : Z := 5 * Minute.

(** Modelled from the spec: the in-memory cache behind
    [nzbFetchErrCache] is not among the sources.  An entry added at a
    time is found for the lifetime of the cache ("negatively cached for
    5 minutes") and no longer; each entry is kept with the time it
    expires at. *)
Definition cacheGet {V} (entries : gmap string (V * Z)) (now : Z) (key : string)
    : option V :=
  match entries !! key with
  | Some (v, expires) => if now <? expires then Some v else None
  | None => None
  end.

Definition cacheAdd {V} (entries : gmap string (V * Z)) (lifetime now : Z)
    (key : string) (v : V) : gmap string (V * Z) :=
  <[key := (v, now + lifetime)]> entries.

(** The two caches and the requests sent so far.  The file cache is
    kept without its lifetime and its eviction: what matters below is
    whether it holds a file for a key. *)
Record state := {
  nzbFileCache : gmap string NZBFile;
  nzbFetchErrCache : gmap string (string * Z);
  requests : list string;
}.

(** The answer to a GET request. *)
Record response := {
  StatusCode : Z;
  ContentLength : Z;
  Body : string;
  FileNameGiven : string;
}.

(** [err.Error()]. *)
Definition errorText (e : Go.error) : string :=
  match e with
  | Go.EOF => "EOF"
  | Go.Canceled => "context canceled"
  | Go.Errorf msg => msg
  end.

Section Fetch.

(** [util.MD5Hash] and [config.Newz.NZBFileMaxSize]. *)
Variable MD5Hash : string -> string.
Variable NZBFileMaxSize : Z.

Definition HashNZBFileLink (link : string) : string :=
  MD5Hash (cleanNZBFileLink link).

(** The function run under [nzbFileFetchSG.Do], up to the file it
    builds: the checks on the answer.  The file name worked out from the
    headers is given with the answer, and the numbers that the source
    prints into the messages are left out. *)
Definition download (now : Z) (link : string) (answer : Go.result response)
    : Go.result NZBFile :=
  match answer with
  | Go.Err e => Go.Err e
  | Go.Ok res =>
      if (StatusCode res <? 200) || (300 <=? StatusCode res)
      then Go.Err (Go.Errorf "failed to fetch nzb: status")
      else if NZBFileMaxSize <? ContentLength res
      then Go.Err (Go.Errorf "file too large")
      else if NZBFileMaxSize <? Z.of_nat (String.length (Body res))
      then Go.Err (Go.Errorf "file too large")
      else if String.eqb (Body res) ""
      then Go.Err (Go.Errorf "empty response body")
      else Go.Ok {| Blob := Body res; FileName := FileNameGiven res;
                    Link := link; Mod_ := now |}
  end.

(** [fetchNZBFile] at time [now], when the network would answer a
    request for a link with [network link] and [nzbFileCache.Add] of a
    file under a key would return [addFile key file].  The file cache is
    kept on disk, and its [Add] fails when the file cannot be encoded
    or written; the fetch then logs a warning and returns the file all
    the same, and [Get] goes on finding what it found before.  The
    callback [onFetch], which is run after a successful [Add], is left
    out. *)
Definition fetchNZBFile (now : Z) (network : string -> Go.result response)
    (addFile : string -> NZBFile -> option Go.error)
    (link : string) (st : state) : state * Go.result NZBFile :=
  let cacheKey := HashNZBFileLink link in
  match nzbFileCache st !! cacheKey with
  | Some nzbFile => (st, Go.Ok nzbFile)
  | None =>
      match cacheGet (nzbFetchErrCache st) now cacheKey with
      | Some fetchErr =>
          (st, Go.Err (Go.Errorf (String.append "cached failure: " fetchErr)))
      | None =>
          match download now link (network link) with
          | Go.Err e =>
              ({| nzbFileCache := nzbFileCache st;
                  nzbFetchErrCache :=
                    cacheAdd (nzbFetchErrCache st) fetchErrLifetime now
                             cacheKey (errorText e);
                  requests := requests st ++ [link] |},
               Go.Err e)
          | Go.Ok file =>
              ({| nzbFileCache :=
                    match addFile cacheKey file with
                    | None => <[cacheKey := file]> (nzbFileCache st)
                    | Some _ => nzbFileCache st
                    end;
                  nzbFetchErrCache := nzbFetchErrCache st;
                  requests := requests st ++ [link] |},
               Go.Ok file)
          end
      end
  end.

End Fetch.

End NzbInfo.

(** ** Package io: the helpers the File Stream reads through *)

Module Io.

Import SegmentsStream.

(** [io.ErrUnexpectedEOF], which is [errors.New("unexpected EOF")]. *)
Definition ErrUnexpectedEOF : Go.error := Go.Errorf "unexpected EOF".

(** The length of the buffer [io.Discard] reads into. *)
Definition discardBuffer : Z := 8192.

(** The loop of [io.Discard.ReadFrom] over an [io.LimitedReader] that
    lets [remaining] more bytes through: each round reads into a buffer
    of [discardBuffer] bytes cut down to [remaining]; [EOF] from the
    stream ends the copy without an error.  A round that goes on has
    read at least one byte, so [remaining + 1] rounds are all the loop
    can make (lemma [discardLoop_skips]). *)
Fixpoint discardLoop (rounds : nat) (s : t) (remaining written : Z)
    : t * (Z * option Go.error) :=
  match rounds with
  | O => (s, (written, None))
  | S rounds' =>
      if remaining <=? 0 then (s, (written, None))
      else
        let '(s1, (bytes, err)) := Read s (Z.to_nat (Z.min discardBuffer remaining)) in
        let readSize := Z.of_nat (length bytes) in
        match err with
        | Some Go.EOF => (s1, (Int64.add written readSize, None))
        | Some e => (s1, (Int64.add written readSize, Some e))
        | None =>
            discardLoop rounds' s1 (Int64.sub remaining readSize)
              (Int64.add written readSize)
        end
  end.

(** [io.CopyN(io.Discard, stream, n)]: the bytes skipped and the error,
    which is [EOF] when the stream ends before [n] bytes. *)
Definition CopyN (s : t) (n : Z) : t * (Z * option Go.error) :=
  let '(s1, (written, err)) := discardLoop (S (Z.to_nat n)) s n 0 in
  if written =? n then (s1, (n, None))
  else
    (s1, (written,
          match err with
          | None => if written <? n then Some Go.EOF else None
          | Some e => Some e
          end)).

(** The loop of [io.ReadAtLeast] with [min = len(buf) = plen]: [Read]
    into the rest of the buffer until it is full or an error comes.  A
    round that goes on has read at least one byte, so [plen] rounds are
    all the loop can make (lemma [readAtLeast_reads]). *)
Fixpoint readAtLeast (rounds : nat) (s : t) (plen : nat) (out : list Byte.byte)
    : t * (list Byte.byte * option Go.error) :=
  if (plen <=? length out)%nat then (s, (out, None))
  else
    match rounds with
    | O => (s, (out, None))
    | S rounds' =>
        let '(s1, (bytes, err)) := Read s (plen - length out) in
        match err with
        | Some e => (s1, (out ++ bytes, Some e))
        | None => readAtLeast rounds' s1 plen (out ++ bytes)
        end
    end.

(** [io.ReadFull(stream, p)] with [len(p) = plen]. *)
Definition ReadFull (s : t) (plen : nat) : t * (list Byte.byte * option Go.error) :=
  let '(s1, (out, err)) := readAtLeast plen s plen [] in
  (s1, (out,
        if (plen <=? length out)%nat then None
        else
          match err with
          | Some Go.EOF =>
              if (0 <? length out)%nat then Some ErrUnexpectedEOF else Some Go.EOF
          | _ => err
          end)).

End Io.

(** ** File Stream: reading *)

Module FileStreamIO.

Import Pool FileStream.

Section Streams.

(** The configuration, the pool, and the order in which the workers of
    a Segments Stream made over [segs] post their results. *)
Variable cfg : Config.
Variable pool : fetcher.
Variable arrival : list Nzb.Segment -> list SegmentsStream.segmentResult.

(** [createSegmentsStream] on a File Stream that is not closed (its
    context not cancelled).  The buffer size is the budget of the
    Segments Stream, which its embedding leaves out.  The slice
    [s.file.Segments[result.SegmentIndex:]] is taken at an index the
    search found, which is one of the file's. *)
Definition createSegmentsStream (s : t) (startPos bufferSize : Z)
    : Go.result SegmentsStream.t :=
  let segments := Nzb.Segments (file s) in
  if startPos =? 0
  then Go.Ok (SegmentsStream.NewSegmentsStream cfg segments (arrival segments))
  else
    match fst (interpolationSearch pool s startPos) with
    | Failed _ => Go.Err (Go.Errorf "failed to find segment for position")
    | Found result =>
        let rest := drop (Z.to_nat (SegmentIndex result)) segments in
        let stream := SegmentsStream.NewSegmentsStream cfg rest (arrival rest) in
        let skipBytes := Int64.sub startPos (Start (ByteRange_ result)) in
        if 0 <? skipBytes then
          match Io.CopyN stream skipBytes with
          | (stream1, (_, None)) => Go.Ok stream1
          | (stream1, (_, Some Go.EOF)) => Go.Ok stream1
          | (stream1, (_, Some _)) => Go.Err (Go.Errorf "failed to skip bytes")
          end
        else Go.Ok stream
    end.

(** [FileStream.Read(p)] with [len(p) = plen]. *)
Definition Read (s : t) (plen : nat) : t * (list Byte.byte * option Go.error) :=
  if closed s then (s, ([], Some (Go.Errorf "file stream is closed")))
  else if fileSize s <=? position s then (s, ([], Some Go.EOF))
  else
    match
      match stream s with
      | Some stream => Go.Ok stream
      | None => createSegmentsStream s (position s) (bufferSize s)
      end
    with
    | Go.Err e => (s, ([], Some e))
    | Go.Ok stream =>
        let '(stream1, (bytes, err)) := SegmentsStream.Read stream plen in
        ({| file := file s; fileSize := fileSize s;
            avgSegmentSize := avgSegmentSize s;
            segmentSizeRatio := segmentSizeRatio s;
            bufferSize := bufferSize s;
            position := Int64.add (position s) (Z.of_nat (length bytes));
            stream := Some stream1; closed := closed s |},
         (bytes, err))
    end.

(** [FileStream.ReadAt(p, off)] with [len(p) = plen]: a Segments Stream
    of its own is made at [off], read, and closed; the File Stream is
    left as it is.  [ReadAt] does not look at [s.closed], and [Close]
    cancels the context the search and the Segments Streams run under:
    on a closed File Stream the search, the workers and the collector
    race with the cancellation, and whether [ReadAt] gives [EOF] or the
    error of the context inside the file is not determined by the
    code.  [None] stands for that case. *)
Definition ReadAt (s : t) (plen : nat) (off : Z)
    : option (list Byte.byte * option Go.error) :=
  if (off <? 0) || (fileSize s <=? off) then Some ([], Some Go.EOF)
  else if closed s then None
  else
    let bufferSize := Int64.add (Z.of_nat plen) (avgSegmentSize s) in
    Some
      match createSegmentsStream s off bufferSize with
      | Go.Err e => ([], Some e)
      | Go.Ok stream => snd (Io.ReadFull stream plen)
      end.

(** [FileStream.Close]. *)
Definition Close (s : t) : t * option Go.error :=
  if closed s then (s, None)
  else
    match stream s with
    | Some stream =>
        let '(stream1, err) := SegmentsStream.Close stream in
        ({| file := file s; fileSize := fileSize s;
            avgSegmentSize := avgSegmentSize s;
            segmentSizeRatio := segmentSizeRatio s;
            bufferSize := bufferSize s;
            position := position s; stream := Some stream1; closed := true |},
         err)
    | None =>
        ({| file := file s; fileSize := fileSize s;
            avgSegmentSize := avgSegmentSize s;
            segmentSizeRatio := segmentSizeRatio s;
            bufferSize := bufferSize s;
            position := position s; stream := None; closed := true |},
         None)
    end.

End Streams.

End FileStreamIO.

(** ** RAR archives over the files of an NZB *)

Module UsenetRar.

(** [archiveVolume]: a volume number and the name of the file. *)
Record archiveVolume := {
  n : Z;
  name : string;
}.

(** The first loop of [NewUsenetRARArchive]: the files whose name has a
    RAR volume number, in the order of the NZB. *)
Definition volumesOf (files : list Nzb.File) : list archiveVolume :=
  omap (fun file =>
          let name := Nzb.Name file in
          let n := Rar.GetRARVolumeNumber name in
          if n <? 0 then None else Some {| n := n; name := name |})
       files.

Definition compareN (a b : archiveVolume) : Z := Int64.sub (n a) (n b).

(** [NewUsenetRARArchive]: the name the archive is given, which is the
    volume the decoder is to open first; the file system of the archive
    is the one over the NZB. *)
Definition NewUsenetRARArchive (nzbDoc : Nzb.NZB) : string :=
  match Slices.SortStableFunc compareN (volumesOf (Nzb.Files nzbDoc)) with
  | [] => ""
  | firstVolume :: _ => name firstVolume
  end.

End UsenetRar.

(** ** Content Resolver: the plain stream of a file *)

Module PlainStream.

Import Pool Stream.

(** [Stream]: the reader with the name and the size given to the
    caller.  The content type comes from [GetContentType], which is not
    among the sources, and is left out. *)
Record Stream_ := {
  ReadSeekCloser : FileStream.t;
  StreamName : string;
  StreamSize : Z;
}.

(** [fetchFirstSegment]: the fetch of [file.Segments[0]]; [None] stands
    for the panic of the index on a file without segments. *)
Definition fetchFirstSegment (pool : fetcher) (file : Nzb.File)
    : option (Go.result SegmentData) :=
  match Nzb.Segments file with
  | [] => None
  | firstSegment :: _ => Some (pool firstSegment)
  end.

(** [streamPlainFile].  [None] stands for the panic of
    [file.Segments[0]] in [NewFileStream]. *)
Definition streamPlainFile (cfg : Config) (pool : fetcher) (file : Nzb.File)
    (config : StreamConfig) : option (Go.result Stream_) :=
  match FileStream.NewFileStream cfg pool file (SegmentBufferSize config) with
  | None => None
  | Some (Go.Err e) => Some (Go.Err e)
  | Some (Go.Ok stream) =>
      Some (Go.Ok {| ReadSeekCloser := stream; StreamName := Nzb.Name file;
                     StreamSize := FileStream.Size stream |})
  end.

End PlainStream.

(** ** Package nzb: the parsed document *)

Module NzbParse.

(** [Meta]; the field [Type] is [Type_] here. *)
Record Meta := {
  Type_ : string;
  Value : string;
}.

(** [NZB.GetMeta]; [head] is [n.Head], [None] when it is [nil]. *)
Definition GetMeta (head : option (list Meta)) (metaType : string) : string :=
  match head with
  | None => ""
  | Some metas =>
      match find (fun m => String.eqb (Type_ m) metaType) metas with
      | Some m => Value m
      | None => ""
      end
  end.

(** [NZB.TotalSize]. *)
Definition TotalSize (n : Nzb.NZB) : Z :=
  fold_left (fun bytes f => Int64.add bytes (Nzb.Size f)) (Nzb.Files n) 0.

(** The comparison [Parse] sorts the segments of a file with. *)
Definition compareNumber (a b : Nzb.Segment) : Z :=
  Int64.sub (Nzb.Number a) (Nzb.Number b).

Definition sortSegments (f : Nzb.File) : Nzb.File :=
  {| Nzb.Poster := Nzb.Poster f; Nzb.Date := Nzb.Date f; Nzb.Subject := Nzb.Subject f;
     Nzb.Groups := Nzb.Groups f;
     Nzb.Segments := Slices.SortStableFunc compareNumber (Nzb.Segments f);
     Nzb.name := Nzb.name f |}.

Section Parse.

(** [File.number], which the subject parser sets; the parser is not
    among the sources. *)
Variable number : Nzb.File -> Z.

Definition compareFileNumber (a b : Nzb.File) : Z := Int64.sub (number a) (number b).

(** What [Parse] does to the document once it is decoded and its
    subjects are parsed: the files are sorted by their number, and the
    segments of each file by theirs. *)
Definition sortParsed (decoded : Nzb.NZB) : Nzb.NZB :=
  {| Nzb.Files :=
       map sortSegments (Slices.SortStableFunc compareFileNumber (Nzb.Files decoded)) |}.

End Parse.

End NzbParse.

(** ** Package dash/api: the parse response *)

Module Api.

Import NzbParse.

(** The [Meta] map of [toNzbParseResponse]: [head[m.Type] = m.Value]
    for every [m] of the head, in order. *)
Definition responseMeta (head : option (list Meta)) : gmap string string :=
  match head with
  | None => ∅
  | Some metas => fold_left (fun head m => <[Type_ m := Value m]> head) metas ∅
  end.

End Api.

(** ** Package nzb_info: the job of the scheduler *)

Module Scheduler.

(** The seconds a [time.Time] holds are counted from the year 1;
    [unixToInternal] is the count at the Unix epoch, and the zero
    [time.Time] holds 0. *)
Definition unixToInternal : Z := 62135596800.

(** [time.Unix(sec, 0)], as the seconds it holds. *)
Definition Unix (sec : Z) : Z := Int64.add sec unixToInternal.

(** The loop of the job over [nzbDoc.Files] that works out [nzbDate]:
    [IsZero] is [= 0] and [t.Before(u)] is [t < u] on times without
    nanoseconds. *)
Definition nzbDate (files : list Nzb.File) : Z :=
  fold_left
    (fun nzbDate f =>
       if 0 <? Nzb.Date f then
         let t := Unix (Nzb.Date f) in
         if (nzbDate =? 0) || (t <? nzbDate) then t else nzbDate
       else nzbDate)
    files 0.

End Scheduler.

(** ** Content Resolver: the video of an archive *)

Module ArchiveStream.

Import Rar.

(** [slices.MaxFunc]: the first of the greatest elements; [None] stands
    for its panic on an empty slice. *)
Definition MaxFunc {A} (cmp : A -> A -> Z) (x : list A) : option A :=
  match x with
  | [] => None
  | first :: rest => Some (fold_left (fun m e => if 0 <? cmp e m then e else m) rest first)
  end.

(** [UsenetRARFile.Size]. *)
Definition Size (f : UsenetRARFile) : Z := unPackedSize f.

Section Videos.

(** [isVideoFile] classifies a name by its extension; its table is not
    among the sources. *)
Variable isVideoFile : string -> bool.

Definition filterVideoFiles (files : list UsenetRARFile) : list UsenetRARFile :=
  List.filter (fun f => isVideoFile (name f)) files.

(** [streamVideoFromArchive] over the files of a RAR archive, up to the
    file it opens: [Go.Ok file] stands for the stream of [file.Open()]
    or the error of that call. *)
Definition streamVideoFromArchive (videos : list UsenetRARFile)
    : option (Go.result UsenetRARFile) :=
  match MaxFunc (fun a b => Slices.Compare (Size a) (Size b)) videos with
  | None => None
  | Some file =>
      Some (if FileIsStreamable file then Go.Ok file
            else Go.Err (Go.Errorf "non-streamable file in archive"))
  end.

(** [streamArchiveFileInner] for a RAR archive. *)
Definition streamArchiveFileInner (archive : RARArchive)
    : RARArchive * option (Go.result UsenetRARFile) :=
  let '(archive, streamable) := IsStreamable archive in
  if negb streamable
  then (archive, Some (Go.Err (Go.Errorf "non-streamable inner archive")))
  else
    match GetFiles archive with
    | (archive, Go.Err e) => (archive, Some (Go.Err e))
    | (archive, Go.Ok files) =>
        let videos := filterVideoFiles files in
        if (length videos =? 0)%nat
        then (archive, Some (Go.Err (Go.Errorf "no video files found in inner archive")))
        else (archive, streamVideoFromArchive videos)
    end.

End Videos.

End ArchiveStream.

(** ** Content Resolver: from the file found to its stream *)

Module Dispatch.

Import Pool Stream FileTypes.

(** What [streamFile] comes to: an error raised before the first fetch,
    the stream or the error it returns, a panic, or the archive over
    the files of the whole NZB that it hands to [streamArchiveFile]
    (for RAR the name [NewUsenetRARArchive] gives the archive, which is
    the volume the decoder opens first, and the password; the 7z
    archive is made by [NewUsenetSevenZipArchive], which is not among
    the sources). *)
Inductive outcome :=
  | Stopped (at_ : selection)
  | Returned (r : Go.result PlainStream.Stream_)
  | Panicked
  | ArchiveRAR (archiveName password : string)
  | Archive7z (password : string).

Section Dispatch.

Variable cfg : Config.
Variable pool : fetcher.

(** [DetectFileType], [isVideoFile] and [IsArchiveFile] are not among
    the sources.  [None] stands for a type other than the three that
    [streamFile] names. *)
Variable DetectFileType : list Byte.byte -> string -> option FileType.
Variable isVideoFile : string -> bool.
Variable IsArchiveFile : string -> bool.

(** [streamRARFile]: the archive is made over [nzbDoc], not over the
    file found; [RARArchive.Open] keeps the password and returns no
    error. *)
Definition streamRARFile (nzbDoc : Nzb.NZB) (config : StreamConfig) : outcome :=
  ArchiveRAR (UsenetRar.NewUsenetRARArchive nzbDoc) (Password config).

(** [stream7zFile], likewise over [nzbDoc]. *)
Definition stream7zFile (nzbDoc : Nzb.NZB) (config : StreamConfig) : outcome :=
  Archive7z (Password config).

(** [streamFile]: the checks of the index and of the segments are those
    of [Stream.streamFile]; then the first segment is fetched, the type
    is detected from its body and the name, and the stream is made
    according to the type. *)
Definition streamFile (nzbDoc : Nzb.NZB) (fileIdx : Z)
    (config : option StreamConfig) : outcome :=
  let config := match config with Some c => c | None => emptyConfig end in
  match Stream.streamFile nzbDoc fileIdx with
  | StreamFileAt _ file =>
      match PlainStream.fetchFirstSegment pool file with
      | None => Panicked
      | Some (Go.Err err) =>
          Returned (Go.Err (Go.Errorf (String.append "failed to fetch file header: "
                                         (NzbInfo.errorText err))))
      | Some (Go.Ok firstSegment) =>
          match DetectFileType (Body firstSegment) (Nzb.Name file) with
          | Some FileTypePlain =>
              match PlainStream.streamPlainFile cfg pool file config with
              | Some r => Returned r
              | None => Panicked
              end
          | Some FileTypeRAR => streamRARFile nzbDoc config
          | Some FileType7z => stream7zFile nzbDoc config
          | None => Returned (Go.Err (Go.Errorf "unsupported file type"))
          end
      end
  | stopped => Stopped stopped
  end.

(** [StreamLargestFile]. *)
Definition StreamLargestFile (nzbDoc : Nzb.NZB) (config : option StreamConfig)
    : outcome :=
  match Nzb.Files nzbDoc with
  | [] => Stopped NoFiles
  | _ :: _ =>
      streamFile nzbDoc
        (Nzb.GetLargestFileIdx nzbDoc (Some (skipFile isVideoFile IsArchiveFile)))
        config
  end.

End Dispatch.

End Dispatch.

(** * Properties *)

(** ** Machine integers *)

Module Int64Facts.

Import Int64.

Lemma wrap_in_range z : in_range z -> wrap z = z.
Proof.
  unfold in_range, min_int, max_int, wrap. intros H.
  rewrite Z.mod_small; lia.
Qed.

Lemma wrap_bounds z : in_range (wrap z).
Proof.
  unfold in_range, min_int, max_int, wrap.
  pose proof (Z.mod_pos_bound (z + 2 ^ 63) (2 ^ 64) ltac:(lia)). lia.
Qed.

Lemma sub_small a b :
  - 2 ^ 62 <= a < 2 ^ 62 -> - 2 ^ 62 <= b < 2 ^ 62 -> sub a b = a - b.
Proof.
  intros Ha Hb. unfold sub. apply wrap_in_range.
  unfold in_range, min_int, max_int. lia.
Qed.

End Int64Facts.

(** ** File Stream: Seek *)

Module SeekFacts.

Import FileStream.

Definition sampleFile : Nzb.File :=
  {| Nzb.Poster := ""; Nzb.Date := 0; Nzb.Subject := ""; Nzb.Groups := [];
     Nzb.Segments := []; Nzb.name := "payload.mkv" |}.

(** A stream over a file of 2400 bytes, positioned at byte 1200. *)
Definition sampleStream : t :=
  {| file := sampleFile; fileSize := 2400; avgSegmentSize := 800;
     segmentSizeRatio := F64.of_int 1; bufferSize := 4096;
     position := 1200; stream := None; closed := false |}.

(** C7.  Whatever the stream and the arguments of [Seek], when [whence]
    is one of the three and the position computed from it is [newPos]:
    if [newPos] lies past the size of the file, [Seek] returns the size
    of the file and no error, and the stream is positioned there; if
    [newPos] is negative, [Seek] returns an error and the stream, its
    position included, is as it was. *)
Theorem Seek_clamps_past_the_end_and_rejects_negative
    (s : t) (offset whence newPos : Z) :
  0 <= fileSize s ->
  seekTarget s offset whence = Some newPos ->
  (fileSize s < newPos ->
     snd (Seek s offset whence) = (fileSize s, None)
     /\ position (fst (Seek s offset whence)) = fileSize s)
  /\ (newPos < 0 ->
     Seek s offset whence = (s, (position s, Some (NegativePosition newPos)))).
Proof.
  intros Hsize Htarget. unfold Seek. rewrite Htarget. split.
  - intros Hpast.
    destruct (Z.ltb_spec newPos 0) as [Hneg | _]; [lia |].
    destruct (Z.ltb_spec (fileSize s) newPos) as [_ | Hle]; [| lia].
    destruct (Z.eqb_spec (fileSize s) (position s)) as [Heq | Hne]; simpl.
    + rewrite <- Heq. auto.
    + auto.
  - intros Hneg.
    destruct (Z.ltb_spec newPos 0) as [_ | Hge]; [reflexivity | lia].
Qed.

Lemma Seek_past_the_end_witness :
  (snd (Seek sampleStream 5000 SeekStart) = (2400, None)
   /\ position (fst (Seek sampleStream 5000 SeekStart)) = 2400)
  /\ Seek sampleStream (-3000) SeekEnd
     = (sampleStream, (1200, Some (NegativePosition (-600)))).
Proof.
  split.
  - apply (Seek_clamps_past_the_end_and_rejects_negative
             sampleStream 5000 SeekStart 5000); [vm_compute; congruence | reflexivity | reflexivity].
  - apply (Seek_clamps_past_the_end_and_rejects_negative
             sampleStream (-3000) SeekEnd (-600)); [vm_compute; congruence | reflexivity | reflexivity].
Defined.

End SeekFacts.

(** ** NZB hash by file boundary segment ids *)

Module HashFacts.

Import Nzb.

(** The first and the last message-id of a file, the single one of a
    file of one segment, none for a file without segments. *)
Definition firstAndLast (f : File) : list string :=
  match Segments f with
  | [] => []
  | [only] => [MessageId only]
  | first :: rest => [MessageId first; MessageId (List.last rest first)]
  end.

Definition withSegments (f : File) (segs : list Segment) : File :=
  {| Poster := Poster f; Date := Date f; Subject := Subject f;
     Groups := Groups f; Segments := segs; name := name f |}.

Lemma nth_error_last {A} (l : list A) (d : A) :
  l <> [] -> nth_error l (length l - 1) = Some (List.last l d).
Proof.
  induction l as [| a [| b l'] IH]; intros Hne; [congruence | reflexivity |].
  replace (length (a :: b :: l') - 1)%nat with (S (length (b :: l') - 1))
    by (simpl; lia).
  cbn [nth_error]. rewrite IH by discriminate. reflexivity.
Qed.

Lemma boundaryWrites_firstAndLast (f : File) :
  boundaryWrites f = map TrimSpace (firstAndLast f).
Proof.
  unfold boundaryWrites, firstAndLast.
  destruct (Segments f) as [| first [| second rest]]; [reflexivity | reflexivity |].
  replace (length (first :: second :: rest) - 1)%nat
    with (S (length (second :: rest) - 1)) by (simpl; lia).
  cbn [Nat.ltb Nat.leb nth_error].
  rewrite (nth_error_last (second :: rest) first) by discriminate.
  reflexivity.
Qed.

Lemma hashWrites_firstAndLast (n : NZB) :
  hashWrites n = concat (map (fun f => map TrimSpace (firstAndLast f)) (Files n)).
Proof.
  unfold hashWrites. f_equal. apply map_ext. apply boundaryWrites_firstAndLast.
Qed.

Lemma firstAndLast_interior (f : File) (first last : Segment) (mid : list Segment) :
  firstAndLast (withSegments f (first :: mid ++ [last]))
  = [MessageId first; MessageId last].
Proof.
  unfold firstAndLast. simpl.
  destruct (mid ++ [last]) as [| x l] eqn:E.
  - destruct mid; discriminate.
  - rewrite <- E. rewrite List.last_last. reflexivity.
Qed.

(** C8.  The hash is a function of the first and last message-ids of
    the files, taken in file order: two documents that agree on them
    have the same hash.  So a file's segments between its first and its
    last may be permuted without changing the hash, and a file of one
    segment puts only that one message-id into the hash. *)
Theorem HashByFileBoundarySegmentIds_reads_only_boundaries
    (md5_Sum hex_EncodeToString : string -> string) :
  (forall n1 n2 : NZB,
      map firstAndLast (Files n1) = map firstAndLast (Files n2) ->
      HashByFileBoundarySegmentIds md5_Sum hex_EncodeToString n1
      = HashByFileBoundarySegmentIds md5_Sum hex_EncodeToString n2)
  /\ (forall (before after : list File) (f : File) (first last : Segment)
             (mid mid' : list Segment),
      Permutation mid mid' ->
      HashByFileBoundarySegmentIds md5_Sum hex_EncodeToString
        {| Files := before ++ withSegments f (first :: mid ++ [last]) :: after |}
      = HashByFileBoundarySegmentIds md5_Sum hex_EncodeToString
        {| Files := before ++ withSegments f (first :: mid' ++ [last]) :: after |})
  /\ (forall (f : File) (only : Segment),
      Segments f = [only] ->
      boundaryWrites f = [TrimSpace (MessageId only)]).
Proof.
  assert (Hagree : forall n1 n2 : NZB,
             map firstAndLast (Files n1) = map firstAndLast (Files n2) ->
             HashByFileBoundarySegmentIds md5_Sum hex_EncodeToString n1
             = HashByFileBoundarySegmentIds md5_Sum hex_EncodeToString n2).
  { intros n1 n2 H. unfold HashByFileBoundarySegmentIds.
    rewrite !hashWrites_firstAndLast.
    rewrite <- !(map_map firstAndLast (map TrimSpace)), H. reflexivity. }
  split; [exact Hagree | split].
  - intros before after f first last mid mid' _.
    apply Hagree. simpl. rewrite !map_app. simpl.
    rewrite !firstAndLast_interior. reflexivity.
  - intros f only H. unfold boundaryWrites. rewrite H. reflexivity.
Qed.

Definition seg (id : string) : Segment :=
  {| Bytes := 700; Number := 0; MessageId := id |}.

Definition sampleFile : File :=
  {| Poster := "poster"; Date := 0; Subject := "payload"; Groups := ["alt.binaries"];
     Segments := []; name := "payload.mkv" |}.

Lemma hash_permuted_interior_witness :
  HashByFileBoundarySegmentIds (fun s => s) (fun s => s)
    {| Files := [] ++ withSegments sampleFile
                        (seg "a@x" :: [seg "b@x"; seg "c@x"] ++ [seg "d@x"]) :: [] |}
  = HashByFileBoundarySegmentIds (fun s => s) (fun s => s)
    {| Files := [] ++ withSegments sampleFile
                        (seg "a@x" :: [seg "c@x"; seg "b@x"] ++ [seg "d@x"]) :: [] |}.
Proof.
  apply (HashByFileBoundarySegmentIds_reads_only_boundaries (fun s => s) (fun s => s)).
  apply perm_swap.
Defined.

End HashFacts.

(** ** RAR archives: streamability *)

Module RarFacts.

Import Rar.

Lemma anySolid_false (headers : list FileHeader) :
  anySolid headers = false <-> Forall (fun h => Solid h = false) headers.
Proof.
  induction headers as [| h rest IH]; simpl.
  - split; [constructor | reflexivity].
  - destruct (Solid h) eqn:E.
    + split; [discriminate | intros H; inversion H; congruence].
    + rewrite IH. split; [intros H; constructor; assumption | intros H; inversion H; assumption].
Qed.

(** An archive of one entry, not solid, compressed to half its size. *)
Definition compressedHeader : FileHeader :=
  {| HeaderName := "video.mkv"; PackedSize := 50; UnPackedSize := 100; Solid := false |}.

Definition compressedArchive : RARArchive :=
  {| openIter := fun _ _ => Iter [compressedHeader] None;
     password := ""; isSolidMemo := None; files := None |}.

(** C5, as stated, fails: the archive-level [IsStreamable] is true of an
    archive whose only entry is compressed (packed size 50, unpacked
    size 100). *)
Lemma IsStreamable_ignores_compression :
  snd (IsStreamable compressedArchive) = true
  /\ snd (GetFiles compressedArchive) = Go.Ok [fileOfHeader compressedHeader]
  /\ packedSize (fileOfHeader compressedHeader) = 50
  /\ unPackedSize (fileOfHeader compressedHeader) = 100
  /\ FileIsStreamable (fileOfHeader compressedHeader) = false.
Proof. repeat split. Qed.

(** C5, amended.  For an archive whose headers were not scanned before,
    the archive-level [IsStreamable] is true exactly when the headers
    can be listed to the end without an error and none of them is
    flagged solid; the answer is remembered.  Whether an entry is stored
    is the business of the per-entry [IsStreamable], which is true
    exactly when the entry is not solid and its packed size equals its
    unpacked size. *)
Theorem IsStreamable_iff_no_solid_header (a : RARArchive) :
  isSolidMemo a = None ->
  (snd (IsStreamable a) = true <->
     exists headers,
       openIter a true (password a) = Iter headers None
       /\ Forall (fun h => Solid h = false) headers)
  /\ snd (IsStreamable (fst (IsStreamable a))) = snd (IsStreamable a)
  /\ (forall f : UsenetRARFile,
        FileIsStreamable f = true <->
        solid f = false /\ packedSize f = unPackedSize f).
Proof.
  intros Hmemo. split; [| split].
  - unfold IsStreamable, isSolid. rewrite Hmemo.
    destruct (openIter a true (password a)) as [e | headers err]; simpl.
    + split; [discriminate | intros (hs & H & _); discriminate].
    + destruct (anySolid headers) eqn:Hsolid; simpl.
      * split; [discriminate |].
        intros (hs & H & Hall). inversion H; subst.
        apply anySolid_false in Hall. congruence.
      * destruct err as [e |]; simpl.
        -- split; [discriminate | intros (hs & H & _); discriminate].
        -- split; [| reflexivity].
           intros _. exists headers. split; [reflexivity |].
           apply anySolid_false. assumption.
  - unfold IsStreamable, isSolid. rewrite Hmemo.
    destruct (openIter a true (password a)) as [e | headers err] eqn:Hopen; simpl.
    + rewrite Hmemo, Hopen. reflexivity.
    + destruct (anySolid headers) eqn:Hsolid; simpl; [reflexivity |].
      destruct err as [e |]; simpl; [| reflexivity].
      rewrite Hmemo, Hopen, Hsolid. reflexivity.
  - intros f. unfold FileIsStreamable.
    rewrite andb_true_iff, negb_true_iff, Z.eqb_eq. reflexivity.
Qed.

(** An archive of two stored entries. *)
Definition storedArchive : RARArchive :=
  {| openIter := fun _ _ =>
       Iter [ {| HeaderName := "a.mkv"; PackedSize := 100; UnPackedSize := 100; Solid := false |};
              {| HeaderName := "b.nfo"; PackedSize := 7; UnPackedSize := 7; Solid := false |} ]
            None;
     password := ""; isSolidMemo := None; files := None |}.

Lemma IsStreamable_storedArchive_witness :
  (snd (IsStreamable storedArchive) = true <->
     exists headers,
       openIter storedArchive true (password storedArchive) = Iter headers None
       /\ Forall (fun h => Solid h = false) headers)
  /\ snd (IsStreamable (fst (IsStreamable storedArchive)))
     = snd (IsStreamable storedArchive)
  /\ (forall f : UsenetRARFile,
        FileIsStreamable f = true <->
        solid f = false /\ packedSize f = unPackedSize f).
Proof.
  apply (IsStreamable_iff_no_solid_header storedArchive). reflexivity.
Defined.

End RarFacts.

(** ** Content Resolver *)

Module StreamFacts.

Import Stream.

Definition oneSegment (size : Z) (id : string) : list Nzb.Segment :=
  [ {| Nzb.Bytes := size; Nzb.Number := 1; Nzb.MessageId := id |} ].

Definition nzbFile (filename : string) (size : Z) : Nzb.File :=
  {| Nzb.Poster := "poster"; Nzb.Date := 0; Nzb.Subject := filename;
     Nzb.Groups := ["alt.binaries.test"];
     Nzb.Segments := oneSegment size (String.append filename "@news");
     Nzb.name := filename |}.

(** An NZB of one RAR file, for which no content record is kept. *)
Definition movieNzb : Nzb.NZB := {| Nzb.Files := [nzbFile "Movie.rar" 1000] |}.

(** The case the resolver does not guard: the name matches an NZB file,
    there is no content record, and the path goes on. *)
Lemma StreamByContentPath_nil_contentFile (nzbDoc : Nzb.NZB) (name next : string)
    (rest : list string) (config : StreamConfig) (f : Nzb.File) :
  name <> "" ->
  findFileByName nzbDoc (ContentFiles config) name = (Some f, None) ->
  StreamByContentPath nzbDoc (name :: next :: rest) (Some config) = NilDereference.
Proof.
  intros Hname Hfind. unfold StreamByContentPath.
  destruct (String.eqb_spec name "") as [E | _]; [contradiction |].
  rewrite Hfind. reflexivity.
Qed.

(** C3 (the code at the failing input).  With the path
    [Movie.rar::Video.mkv] and no content records, [findFileByName]
    returns the NZB file and a [nil] content file, and
    [StreamByContentPath] dereferences it; with the one-element path it
    streams the file. *)
Theorem StreamByContentPath_dereferences_nil :
  findFileByName movieNzb [] "Movie.rar" = (Some (nzbFile "Movie.rar" 1000), None)
  /\ StreamByContentPath movieNzb ["Movie.rar"; "Video.mkv"] (Some emptyConfig)
     = NilDereference
  /\ StreamByContentPath movieNzb ["Movie.rar"; "Video.mkv"] None = NilDereference
  /\ StreamByContentPath movieNzb ["Movie.rar"] None
     = StreamPlainFile (nzbFile "Movie.rar" 1000).
Proof. repeat split. Qed.

End StreamFacts.

(** ** StreamLargestFile *)

Module LargestFileFacts.

Import Stream.

Section Selection.

Variable skip : string -> bool.






End Selection.






(** Names are classified by their extension. *)
Definition hasSuffix (suffix name : string) : bool :=
  match Text.matchSuffix suffix name with Some _ => true | None => false end.

Definition isVideoFile (name : string) : bool :=
  hasSuffix ".mkv" name || hasSuffix ".mp4" name.

Definition IsArchiveFile (name : string) : bool :=
  hasSuffix ".rar" name || hasSuffix ".7z" name.

(** A release: a large text file and a smaller video. *)
Definition release : Nzb.NZB :=
  {| Nzb.Files := [StreamFacts.nzbFile "notes.nfo" 900;
                   StreamFacts.nzbFile "movie.mkv" 500] |}.

(** A pool that gives three bytes for every segment, a detector that
    goes by the extension of the name, and the configuration of a
    deployment. *)
Definition threeBytes : Pool.SegmentData :=
  {| Pool.Body := [Byte.x01; Byte.x02; Byte.x03];
     Pool.Range := {| Pool.Start := 0; Pool.End_ := 3 |};
     Pool.FileSize := 3; Pool.Size := 3 |}.

Definition shelf : Pool.fetcher := fun _ => Go.Ok threeBytes.

Definition byExtension (bytes : list Byte.byte) (name : string)
    : option FileTypes.FileType :=
  if hasSuffix ".rar" name then Some FileTypes.FileTypeRAR
  else if hasSuffix ".7z" name then Some FileTypes.FileType7z
  else Some FileTypes.FileTypePlain.

Definition deployment : Pool.Config :=
  {| Pool.MaxConnectionPerStream := 4; Pool.StreamBufferSize := 1048576 |}.


(** Two RAR volumes of two archives: the small first volume of one, and
    a large second volume of another. *)
Definition volumes : Nzb.NZB :=
  {| Nzb.Files := [StreamFacts.nzbFile "a.rar" 100;
                   StreamFacts.nzbFile "b.part02.rar" 900] |}.

(** The archive that is opened need not be the file that was selected:
    of these volumes the larger one is selected and its first segment
    fetched, and the archive is opened at the other one, which has the
    lowest volume number of the NZB. *)
Lemma StreamLargestFile_opens_the_lowest_volume :
  StreamLargestFile isVideoFile IsArchiveFile volumes
  = StreamFileAt 1 (StreamFacts.nzbFile "b.part02.rar" 900)
  /\ Dispatch.StreamLargestFile deployment shelf byExtension isVideoFile IsArchiveFile
       volumes None
     = Dispatch.ArchiveRAR "a.rar" "".
Proof. split; reflexivity. Qed.


End LargestFileFacts.

(** ** Negative caching of NZB file fetches *)

Module NzbInfoFacts.

Import NzbInfo.

(** A URL with its query and fragment removed, in the words of the
    specification: what comes before the first [?] and the first [#]. *)
Definition urlWithoutQueryAndFragment (link : string) : string :=
  fst (Text.Cut (fst (Text.Cut link "?")) "#").

(** C9, as stated, fails: for a link without [?], the key is the hash of
    the link cut at its first [&], which is not the link with its query
    and fragment removed; two links that differ after the [&] share one
    entry. *)
Lemma cleanNZBFileLink_cuts_at_ampersand :
  cleanNZBFileLink "http://indexer.test/get&id=1" = "http://indexer.test/get"
  /\ urlWithoutQueryAndFragment "http://indexer.test/get&id=1"
     = "http://indexer.test/get&id=1"
  /\ cleanNZBFileLink "http://indexer.test/get&id=2"
     = cleanNZBFileLink "http://indexer.test/get&id=1"
  /\ fetchErrLifetime = 300000000000.
Proof. repeat split. Qed.

Lemma cleanNZBFileLink_with_query (link : string) :
  snd (Text.Cut link "?") = true ->
  cleanNZBFileLink link = urlWithoutQueryAndFragment link.
Proof.
  unfold cleanNZBFileLink, urlWithoutQueryAndFragment.
  destruct (Text.Cut link "?") as [before found]. simpl. intros ->. reflexivity.
Qed.

(** C9, amended.  A fetch that finds neither a cached file nor a live
    cached failure and then fails returns its error and caches the
    error text for 5 minutes under the MD5 hash of the link cut at its
    first [?] (at its first [&] when it has no [?]) and then at its
    first [#].  Until those 5 minutes are over, and as long as no file
    is cached under that key, every fetch of a link with the same key
    returns the error "cached failure: " followed by that text, and
    leaves the state, the list of requests sent included, as it is. *)
Theorem failed_fetch_is_cached_for_five_minutes
    (MD5Hash : string -> string) (NZBFileMaxSize : Z)
    (t0 : Z) (network : string -> Go.result response)
    (addFile : string -> NZBFile -> option Go.error) (link : string)
    (st : state) (e : Go.error) :
  nzbFileCache st !! HashNZBFileLink MD5Hash link = None ->
  cacheGet (nzbFetchErrCache st) t0 (HashNZBFileLink MD5Hash link) = None ->
  download NZBFileMaxSize t0 link (network link) = Go.Err e ->
  let st1 := fst (fetchNZBFile MD5Hash NZBFileMaxSize t0 network addFile link st) in
  snd (fetchNZBFile MD5Hash NZBFileMaxSize t0 network addFile link st) = Go.Err e
  /\ requests st1 = requests st ++ [link]
  /\ nzbFetchErrCache st1 !! MD5Hash (cleanNZBFileLink link)
     = Some (errorText e, t0 + 5 * Minute)
  /\ forall (t : Z) (network' : string -> Go.result response)
            (addFile' : string -> NZBFile -> option Go.error) (link' : string)
            (st2 : state),
       t0 <= t < t0 + 5 * Minute ->
       cleanNZBFileLink link' = cleanNZBFileLink link ->
       nzbFileCache st2 !! HashNZBFileLink MD5Hash link = None ->
       nzbFetchErrCache st2 !! HashNZBFileLink MD5Hash link
       = nzbFetchErrCache st1 !! HashNZBFileLink MD5Hash link ->
       fetchNZBFile MD5Hash NZBFileMaxSize t network' addFile' link' st2
       = (st2, Go.Err (Go.Errorf (String.append "cached failure: " (errorText e)))).
Proof.
  intros Hfile Herr Hdown st1.
  assert (Hfetch : fetchNZBFile MD5Hash NZBFileMaxSize t0 network addFile link st
                   = ({| nzbFileCache := nzbFileCache st;
                         nzbFetchErrCache :=
                           cacheAdd (nzbFetchErrCache st) fetchErrLifetime t0
                             (HashNZBFileLink MD5Hash link) (errorText e);
                         requests := requests st ++ [link] |}, Go.Err e)).
  { unfold fetchNZBFile. rewrite Hfile, Herr, Hdown. reflexivity. }
  subst st1. rewrite Hfetch. simpl.
  assert (Hentry : cacheAdd (nzbFetchErrCache st) fetchErrLifetime t0
                     (HashNZBFileLink MD5Hash link) (errorText e)
                   !! HashNZBFileLink MD5Hash link
                   = Some (errorText e, t0 + 5 * Minute)).
  { unfold cacheAdd, fetchErrLifetime. apply lookup_insert_eq. }
  repeat split; [exact Hentry |].
  intros t network' addFile' link' st2 Ht Hkey Hfile2 Herr2.
  unfold fetchNZBFile.
  replace (HashNZBFileLink MD5Hash link') with (HashNZBFileLink MD5Hash link)
    by (unfold HashNZBFileLink; rewrite Hkey; reflexivity).
  rewrite Hfile2. unfold cacheGet. rewrite Herr2, Hentry.
  destruct (Z.ltb_spec t (t0 + 5 * Minute)) as [_ | Hge]; [reflexivity | lia].
Qed.

(** An indexer that is down, asked at time 1000 with empty caches, and
    a disk that takes every file. *)
Definition noState : state :=
  {| nzbFileCache := ∅; nzbFetchErrCache := ∅; requests := [] |}.

Definition down (link : string) : Go.result response :=
  Go.Err (Go.Errorf "connection refused").

Definition kept (key : string) (file : NZBFile) : option Go.error := None.

Lemma failed_fetch_witness :
  let st1 := fst (fetchNZBFile (fun s => s) 1048576 1000 down kept
                    "http://indexer.test/get?id=1" noState) in
  snd (fetchNZBFile (fun s => s) 1048576 1000 down kept
         "http://indexer.test/get?id=1" noState)
  = Go.Err (Go.Errorf "connection refused")
  /\ requests st1 = requests noState ++ ["http://indexer.test/get?id=1"]
  /\ nzbFetchErrCache st1 !! cleanNZBFileLink "http://indexer.test/get?id=1"
     = Some ("connection refused", 1000 + 5 * Minute)
  /\ forall (t : Z) (network' : string -> Go.result response)
            (addFile' : string -> NZBFile -> option Go.error) (link' : string)
            (st2 : state),
       1000 <= t < 1000 + 5 * Minute ->
       cleanNZBFileLink link' = cleanNZBFileLink "http://indexer.test/get?id=1" ->
       nzbFileCache st2 !! HashNZBFileLink (fun s => s) "http://indexer.test/get?id=1"
       = None ->
       nzbFetchErrCache st2 !! HashNZBFileLink (fun s => s) "http://indexer.test/get?id=1"
       = nzbFetchErrCache st1 !! HashNZBFileLink (fun s => s) "http://indexer.test/get?id=1" ->
       fetchNZBFile (fun s => s) 1048576 t network' addFile' link' st2
       = (st2, Go.Err (Go.Errorf (String.append "cached failure: " "connection refused"))).
Proof.
  apply (failed_fetch_is_cached_for_five_minutes (fun s => s) 1048576 1000 down kept
           "http://indexer.test/get?id=1" noState (Go.Errorf "connection refused"));
    reflexivity.
Defined.

End NzbInfoFacts.

(** ** Segments Stream: in-order delivery *)

Module SegmentsStreamFacts.

Import Pool SegmentsStream.

(** *** The collector *)

(** [flush] sends the run of consecutive indices that [pending] holds
    from [nextIdx] on, removes it from [pending], and stops at the
    first index that is missing. *)
Lemma flush_spec (rounds : nat) (pending : gmap nat SegmentData) (nextIdx : nat) :
  (size pending <= rounds)%nat ->
  exists (pending' : gmap nat SegmentData) (sent : list SegmentData),
    flush rounds pending nextIdx = (pending', (nextIdx + length sent)%nat, sent)
    /\ (forall j, (j < length sent)%nat -> pending !! (nextIdx + j)%nat = sent !! j)
    /\ pending' !! (nextIdx + length sent)%nat = None
    /\ (forall i, pending' !! i =
                  if bool_decide (nextIdx <= i < nextIdx + length sent)%nat
                  then None else pending !! i).
Proof.
  revert pending nextIdx.
  induction rounds as [| rounds IH]; intros pending nextIdx Hsize.
  - assert (pending = ∅) as -> by (apply map_size_empty_inv; lia).
    exists ∅, []. simpl. rewrite Nat.add_0_r.
    split; [reflexivity | split; [| split]].
    + intros j Hj. lia.
    + apply lookup_empty.
    + intros i. rewrite lookup_empty. case_bool_decide; reflexivity.
  - simpl. destruct (pending !! nextIdx) as [d |] eqn:Hnext.
    + destruct (IH (delete nextIdx pending) (S nextIdx)) as (p' & sent & Hflush & Hsent & Hstop & Hrest).
      { rewrite map_size_delete_Some by eauto. lia. }
      rewrite Hflush. exists p', (d :: sent). simpl.
      replace (nextIdx + S (length sent))%nat with (S nextIdx + length sent)%nat by lia.
      split; [reflexivity | split; [| split]]; [| assumption |].
      * intros [| j] Hj.
        -- rewrite Nat.add_0_r. assumption.
        -- simpl. rewrite <- Hsent by lia.
           replace (nextIdx + S j)%nat with (S nextIdx + j)%nat by lia.
           rewrite lookup_delete_ne by lia. reflexivity.
      * intros i. rewrite Hrest.
        repeat case_bool_decide; try reflexivity; try lia.
        -- assert (i = nextIdx) as -> by lia. apply lookup_delete_eq.
        -- apply lookup_delete_ne. lia.
    + exists pending, []. simpl. rewrite Nat.add_0_r.
      split; [reflexivity | split; [| split]]; [intros j Hj; lia | assumption |].
      intros i. case_bool_decide; [lia | reflexivity].
Qed.


(** The collector puts what arrives in any order back in order: started
    on the results not yet received, it sends exactly the data from
    [nextIdx] on.  [pending] holds data received ahead of its turn. *)
Lemma collect_in_order (datas : list SegmentData) (resultCh : list segmentResult) :
  forall (pending : gmap nat SegmentData) (nextIdx received : nat),
  (forall r, r ∈ resultCh ->
     exists d, fetched r = Go.Ok d /\ datas !! idx r = Some d) ->
  NoDup (idx <$> resultCh) ->
  (forall i d, pending !! i = Some d ->
     datas !! i = Some d /\ (nextIdx < i)%nat /\ i ∉ (idx <$> resultCh)) ->
  (forall i, (i < length datas)%nat ->
     (i < nextIdx)%nat \/ is_Some (pending !! i) \/ i ∈ (idx <$> resultCh)) ->
  (forall r, r ∈ resultCh -> (nextIdx <= idx r)%nat) ->
  (received + length resultCh = length datas)%nat ->
  collect (length datas) resultCh pending nextIdx received = (drop nextIdx datas, None).
Proof.
  induction resultCh as [| r rest IH];
    intros pending nextIdx received Hdata Hnodup Hpend Hcover Hahead Hcount.
  - simpl in Hcount.
    assert (Hdone : (length datas <= nextIdx)%nat).
    { destruct (Nat.le_gt_cases (length datas) nextIdx) as [| Hlt]; [assumption |].
      destruct (Hcover nextIdx Hlt) as [? | [[d Hd] | Hin]].
      - lia.
      - apply Hpend in Hd. lia.
      - inversion Hin. }
    simpl. destruct (Nat.leb_spec (length datas) received); [| lia].
    rewrite drop_ge by assumption. reflexivity.
  - simpl in Hcount. rewrite fmap_cons in Hnodup. apply NoDup_cons in Hnodup as [Hfresh Hnodup].
    destruct (Hdata r) as (d & Hfetched & Hd); [left |].
    simpl. destruct (Nat.leb_spec (length datas) received); [lia |].
    rewrite Hfetched.
    destruct (flush_spec (size (<[idx r := d]> pending)) (<[idx r := d]> pending) nextIdx)
      as (pending' & sent & Hflush & Hsent & Hstop & Hrest); [lia |].
    rewrite Hflush.
    assert (Hpend1 : forall i x, <[idx r := d]> pending !! i = Some x ->
                       datas !! i = Some x /\ (nextIdx <= i)%nat
                       /\ i ∉ (idx <$> rest)).
    { intros i x. rewrite lookup_insert. case_decide as Hi.
      - intros [= <-]. subst i. split; [assumption | split; [| assumption]].
        apply Hahead. left.
      - intros Hx. apply Hpend in Hx as (? & ? & Hnot).
        split; [assumption | split; [lia |]].
        intros Hin. apply Hnot. rewrite fmap_cons. right. assumption. }
    assert (Hrun : forall j, (j < length sent)%nat ->
                     exists x, sent !! j = Some x
                               /\ <[idx r := d]> pending !! (nextIdx + j)%nat = Some x).
    { intros j Hj. destruct (lookup_lt_is_Some_2 sent j Hj) as [x Hx].
      exists x. split; [assumption |]. rewrite Hsent by assumption. assumption. }
    rewrite (IH pending' (nextIdx + length sent)%nat (S received)).
    + f_equal.
      transitivity (take (length sent) (drop nextIdx datas)
                    ++ drop (length sent) (drop nextIdx datas));
        [| apply take_drop].
      rewrite drop_drop. f_equal.
      apply list_eq. intros j.
      destruct (Nat.lt_ge_cases j (length sent)) as [Hj | Hj].
      * destruct (Hrun j Hj) as (x & Hx & Hp). apply Hpend1 in Hp as (Hdat & _).
        rewrite Hx, lookup_take_lt, lookup_drop by assumption. symmetry. assumption.
      * rewrite lookup_take_ge by assumption. apply lookup_ge_None_2. assumption.
    + intros r' Hr'. apply Hdata. right. assumption.
    + assumption.
    + intros i x Hx. rewrite Hrest in Hx. case_bool_decide as Hin; [discriminate |].
      destruct (Hpend1 i x Hx) as (Hdat & Hle & Hnot).
      split; [assumption | split; [| assumption]].
      destruct (decide (i = nextIdx + length sent)%nat) as [-> | Hne]; [| lia].
      rewrite Hrest in Hstop.
      case_bool_decide; [lia |]. rewrite Hx in Hstop. discriminate.
    + intros i Hi.
      destruct (Nat.lt_ge_cases i (nextIdx + length sent)) as [| Hge]; [left; assumption |].
      right.
      assert (Hkeep : pending' !! i = <[idx r := d]> pending !! i).
      { rewrite Hrest. case_bool_decide; [lia | reflexivity]. }
      destruct (Hcover i Hi) as [? | [[x Hx] | Hin]]; [lia | |].
      * left. rewrite Hkeep, lookup_insert. case_decide; eauto.
      * rewrite fmap_cons in Hin. apply elem_of_cons in Hin as [-> | Hin].
        -- left. rewrite Hkeep, lookup_insert_eq. eauto.
        -- right. assumption.
    + intros r' Hr'.
      assert (Hle : (nextIdx <= idx r')%nat) by (apply Hahead; right; assumption).
      destruct (Nat.lt_ge_cases (idx r') (nextIdx + length sent)) as [Hlt | ]; [| assumption].
      exfalso.
      destruct (Hrun (idx r' - nextIdx)%nat ltac:(lia)) as (x & _ & Hp).
      replace (nextIdx + (idx r' - nextIdx))%nat with (idx r') in Hp by lia.
      apply Hpend1 in Hp as (_ & _ & Hnot). apply Hnot.
      apply list_elem_of_fmap. exists r'. split; [reflexivity | assumption].
    + lia.
Qed.


(** *** The reader *)

(** What is left to read: the rest of the current segment and the bodies
    waiting on [dataChan]. *)
Definition unread (cur : list Byte.byte) (pos : nat) (chan : list SegmentData)
    : list Byte.byte :=
  drop pos cur ++ concat (Body <$> chan).

Definition remaining (s : t) : list Byte.byte :=
  unread (currData s) (currPos s) (dataChan s).

Lemma readLoop_unfold (plen : nat) (chan : list SegmentData)
    (cur : list Byte.byte) (pos : nat) (out : list Byte.byte) :
  readLoop plen chan cur pos out
  = let chunk := take (plen - length out) (drop pos cur) in
    if (plen <=? length (out ++ chunk))%nat
    then (chan, cur, (pos + length chunk)%nat, (out ++ chunk, None))
    else match chan with
         | [] => (chan, cur, (pos + length chunk)%nat,
                  (out ++ chunk,
                   if (0 <? length (out ++ chunk))%nat then None else Some Go.EOF))
         | d :: rest => readLoop plen rest (Body d) 0 (out ++ chunk)
         end.
Proof. destruct chan; reflexivity. Qed.

Lemma unread_cons (cur : list Byte.byte) (pos : nat) (d : SegmentData)
    (rest : list SegmentData) :
  unread cur pos (d :: rest) = drop pos cur ++ unread (Body d) 0 rest.
Proof. reflexivity. Qed.

Lemma unread_nil (cur : list Byte.byte) (pos : nat) :
  unread cur pos [] = drop pos cur.
Proof. unfold unread. simpl. apply app_nil_r. Qed.

Lemma readLoop_spec (plen : nat) (chan : list SegmentData) :
  forall (cur : list Byte.byte) (pos : nat) (out : list Byte.byte),
  exists chan' cur' pos',
    let out' := out ++ take (plen - length out) (unread cur pos chan) in
    readLoop plen chan cur pos out
    = (chan', cur', pos',
       (out', if (plen <=? length out')%nat then None
              else if (0 <? length out')%nat then None else Some Go.EOF))
    /\ unread cur' pos' chan' = drop (plen - length out) (unread cur pos chan).
Proof.
  induction chan as [| d rest IH]; intros cur pos out; cbv zeta;
    rewrite readLoop_unfold; cbv zeta;
    set (k := (plen - length out)%nat);
    assert (Hlen : length (out ++ take k (drop pos cur))
                   = (length out + k `min` (length cur - pos))%nat)
      by (rewrite length_app, length_take, length_drop; reflexivity);
    destruct (Nat.leb_spec plen (length (out ++ take k (drop pos cur)))) as [Hfull | Hmore].
  - exists [], cur, (pos + length (take k (drop pos cur)))%nat.
    rewrite !unread_nil, drop_drop.
    destruct (Nat.leb_spec plen (length (out ++ take k (drop pos cur)))) as [_ | Hlt];
      [| lia].
    split; [reflexivity | rewrite length_take, length_drop; f_equal; lia].
  - exists [], cur, (pos + length (take k (drop pos cur)))%nat.
    rewrite !unread_nil, drop_drop.
    destruct (Nat.leb_spec plen (length (out ++ take k (drop pos cur)))) as [Hge | _];
      [lia |].
    split; [reflexivity |].
    rewrite length_take, length_drop, !drop_ge by lia. reflexivity.
  - exists (d :: rest), cur, (pos + length (take k (drop pos cur)))%nat.
    rewrite unread_cons.
    rewrite take_app_le by (rewrite length_drop; lia).
    destruct (Nat.leb_spec plen (length (out ++ take k (drop pos cur)))) as [_ | Hlt];
      [| lia].
    split; [reflexivity |].
    rewrite drop_app_le by (rewrite length_drop; lia).
    unfold unread at 1. rewrite drop_drop, length_take, length_drop.
    unfold unread. simpl. do 2 f_equal. lia.
  - destruct (IH (Body d) 0%nat (out ++ take k (drop pos cur)))
      as (chan' & cur' & pos' & Hloop & Hrest).
    exists chan', cur', pos'. cbv zeta in Hloop.
    rewrite Hlen in Hloop, Hrest.
    rewrite unread_cons.
    assert (Hall : take k (drop pos cur) = drop pos cur)
      by (apply take_ge; rewrite length_drop; lia).
    assert (Hsplit : take k (drop pos cur ++ unread (Body d) 0 rest)
                     = take k (drop pos cur)
                       ++ take (plen - (length out + k `min` (length cur - pos)))
                            (unread (Body d) 0 rest)).
    { rewrite take_app, length_drop. do 2 f_equal. lia. }
    rewrite Hsplit, app_assoc. split; [exact Hloop |].
    rewrite Hrest, drop_app, length_drop.
    rewrite (drop_ge (drop pos cur)) by (rewrite length_drop; lia).
    simpl. f_equal. lia.
Qed.

(** A [Read] into a buffer of [plen > 0] bytes on an open stream with no
    error pending: it gives the next [plen] bytes that are left, and
    [EOF] exactly when none is left. *)
Lemma Read_spec (s : t) (plen : nat) :
  closed s = false -> errChan s = None -> (0 < plen)%nat ->
  exists s',
    Read s plen = (s', (take plen (remaining s),
                        match remaining s with [] => Some Go.EOF | _ => None end))
    /\ remaining s' = drop plen (remaining s)
    /\ closed s' = false /\ errChan s' = None.
Proof.
  intros Hopen Herr Hplen. unfold Read. rewrite Hopen, Herr.
  destruct (Nat.eqb_spec plen 0); [lia |].
  destruct (readLoop_spec plen (dataChan s) (currData s) (currPos s) [])
    as (chan' & cur' & pos' & Hloop & Hrest).
  simpl in Hloop, Hrest. rewrite Nat.sub_0_r in Hloop, Hrest.
  fold (remaining s) in Hloop, Hrest.
  assert (Herr' : (if (plen <=? length (take plen (remaining s)))%nat then None
                   else if (0 <? length (take plen (remaining s)))%nat then None
                        else Some Go.EOF)
                  = match remaining s with [] => Some Go.EOF | _ => None end).
  { destruct (remaining s) as [| b l].
    - rewrite take_nil. simpl. destruct (Nat.leb_spec plen 0); [lia | reflexivity].
    - destruct plen as [| k]; [lia |]. simpl.
      destruct (k <=? length (take k l))%nat; reflexivity. }
  rewrite Herr' in Hloop. rewrite Hloop.
  eexists. split; [reflexivity |].
  split; [exact Hrest | split; reflexivity].
Qed.

Lemma readAll_spec (bufs : list nat) :
  forall s : t,
  closed s = false -> errChan s = None ->
  Forall (fun plen => (0 < plen)%nat) bufs ->
  (length (remaining s) < length bufs)%nat ->
  readAll s bufs = (remaining s, Some Go.EOF).
Proof.
  induction bufs as [| plen rest IH]; intros s Hopen Herr Hpos Hlen; [simpl in Hlen; lia |].
  apply Forall_cons in Hpos as [Hplen Hpos].
  destruct (Read_spec s plen Hopen Herr Hplen) as (s' & Hread & Hrem & Hopen' & Herr').
  simpl. rewrite Hread.
  destruct (remaining s) as [| b l] eqn:Hs.
  - rewrite take_nil. reflexivity.
  - rewrite (IH s' Hopen' Herr' Hpos).
    + rewrite Hrem, take_drop. reflexivity.
    + rewrite Hrem, length_drop. simpl in Hlen |- *. lia.
Qed.


(** *** The stream as a whole *)

(** The decoded body of a segment. *)
Definition decoded (pool : fetcher) (seg : Nzb.Segment) : list Byte.byte :=
  match pool seg with
  | Go.Ok d => Body d
  | Go.Err _ => []
  end.

Lemma fetched_data (pool : fetcher) (segs : list Nzb.Segment) :
  Forall (fun seg => exists d, pool seg = Go.Ok d) segs ->
  exists datas, Forall2 (fun seg d => pool seg = Go.Ok d) segs datas.
Proof.
  induction 1 as [| seg rest [d Hd] _ [datas IH]].
  - exists []. constructor.
  - exists (d :: datas). constructor; assumption.
Qed.

Lemma posted_indices (pool : fetcher) (segs : list Nzb.Segment) :
  idx <$> posted pool segs = seq 0 (length segs).
Proof.
  unfold posted. apply list_eq. intros i.
  rewrite list_lookup_fmap, list_lookup_imap.
  destruct (segs !! i) as [seg |] eqn:Hseg; simpl.
  - symmetry. apply lookup_seq. split; [reflexivity |].
    apply lookup_lt_is_Some. eauto.
  - symmetry. apply lookup_ge_None. rewrite length_seq.
    apply lookup_ge_None. assumption.
Qed.

(** Whatever the order of the results, the collector sends the data of
    the segments in the order of the segments, and no error. *)
Lemma collect_delivers_in_order (pool : fetcher) (segs : list Nzb.Segment)
    (datas : list SegmentData) (resultCh : list segmentResult) :
  Forall2 (fun seg d => pool seg = Go.Ok d) segs datas ->
  deliveryOrder pool segs resultCh ->
  collect (length segs) resultCh ∅ 0 0 = (datas, None).
Proof.
  intros Hdatas Horder. unfold deliveryOrder in Horder.
  assert (Hlen : length segs = length datas) by (eapply Forall2_length; eassumption).
  assert (Hidx : idx <$> resultCh ≡ₚ seq 0 (length segs)).
  { rewrite <- (posted_indices pool). apply fmap_Permutation. assumption. }
  rewrite Hlen. rewrite <- (drop_0 datas) at 2.
  apply collect_in_order.
  - intros r Hr. rewrite Horder in Hr.
    apply elem_of_lookup_imap_1 in Hr as (i & seg & -> & Hseg). simpl.
    destruct (Forall2_lookup_l _ _ _ _ _ Hdatas Hseg) as (d & Hd & Hfetch).
    exists d. split; assumption.
  - rewrite Hidx. apply NoDup_seq.
  - intros i d Hd. rewrite lookup_empty in Hd. discriminate.
  - intros i Hi. right. right. rewrite Hidx. apply elem_of_seq. lia.
  - intros r _. lia.
  - simpl. rewrite <- Hlen. rewrite Horder. unfold posted. apply length_imap.
Qed.

(** C1.  Take segments that can all be fetched, and let the workers post
    their results in any order.  Then reading the stream to exhaustion
    (with buffers of any positive lengths, as many as it takes) gives
    the decoded bodies of the segments, concatenated in the order of the
    segments, and ends with [EOF]. *)
Theorem SegmentsStream_reads_bodies_in_segment_order
    (cfg : Config) (pool : fetcher) (segs : list Nzb.Segment)
    (resultCh : list segmentResult) (bufs : list nat) :
  Forall (fun seg => exists d, pool seg = Go.Ok d) segs ->
  deliveryOrder pool segs resultCh ->
  Forall (fun plen => (0 < plen)%nat) bufs ->
  (length (concat (decoded pool <$> segs)) < length bufs)%nat ->
  readAll (NewSegmentsStream cfg segs resultCh) bufs
  = (concat (decoded pool <$> segs), Some Go.EOF).
Proof.
  intros Hvalid Horder Hbufs Hlen.
  destruct (fetched_data pool segs Hvalid) as [datas Hdatas].
  assert (Hbodies : decoded pool <$> segs = Body <$> datas).
  { clear -Hdatas. induction Hdatas as [| seg d segs datas Hd _ IH]; [reflexivity |].
    rewrite !fmap_cons, IH. unfold decoded at 1. rewrite Hd. reflexivity. }
  assert (Hstream : exists s, NewSegmentsStream cfg segs resultCh = s
             /\ closed s = false /\ errChan s = None
             /\ remaining s = concat (Body <$> datas)).
  { unfold NewSegmentsStream.
    destruct (Z.eqb_spec (Z.of_nat (length segs)) 0) as [Hnone | Hsome].
    - eexists. split; [reflexivity |]. simpl.
      destruct segs; [| simpl in Hnone; lia].
      inversion Hdatas; subst. repeat split.
    - rewrite (collect_delivers_in_order pool segs datas resultCh Hdatas Horder).
      eexists. split; [reflexivity |]. repeat split. }
  destruct Hstream as (s & -> & Hopen & Herr & Hrem).
  rewrite Hbodies in *. rewrite <- Hrem in *.
  apply readAll_spec; assumption.
Qed.

Definition seg (id : string) : Nzb.Segment :=
  {| Nzb.Bytes := 3; Nzb.Number := 0; Nzb.MessageId := id |}.

Definition body (id : string) : list Byte.byte :=
  if String.eqb id "1@x" then [Byte.x61; Byte.x62]
  else if String.eqb id "2@x" then [Byte.x63]
  else [Byte.x64; Byte.x65].

(** A pool that has every segment. *)
Definition samplePool : fetcher := fun s =>
  Go.Ok {| Body := body (Nzb.MessageId s);
           Range := {| Start := 0; End_ := 0 |}; FileSize := 5;
           Size := Z.of_nat (length (body (Nzb.MessageId s))) |}.

Definition sampleConfig : Config :=
  {| MaxConnectionPerStream := 4; StreamBufferSize := 1024 |}.

Definition sampleSegments : list Nzb.Segment := [seg "1@x"; seg "2@x"; seg "3@x"].

(** The third segment arrives first, then the first, then the second. *)
Definition sampleArrival : list segmentResult :=
  [ {| idx := 2; fetched := samplePool (seg "3@x") |};
    {| idx := 0; fetched := samplePool (seg "1@x") |};
    {| idx := 1; fetched := samplePool (seg "2@x") |} ].

Lemma SegmentsStream_out_of_order_witness :
  readAll (NewSegmentsStream sampleConfig sampleSegments sampleArrival)
          [2; 2; 2; 2; 2; 2]%nat
  = ([Byte.x61; Byte.x62; Byte.x63; Byte.x64; Byte.x65], Some Go.EOF).
Proof.
  apply (SegmentsStream_reads_bodies_in_segment_order
           sampleConfig samplePool sampleSegments sampleArrival [2; 2; 2; 2; 2; 2]%nat).
  - repeat constructor; eexists; reflexivity.
  - unfold deliveryOrder, sampleArrival.
    apply (Permutation_cons_app
             [ {| idx := 0%nat; fetched := samplePool (seg "1@x") |};
               {| idx := 1%nat; fetched := samplePool (seg "2@x") |} ] []).
    reflexivity.
  - repeat constructor.
  - vm_compute. lia.
Defined.

(** *** The stream over no segments *)

(** C10, as stated, fails when the first [Read] is given a buffer of
    length 0: it returns 0 bytes and no error, not [EOF]. *)
Lemma Read_empty_buffer_is_not_EOF :
  snd (Read (NewSegmentsStream sampleConfig [] []) 0) = ([], None).
Proof. reflexivity. Qed.

(** C10, amended.  Over an empty list of segments no worker is started
    and [dataChan] is closed with nothing in it.  The first [Read] with
    a buffer that is not empty returns 0 bytes and [EOF] (with an empty
    buffer, 0 bytes and no error).  [Close] returns no error, before or
    after that [Read], and a second [Close] returns no error and changes
    nothing. *)
Theorem empty_SegmentsStream_reads_EOF_and_closes
    (cfg : Config) (resultCh : list segmentResult) (plen : nat) :
  let s := NewSegmentsStream cfg [] resultCh in
  workersStarted s = 0
  /\ dataChan s = []
  /\ Read s (S plen) = (s, ([], Some Go.EOF))
  /\ Read s 0 = (s, ([], None))
  /\ snd (Close s) = None
  /\ Close (fst (Close s)) = (fst (Close s), None)
  /\ snd (Close (fst (Read s (S plen)))) = None
  /\ Read (fst (Close s)) (S plen) = (fst (Close s), ([], Some Go.EOF)).
Proof. repeat split. Qed.

End SegmentsStreamFacts.

(** ** File Stream: the interpolation search *)

Module SearchFacts.

Import Pool FileStream.

(** *** The loop ends, whatever the pool answers *)

Lemma Count_index (lo hi : Z) :
  0 <= lo <= hi -> hi <= Int64.max_int ->
  Count {| Start := lo; End_ := hi |} = hi - lo.
Proof.
  intros Hlo Hhi. unfold Count, Int64.sub. simpl. apply Int64Facts.wrap_in_range.
  unfold Int64.in_range, Int64.min_int, Int64.max_int in *. lia.
Qed.

(** The probed index lies in the index range, whatever the
    interpolation in floating point gives. *)
Lemma guessIndex_clamped (targetByte lo hi : Z) (byteRange : ByteRange) :
  0 <= lo < hi -> hi <= Int64.max_int ->
  lo <= guessIndex targetByte {| Start := lo; End_ := hi |} byteRange < hi.
Proof.
  intros Hlo Hhi. unfold guessIndex. simpl.
  set (g0 := Int64.add lo _). clearbody g0.
  assert (Hsub : Int64.sub hi 1 = hi - 1).
  { unfold Int64.sub. apply Int64Facts.wrap_in_range.
    unfold Int64.in_range, Int64.min_int, Int64.max_int in *. lia. }
  rewrite Hsub.
  destruct (Z.ltb_spec g0 lo).
  - destruct (Z.leb_spec hi lo); lia.
  - destruct (Z.leb_spec hi g0); lia.
Qed.

Lemma next_index (g hi : Z) :
  0 <= g < hi -> hi <= Int64.max_int -> Int64.add g 1 = g + 1.
Proof.
  intros Hg Hhi. unfold Int64.add. apply Int64Facts.wrap_in_range.
  unfold Int64.in_range, Int64.min_int, Int64.max_int in *. lia.
Qed.

(** With one round more than the index range is long, the loop returns
    before its rounds are used up, and it asks the pool at most once per
    index of the range. *)
Lemma searchLoop_finishes (pool : fetcher) (s : t) (targetByte : Z) (rounds : nat) :
  forall (lo hi : Z) (byteRange : ByteRange) (probes : list Z),
  0 <= lo <= hi -> hi <= Int64.max_int ->
  (Z.to_nat (hi - lo) < rounds)%nat ->
  fst (searchLoop rounds pool s targetByte {| Start := lo; End_ := hi |} byteRange probes)
  <> Failed Unfinished
  /\ Z.of_nat (length (snd (searchLoop rounds pool s targetByte
                              {| Start := lo; End_ := hi |} byteRange probes)))
     <= Z.of_nat (length probes) + (hi - lo).
Proof.
  induction rounds as [| rounds IH]; intros lo hi byteRange probes Hlo Hhi Hrounds; [lia |].
  cbn [searchLoop].
  destruct (negb (Contains byteRange targetByte)); cbn [orb];
    [simpl; split; [discriminate | lia] |].
  rewrite Count_index by assumption.
  destruct (Z.leb_spec (hi - lo) 0) as [| Hlen]; [simpl; split; [discriminate | lia] |].
  pose proof (guessIndex_clamped targetByte lo hi byteRange ltac:(lia) Hhi) as Hg.
  set (g := guessIndex targetByte {| Start := lo; End_ := hi |} byteRange) in *.
  assert (Hprobes : Z.of_nat (length (probes ++ [g])) = Z.of_nat (length probes) + 1)
    by (rewrite length_app; simpl; lia).
  destruct (getSegmentByteRange pool s g) as [segmentRange | e];
    [| simpl; split; [discriminate | lia]].
  destruct (negb (ContainsRange byteRange segmentRange));
    [simpl; split; [discriminate | lia] |].
  destruct (Contains segmentRange targetByte);
    [simpl; split; [discriminate | lia] |].
  cbn [Start End_].
  destruct (targetByte <? Start segmentRange).
  - destruct (IH lo g {| Start := Start byteRange; End_ := Start segmentRange |}
                (probes ++ [g])) as [Hfin Hlenp]; [lia | lia | lia |].
    split; [assumption | lia].
  - rewrite (next_index g hi) by lia.
    destruct (IH (g + 1) hi {| Start := End_ segmentRange; End_ := End_ byteRange |}
                (probes ++ [g])) as [Hfin Hlenp]; [lia | lia | lia |].
    split; [assumption | lia].
Qed.

Lemma estimateFrom_range (ratio : F64.t) (segs : list Nzb.Segment) :
  forall (i offset targetByte k : Z),
  estimateFrom ratio segs i offset targetByte = Some k ->
  i <= k < i + Z.of_nat (length segs).
Proof.
  induction segs as [| seg rest IH]; intros i offset targetByte k; simpl; [discriminate |].
  destruct (Nzb.Bytes seg <=? 0).
  - intros H. apply IH in H. lia.
  - destruct (targetByte <? _).
    + intros [= <-]. lia.
    + intros H. apply IH in H. lia.
Qed.

Lemma estimateSegmentIndex_range (s : t) (targetByte : Z) :
  0 < Nzb.SegmentCount (file s) ->
  0 <= estimateSegmentIndex s targetByte < Nzb.SegmentCount (file s).
Proof.
  intros Hcount. unfold estimateSegmentIndex.
  destruct (estimateFrom _ _ 0 0 targetByte) as [k |] eqn:E.
  - apply estimateFrom_range in E. unfold Nzb.SegmentCount. lia.
  - lia.
Qed.

(** [interpolationSearch] always returns, and asks the pool at most once
    more than there are segments (the first guess may be asked twice
    when its fetch fails). *)
Lemma interpolationSearch_finishes (pool : fetcher) (s : t) (targetByte : Z) :
  Nzb.SegmentCount (file s) <= Int64.max_int ->
  fst (interpolationSearch pool s targetByte) <> Failed Unfinished
  /\ Z.of_nat (length (snd (interpolationSearch pool s targetByte)))
     <= Nzb.SegmentCount (file s) + 1.
Proof.
  intros Hmax. unfold interpolationSearch.
  pose proof (Zle_0_nat (length (Nzb.Segments (file s)))) as Hnonneg.
  fold (Nzb.SegmentCount (file s)) in Hnonneg.
  destruct (Z.eqb_spec (Nzb.SegmentCount (file s)) 0) as [| Hne];
    [simpl; split; [discriminate | lia] |].
  destruct ((targetByte <? 0) || (fileSize s <=? targetByte));
    [simpl; split; [discriminate | lia] |].
  pose proof (estimateSegmentIndex_range s targetByte ltac:(lia)) as He.
  set (e := estimateSegmentIndex s targetByte) in *.
  set (n := Nzb.SegmentCount (file s)) in *.
  destruct (Z.leb_spec 0 e); [| lia].
  destruct (Z.ltb_spec e n); [| lia].
  cbn [andb].
  destruct (getSegmentByteRange pool s e) as [segmentRange | err].
  - destruct (Contains segmentRange targetByte); [simpl; split; [discriminate | lia] |].
    destruct (targetByte <? Start segmentRange).
    + destruct (searchLoop_finishes pool s targetByte (S (Z.to_nat n)) 0 e
                  {| Start := 0; End_ := Start segmentRange |} [e]) as [Hfin Hlen];
        [lia | lia | lia |].
      split; [assumption | change (Z.of_nat (length [e])) with 1 in Hlen; lia].
    + rewrite (next_index e n) by lia.
      destruct (searchLoop_finishes pool s targetByte (S (Z.to_nat n)) (e + 1) n
                  {| Start := End_ segmentRange; End_ := fileSize s |} [e]) as [Hfin Hlen];
        [lia | lia | lia |].
      split; [assumption | change (Z.of_nat (length [e])) with 1 in Hlen; lia].
  - destruct (searchLoop_finishes pool s targetByte (S (Z.to_nat n)) 0 n
                {| Start := 0; End_ := fileSize s |} [e]) as [Hfin Hlen];
      [lia | lia | lia |].
    split; [assumption | change (Z.of_nat (length [e])) with 1 in Hlen; lia].
Qed.


(** *** On a file whose segments tile it *)

(** The decoded ranges of the segments tile [[0, size)]: segment [i]
    holds the bytes from [bounds i] up to [bounds (i + 1)]. *)
Definition tiles (pool : fetcher) (segs : list Nzb.Segment) (size : Z) : Prop :=
  exists bounds : Z -> Z,
    bounds 0 = 0
    /\ bounds (Z.of_nat (length segs)) = size
    /\ (forall i j, 0 <= i <= j -> j <= Z.of_nat (length segs) -> bounds i <= bounds j)
    /\ (forall i, 0 <= i < Z.of_nat (length segs) ->
          exists seg d,
            nth_error segs (Z.to_nat i) = Some seg
            /\ pool seg = Go.Ok d
            /\ Range d = {| Start := bounds i; End_ := bounds (i + 1) |}).

Section Tiled.

Variable pool : fetcher.
Variable s : t.
Variable targetByte : Z.
Variable bounds : Z -> Z.

Let n : Z := Nzb.SegmentCount (file s).

Hypothesis Hmax : n <= Int64.max_int.
Hypothesis Hmono : forall i j, 0 <= i <= j -> j <= n -> bounds i <= bounds j.
Hypothesis Hrange : forall i, 0 <= i < n ->
  getSegmentByteRange pool s i = Go.Ok {| Start := bounds i; End_ := bounds (i + 1) |}.

(** What the search is to return: a segment whose range holds the
    target, found with no more than [budget] probes. *)
Definition found (budget : Z) (res : outcome * list Z) : Prop :=
  exists i r,
    fst res = Found {| SegmentIndex := i; ByteRange_ := r |}
    /\ getSegmentByteRange pool s i = Go.Ok r
    /\ Contains r targetByte = true
    /\ Z.of_nat (length (snd res)) <= budget.

Lemma searchLoop_tiled (rounds : nat) :
  forall (lo hi : Z) (probes : list Z),
  0 <= lo <= hi -> hi <= n ->
  bounds lo <= targetByte < bounds hi ->
  (Z.to_nat (hi - lo) < rounds)%nat ->
  found (Z.of_nat (length probes) + (hi - lo))
    (searchLoop rounds pool s targetByte
       {| Start := lo; End_ := hi |}
       {| Start := bounds lo; End_ := bounds hi |} probes).
Proof.
  induction rounds as [| rounds IH]; intros lo hi probes Hlo Hhi Htarget Hrounds; [lia |].
  assert (Hlt : lo < hi).
  { destruct (Z.eq_dec lo hi) as [-> | Hne]; lia. }
  cbn [searchLoop]. unfold Contains at 1. cbn [Start End_].
  destruct (Z.leb_spec (bounds lo) targetByte); [| lia].
  destruct (Z.ltb_spec targetByte (bounds hi)); [| lia].
  cbn [andb negb orb].
  rewrite Count_index by lia.
  destruct (Z.leb_spec (hi - lo) 0); [lia |].
  pose proof (guessIndex_clamped targetByte lo hi
                {| Start := bounds lo; End_ := bounds hi |} ltac:(lia) ltac:(lia)) as Hg.
  set (g := guessIndex targetByte _ _) in *.
  rewrite Hrange by lia.
  assert (Hprobes : Z.of_nat (length (probes ++ [g])) = Z.of_nat (length probes) + 1)
    by (rewrite length_app; simpl; lia).
  unfold ContainsRange. cbn [Start End_].
  pose proof (Hmono lo g ltac:(lia) ltac:(lia)).
  pose proof (Hmono (g + 1) hi ltac:(lia) ltac:(lia)).
  destruct (Z.leb_spec (bounds lo) (bounds g)); [| lia].
  destruct (Z.leb_spec (bounds (g + 1)) (bounds hi)); [| lia].
  cbn [andb negb].
  destruct (Contains {| Start := bounds g; End_ := bounds (g + 1) |} targetByte) eqn:Hin.
  - exists g, {| Start := bounds g; End_ := bounds (g + 1) |}.
    cbn [fst snd]. split; [reflexivity | split; [apply Hrange; lia | split; [assumption | lia]]].
  - unfold Contains in Hin. cbn [Start End_] in Hin.
    destruct (Z.ltb_spec targetByte (bounds g)) as [Hbelow | Habove].
    + destruct (IH lo g (probes ++ [g])) as (i & r & Hres & Hr & Hc & Hlen);
        [lia | lia | lia | lia |].
      exists i, r. repeat split; try assumption. lia.
    + rewrite (next_index g hi) by lia.
      assert (bounds (g + 1) <= targetByte).
      { destruct (Z.leb_spec (bounds g) targetByte); [| lia].
        destruct (Z.ltb_spec targetByte (bounds (g + 1))); [discriminate | lia]. }
      destruct (IH (g + 1) hi (probes ++ [g])) as (i & r & Hres & Hr & Hc & Hlen);
        [lia | lia | lia | lia |].
      exists i, r. repeat split; try assumption. lia.
Qed.

Lemma interpolationSearch_tiled :
  bounds 0 = 0 -> bounds n = fileSize s ->
  0 <= targetByte < fileSize s ->
  found n (interpolationSearch pool s targetByte).
Proof.
  intros Hzero Hsize Htarget. unfold interpolationSearch. fold n.
  assert (Hn : 0 < n).
  { destruct (Z.lt_ge_cases 0 n) as [| Hge]; [assumption |].
    pose proof (Zle_0_nat (length (Nzb.Segments (file s)))) as Hnonneg.
    fold (Nzb.SegmentCount (file s)) in Hnonneg. fold n in Hnonneg.
    assert (n = 0) as Hn0 by lia. rewrite Hn0 in Hsize. lia. }
  destruct (Z.eqb_spec n 0); [lia |].
  destruct (Z.ltb_spec targetByte 0); [lia |].
  destruct (Z.leb_spec (fileSize s) targetByte); [lia |].
  cbn [orb].
  pose proof (estimateSegmentIndex_range s targetByte Hn) as He. fold n in He.
  set (e := estimateSegmentIndex s targetByte) in *.
  destruct (Z.leb_spec 0 e); [| lia].
  destruct (Z.ltb_spec e n); [| lia].
  cbn [andb]. rewrite Hrange by lia.
  destruct (Contains {| Start := bounds e; End_ := bounds (e + 1) |} targetByte) eqn:Hin.
  - exists e, {| Start := bounds e; End_ := bounds (e + 1) |}.
    cbn [fst snd length]. split; [reflexivity | split; [apply Hrange; lia | split; [assumption | lia]]].
  - unfold Contains in Hin. cbn [Start End_] in Hin. cbn [Start End_].
    destruct (Z.ltb_spec targetByte (bounds e)) as [Hbelow | Habove].
    + pose proof (searchLoop_tiled (S (Z.to_nat n)) 0 e [e]
                    ltac:(lia) ltac:(lia) ltac:(lia) ltac:(lia)) as Hloop.
      rewrite Hzero in Hloop.
      destruct Hloop as (i & r & Hres & Hr & Hc & Hlen).
      exists i, r. repeat split; try assumption.
      change (Z.of_nat (length [e])) with 1 in Hlen. lia.
    + rewrite (next_index e n) by lia.
      assert (bounds (e + 1) <= targetByte).
      { destruct (Z.leb_spec (bounds e) targetByte); [| lia].
        destruct (Z.ltb_spec targetByte (bounds (e + 1))); [discriminate | lia]. }
      pose proof (searchLoop_tiled (S (Z.to_nat n)) (e + 1) n [e]
                    ltac:(lia) ltac:(lia) ltac:(lia) ltac:(lia)) as Hloop.
      rewrite Hsize in Hloop.
      destruct Hloop as (i & r & Hres & Hr & Hc & Hlen).
      exists i, r. repeat split; try assumption.
      change (Z.of_nat (length [e])) with 1 in Hlen. lia.
Qed.

End Tiled.

Lemma tiles_ranges (pool : fetcher) (s : t) (bounds : Z -> Z) :
  (forall i, 0 <= i < Z.of_nat (length (Nzb.Segments (file s))) ->
     exists seg d,
       nth_error (Nzb.Segments (file s)) (Z.to_nat i) = Some seg
       /\ pool seg = Go.Ok d
       /\ Range d = {| Start := bounds i; End_ := bounds (i + 1) |}) ->
  forall i, 0 <= i < Nzb.SegmentCount (file s) ->
    getSegmentByteRange pool s i = Go.Ok {| Start := bounds i; End_ := bounds (i + 1) |}.
Proof.
  intros Hsegs i Hi. destruct (Hsegs i Hi) as (seg & d & Hseg & Hd & Hr).
  unfold getSegmentByteRange. rewrite Hseg, Hd, Hr. reflexivity.
Qed.

(** C2, amended.  On a file whose segments tile it, and for a target
    byte inside the file, the search returns the segment that holds the
    byte, after at most as many probes as the file has segments. *)
Theorem interpolationSearch_finds_within_SegmentCount_probes
    (pool : fetcher) (s : t) (targetByte : Z) :
  tiles pool (Nzb.Segments (file s)) (fileSize s) ->
  Nzb.SegmentCount (file s) <= Int64.max_int ->
  0 <= targetByte < fileSize s ->
  exists i r probes,
    interpolationSearch pool s targetByte
    = (Found {| SegmentIndex := i; ByteRange_ := r |}, probes)
    /\ getSegmentByteRange pool s i = Go.Ok r
    /\ Contains r targetByte = true
    /\ Z.of_nat (length probes) <= Nzb.SegmentCount (file s).
Proof.
  intros (bounds & Hzero & Hsize & Hmono & Hsegs) Hmax Htarget.
  destruct (interpolationSearch_tiled pool s targetByte bounds Hmax Hmono
              (tiles_ranges pool s bounds Hsegs) Hzero Hsize Htarget)
    as (i & r & Hres & Hr & Hc & Hlen).
  exists i, r, (snd (interpolationSearch pool s targetByte)).
  split; [| split; [assumption | split; assumption]].
  destruct (interpolationSearch pool s targetByte) as [res probes].
  simpl in Hres |- *. rewrite Hres. reflexivity.
Qed.

(** *** Two files *)

Definition segment (number : Z) (id : string) : Nzb.Segment :=
  {| Nzb.Bytes := 100; Nzb.Number := number; Nzb.MessageId := id |}.

Definition fileOf (segs : list Nzb.Segment) : Nzb.File :=
  {| Nzb.Poster := "poster"; Nzb.Date := 0; Nzb.Subject := "payload";
     Nzb.Groups := ["alt.binaries.test"]; Nzb.Segments := segs;
     Nzb.name := "payload.mkv" |}.

(** A pool that holds the segments of [table], each with the first and
    the length of its decoded range. *)
Fixpoint poolOf (size : Z) (table : list (string * (Z * Z))) : fetcher :=
  fun seg =>
    match table with
    | [] => Go.Err (Go.Errorf "430 no such article")
    | (id, (start, len)) :: rest =>
        if String.eqb (Nzb.MessageId seg) id
        then Go.Ok {| Body := repeat Byte.x00 (Z.to_nat len);
                      Range := NewByteRangeFromSize start len;
                      FileSize := size; Pool.Size := len |}
        else poolOf size rest seg
    end.

Definition config : Config :=
  {| MaxConnectionPerStream := 8; StreamBufferSize := 1048576 |}.

Definition opened (pool : fetcher) (f : Nzb.File) : option t :=
  match NewFileStream config pool f 0 with
  | Some (Go.Ok s) => Some s
  | _ => None
  end.

(** Eight segments of the same declared size; the first seven decode to
    one byte each, the last to a thousand. *)
Definition skewedFile : Nzb.File :=
  fileOf [segment 1 "1@s"; segment 2 "2@s"; segment 3 "3@s"; segment 4 "4@s";
          segment 5 "5@s"; segment 6 "6@s"; segment 7 "7@s"; segment 8 "8@s"].

Definition skewedPool : fetcher :=
  poolOf 1007 [("1@s", (0, 1)); ("2@s", (1, 1)); ("3@s", (2, 1)); ("4@s", (3, 1));
               ("5@s", (4, 1)); ("6@s", (5, 1)); ("7@s", (6, 1)); ("8@s", (7, 1000))].

(** C2, as stated, fails: to find byte 6 of this file of 8 segments the
    search probes 7 segments, one after the other, while
    [ceil(log2 8) + 1] is 4. *)
Lemma interpolationSearch_probes_seven_of_eight :
  (fun s => interpolationSearch skewedPool s 6) <$> opened skewedPool skewedFile
  = Some (Found {| SegmentIndex := 6; ByteRange_ := {| Start := 6; End_ := 7 |} |},
          [0; 1; 2; 3; 4; 5; 6])
  /\ fileSize <$> opened skewedPool skewedFile = Some 1007
  /\ Nzb.SegmentCount skewedFile = 8
  /\ Z.log2_up 8 + 1 = 4.
Proof. vm_compute. repeat split. Qed.

(** Three segments that decode to [[0,1000)], [[1000,1700)] and
    [[1700,2400)]. *)
Definition plainFile : Nzb.File :=
  fileOf [segment 1 "1@p"; segment 2 "2@p"; segment 3 "3@p"].

Definition plainPool : fetcher :=
  poolOf 2400 [("1@p", (0, 1000)); ("2@p", (1000, 700)); ("3@p", (1700, 700))].

Definition plainStream : t :=
  {| file := plainFile; fileSize := 2400; avgSegmentSize := 800;
     segmentSizeRatio := F64.div (F64.of_int 2400) (F64.of_int 300);
     bufferSize := 1048576; position := 0; stream := None; closed := false |}.

Definition plainBounds (i : Z) : Z :=
  if i <=? 0 then 0 else if i =? 1 then 1000 else if i =? 2 then 1700 else 2400.

Lemma plainPool_tiles : tiles plainPool (Nzb.Segments plainFile) 2400.
Proof.
  exists plainBounds. split; [reflexivity | split; [reflexivity | split]].
  - intros i j Hi Hj. simpl in Hj. unfold plainBounds.
    repeat match goal with
           | |- context [?a <=? ?b] => destruct (Z.leb_spec a b)
           | |- context [?a =? ?b] => destruct (Z.eqb_spec a b)
           end; lia.
  - intros i Hi. simpl in Hi.
    assert (i = 0 \/ i = 1 \/ i = 2) as [-> | [-> | ->]] by lia;
      eexists; eexists; repeat split; reflexivity.
Defined.

Lemma interpolationSearch_plain_witness :
  exists i r probes,
    interpolationSearch plainPool plainStream 1200
    = (Found {| SegmentIndex := i; ByteRange_ := r |}, probes)
    /\ getSegmentByteRange plainPool plainStream i = Go.Ok r
    /\ Contains r 1200 = true
    /\ Z.of_nat (length probes) <= Nzb.SegmentCount (file plainStream).
Proof.
  apply (interpolationSearch_finds_within_SegmentCount_probes plainPool plainStream 1200).
  - exact plainPool_tiles.
  - vm_compute. congruence.
  - simpl. lia.
Defined.

End SearchFacts.

(** ** Stable sorting *)

Module SlicesFacts.

Import Slices.

Section Sorting.

Context {A : Type}.
Variable cmp : A -> A -> Z.

(** The order [cmp] stands for: [cmp x y < 0] exactly when the key of
    [x] is below the key of [y]. *)
Variable key : A -> Z.

Definition ordersBy (l : list A) : Prop :=
  forall x y, x ∈ l -> y ∈ l -> (cmp x y <? 0) = (key x <? key y).

Definition ascending (x y : A) : Prop := key x <= key y.
Definition descending (x y : A) : Prop := key y <= key x.

Lemma sink_Permutation (x : A) (sortedRev : list A) :
  sink cmp x sortedRev ≡ₚ x :: sortedRev.
Proof.
  induction sortedRev as [| y rest IH]; simpl; [reflexivity |].
  destruct (cmp x y <? 0); [| reflexivity].
  rewrite IH. apply perm_swap.
Qed.

Lemma sink_sorted (x : A) (sortedRev : list A) :
  ordersBy (x :: sortedRev) ->
  StronglySorted descending sortedRev ->
  StronglySorted descending (sink cmp x sortedRev).
Proof.
  intros Hord. induction sortedRev as [| y rest IH]; intros Hsorted; simpl.
  - repeat constructor.
  - apply StronglySorted_cons in Hsorted as [Hy Hrest].
    rewrite (Hord x y) by (repeat constructor).
    destruct (Z.ltb_spec (key x) (key y)) as [Hlt | Hge].
    + apply StronglySorted_cons. split.
      * rewrite sink_Permutation. constructor; [unfold descending; lia | assumption].
      * apply IH; [| assumption].
        intros a b Ha Hb. apply Hord.
        -- apply elem_of_cons in Ha as [-> | Ha]; [left | right; right; assumption].
        -- apply elem_of_cons in Hb as [-> | Hb]; [left | right; right; assumption].
    + apply StronglySorted_cons. split; [| apply StronglySorted_cons; split; assumption].
      constructor; [unfold descending; lia |].
      eapply Forall_impl; [exact Hy |]. unfold descending. intros z Hz. lia.
Qed.

Lemma sink_all_sorted (l : list A) :
  forall sortedRev : list A,
  ordersBy (l ++ sortedRev) ->
  StronglySorted descending sortedRev ->
  StronglySorted descending (fold_left (fun acc x => sink cmp x acc) l sortedRev).
Proof.
  induction l as [| x rest IH]; intros sortedRev Hord Hsorted; simpl; [assumption |].
  apply IH.
  - intros a b Ha Hb. apply Hord.
    + rewrite elem_of_app, sink_Permutation in Ha. rewrite elem_of_app.
      destruct Ha as [Ha | Ha]; [left; right; assumption |].
      apply elem_of_cons in Ha as [-> | Ha]; [left; left | right; assumption].
    + rewrite elem_of_app, sink_Permutation in Hb. rewrite elem_of_app.
      destruct Hb as [Hb | Hb]; [left; right; assumption |].
      apply elem_of_cons in Hb as [-> | Hb]; [left; left | right; assumption].
  - apply sink_sorted; [| assumption].
    intros a b Ha Hb. apply Hord.
    + rewrite elem_of_app.
      apply elem_of_cons in Ha as [-> | Ha]; [left; left | right; assumption].
    + rewrite elem_of_app.
      apply elem_of_cons in Hb as [-> | Hb]; [left; left | right; assumption].
Qed.

Lemma sink_all_Permutation (l : list A) :
  forall sortedRev : list A,
  fold_left (fun acc x => sink cmp x acc) l sortedRev ≡ₚ l ++ sortedRev.
Proof.
  induction l as [| x rest IH]; intros sortedRev; simpl; [reflexivity |].
  rewrite IH, sink_Permutation. symmetry. apply Permutation_middle.
Qed.

Lemma reversed_ascending (l : list A) :
  StronglySorted descending l -> StronglySorted ascending (rev l).
Proof.
  induction 1 as [| x l _ IH Hx]; simpl; [constructor |].
  apply StronglySorted_app. split; [| split; [assumption | repeat constructor]].
  intros a b Ha Hb. apply list_elem_of_singleton in Hb as ->.
  rewrite Forall_forall in Hx. apply Hx.
  apply list_elem_of_In, in_rev, list_elem_of_In. assumption.
Qed.

(** [SortStableFunc] returns a permutation of its argument... *)
Lemma SortStableFunc_Permutation (l : list A) : SortStableFunc cmp l ≡ₚ l.
Proof.
  unfold SortStableFunc. rewrite <- Permutation_rev, sink_all_Permutation.
  rewrite app_nil_r. reflexivity.
Qed.

(** ... in ascending order of the keys, when [cmp] orders by them. *)
Lemma SortStableFunc_sorted (l : list A) :
  ordersBy l -> StronglySorted ascending (SortStableFunc cmp l).
Proof.
  intros Hord. unfold SortStableFunc. apply reversed_ascending.
  apply sink_all_sorted; [rewrite app_nil_r; assumption | constructor].
Qed.

End Sorting.

End SlicesFacts.

(** ** Archive Volume Grouper *)

Module ArchiveVolumeFacts.

Import Text FileTypes ArchiveVolume.

(** The files of the groups, group after group. *)
Definition allFiles (groups : list archiveVolumeGroup) : list file :=
  concat (Files <$> groups).

(** The groups of a map, in the order [map_to_list] gives. *)
Definition groupsOf (m : gmap string archiveVolumeGroup) : list archiveVolumeGroup :=
  snd <$> map_to_list m.

(** A file the first loop puts into a group: an archive volume by its
    name or by its type. *)
Definition recognised (f : file) : Prop := is_Some (groupOf f).

Lemma allFiles_Permutation (gs gs' : list archiveVolumeGroup) :
  gs ≡ₚ gs' -> allFiles gs ≡ₚ allFiles gs'.
Proof.
  unfold allFiles. induction 1 as [| g gs gs' _ IH | g g' gs | gs1 gs2 gs3 _ IH1 _ IH2]; simpl.
  - reflexivity.
  - rewrite IH. reflexivity.
  - rewrite !app_assoc. apply Permutation_app_tail, Permutation_app_comm.
  - rewrite IH1. assumption.
Qed.

#[local] Instance allFiles_Proper : Proper ((≡ₚ) ==> (≡ₚ)) allFiles.
Proof. intros gs gs' H. apply allFiles_Permutation. assumption. Qed.

(** *** The first loop: every recognised file goes to one group *)

Lemma addFile_files (m : gmap string archiveVolumeGroup) (f : file) :
  allFiles (groupsOf (addFile m f))
  ≡ₚ allFiles (groupsOf m) ++ (if decide (recognised f) then [f] else []).
Proof.
  unfold addFile, recognised.
  destruct (groupOf f) as [[[baseName fileType] aliased] |] eqn:Hgroup.
  - destruct (decide (is_Some (Some (baseName, fileType, aliased)))) as [_ | Hno];
      [| exfalso; apply Hno; eauto].
    set (key := groupKey baseName fileType).
    destruct (m !! key) as [g |] eqn:Hkey.
    + rewrite <- insert_delete_eq.
      unfold groupsOf.
      rewrite map_to_list_insert by apply lookup_delete_eq.
      rewrite <- (map_to_list_delete m key g Hkey).
      unfold allFiles. simpl.
      rewrite <- !app_assoc. apply Permutation_app_head.
      rewrite Permutation_app_comm. reflexivity.
    + unfold groupsOf. rewrite map_to_list_insert by assumption.
      unfold allFiles. simpl. apply Permutation_cons_append.
  - destruct (decide (is_Some (@None (string * FileType * bool)))) as [[x Hx] | _];
      [discriminate |].
    rewrite app_nil_r. reflexivity.
Qed.

Lemma fold_addFile_files (files : list file) :
  forall m : gmap string archiveVolumeGroup,
  allFiles (groupsOf (fold_left addFile files m))
  ≡ₚ allFiles (groupsOf m) ++ filter recognised files.
Proof.
  induction files as [| f rest IH]; intros m; simpl.
  - rewrite filter_nil, app_nil_r. reflexivity.
  - rewrite IH, addFile_files, filter_cons.
    destruct (decide (recognised f)); rewrite <- app_assoc; reflexivity.
Qed.

Lemma collectGroups_files (files : list file) :
  allFiles (groupsOf (collectGroups files)) ≡ₚ filter recognised files.
Proof.
  unfold collectGroups. rewrite fold_addFile_files.
  unfold groupsOf. rewrite map_to_list_empty. reflexivity.
Qed.

(** *** The second loop: a group's files in the order of their volumes *)

Definition volumeOf (g : archiveVolumeGroup) (f : file) : Z :=
  getFileVolume f (FileType_ g).

Definition indexed (g : archiveVolumeGroup) : list (nat * Z) :=
  imap (fun i f => (i, volumeOf g f)) (Files g).

Lemma indexed_lookup (g : archiveVolumeGroup) (iv : nat * Z) :
  iv ∈ indexed g ->
  exists f, Files g !! fst iv = Some f /\ snd iv = volumeOf g f.
Proof.
  intros Hin. apply elem_of_lookup_imap_1 in Hin as (i & f & -> & Hf).
  exists f. split; [assumption | reflexivity].
Qed.

Lemma omap_cons {A B} (f : A -> option B) (a : A) (l : list A) :
  omap f (a :: l) = match f a with Some y => y :: omap f l | None => omap f l end.
Proof. reflexivity. Qed.

Lemma omap_indexed (v : file -> Z) (l : list file) :
  forall before : list file,
  omap (fun iv : nat * Z => (before ++ l) !! fst iv)
       (imap (fun i f => ((length before + i)%nat, v f)) l) = l.
Proof.
  induction l as [| x rest IH]; intros before; [reflexivity |].
  rewrite imap_cons, omap_cons. cbn [fst].
  rewrite Nat.add_0_r, list_lookup_middle by reflexivity.
  f_equal.
  rewrite (cons_middle x before rest), app_assoc.
  etransitivity; [| exact (IH (before ++ [x]))].
  f_equal. apply imap_ext. intros i y _. simpl.
  rewrite length_app. simpl. f_equal. lia.
Qed.

Lemma orderVolumes_Files (g : archiveVolumeGroup) :
  Files (orderVolumes g) ≡ₚ Files g.
Proof.
  unfold orderVolumes. cbn [Files].
  rewrite (SlicesFacts.SortStableFunc_Permutation compareVolume).
  exact (eq_ind_r (fun l => l ≡ₚ Files g) (reflexivity _)
           (omap_indexed (volumeOf g) (Files g) [])).
Qed.

Lemma volumes_of_files (v : file -> Z) (l : list file) (ivs : list (nat * Z)) :
  Forall (fun iv => exists f, l !! fst iv = Some f /\ snd iv = v f) ivs ->
  map snd ivs = v <$> omap (fun iv : nat * Z => l !! fst iv) ivs.
Proof.
  induction 1 as [| iv ivs (f & Hf & Hv) _ IH]; [reflexivity |].
  rewrite omap_cons, Hf.
  change (snd iv :: map snd ivs
          = v f :: (v <$> omap (fun iv : nat * Z => l !! fst iv) ivs)).
  rewrite IH, Hv. reflexivity.
Qed.

Lemma orderVolumes_Volumes (g : archiveVolumeGroup) :
  Volumes (orderVolumes g) = volumeOf g <$> Files (orderVolumes g).
Proof.
  unfold orderVolumes. cbn [Files Volumes].
  apply volumes_of_files.
  apply Forall_forall. intros iv Hiv. apply indexed_lookup.
  rewrite (SlicesFacts.SortStableFunc_Permutation compareVolume) in Hiv. assumption.
Qed.

(** The volume numbers for which the comparison [a.volume - b.volume]
    of the second loop does not overflow. *)
Definition volumeFits (v : Z) : Prop := - 2 ^ 62 <= v < 2 ^ 62.

Lemma compareVolume_orders (ivs : list (nat * Z)) :
  Forall (fun iv => volumeFits (snd iv)) ivs ->
  SlicesFacts.ordersBy compareVolume snd ivs.
Proof.
  intros Hfit a b Ha Hb. rewrite Forall_forall in Hfit.
  unfold compareVolume. rewrite Int64Facts.sub_small by (apply Hfit; assumption).
  destruct (Z.ltb_spec (snd a - snd b) 0); destruct (Z.ltb_spec (snd a) (snd b)); lia.
Qed.

Lemma ascending_fmap {A} (key : A -> Z) (l : list A) :
  StronglySorted (SlicesFacts.ascending key) l -> StronglySorted Z.le (key <$> l).
Proof.
  induction 1 as [| x l _ IH Hx]; [constructor |].
  rewrite fmap_cons. constructor; [assumption |].
  apply Forall_fmap. exact Hx.
Qed.

Lemma orderVolumes_sorted (g : archiveVolumeGroup) :
  Forall (fun f => volumeFits (volumeOf g f)) (Files g) ->
  StronglySorted Z.le (Volumes (orderVolumes g)).
Proof.
  intros Hfit. unfold orderVolumes. cbn [Volumes].
  apply (ascending_fmap snd).
  apply SlicesFacts.SortStableFunc_sorted. apply compareVolume_orders.
  apply Forall_forall. intros iv Hiv.
  apply indexed_lookup in Hiv as (f & Hf & ->).
  rewrite Forall_forall in Hfit. apply Hfit.
  apply list_elem_of_lookup. eauto.
Qed.

Lemma compareTotalSize_orders (groups : list archiveVolumeGroup) :
  SlicesFacts.ordersBy compareTotalSize (fun g => - TotalSize g) groups.
Proof.
  intros a b _ _. unfold compareTotalSize, Slices.Compare.
  destruct (Z.ltb_spec (TotalSize b) (TotalSize a));
    [| destruct (Z.ltb_spec (TotalSize a) (TotalSize b))];
    destruct (Z.ltb_spec (- TotalSize a) (- TotalSize b)); simpl; lia.
Qed.


Lemma allFiles_orderVolumes (groups : list archiveVolumeGroup) :
  allFiles (map orderVolumes groups) ≡ₚ allFiles groups.
Proof.
  unfold allFiles. induction groups as [| g rest IH]; [reflexivity |].
  change (Files (orderVolumes g) ++ concat (Files <$> map orderVolumes rest)
          ≡ₚ Files g ++ concat (Files <$> rest)).
  rewrite IH, orderVolumes_Files. reflexivity.
Qed.

Lemma StronglySorted_weaken {A} (R R' : A -> A -> Prop) (l : list A) :
  (forall x y, R x y -> R' x y) -> StronglySorted R l -> StronglySorted R' l.
Proof.
  intros Himpl. induction 1 as [| x l _ IH Hx]; constructor; [assumption |].
  eapply Forall_impl; [exact Hx | auto].
Qed.

(** *** The grouper *)

(** C6, amended.  Whatever order the map of groups is visited in:
    the files of the returned groups are, up to order, the files of the
    input that are archive volumes by their name or by their type (the
    other files are left out); in every group [Volumes] lists the volume
    numbers of [Files], file by file, and is in ascending order, equal
    numbers allowed, as long as the volume numbers are small enough for
    their difference not to overflow; and the groups come in descending
    order of total size, equal sizes allowed. *)
Theorem groupArchiveVolumes_groups_the_archive_volumes
    (files : list file) (result : list archiveVolumeGroup) :
  groupArchiveVolumes files result ->
  allFiles result ≡ₚ filter recognised files
  /\ Forall (fun g => Volumes g
                      = (fun f => getFileVolume f (FileType_ g)) <$> Files g) result
  /\ (Forall (fun f => forall ty, volumeFits (getFileVolume f ty)) files ->
      Forall (fun g => StronglySorted Z.le (Volumes g)) result)
  /\ StronglySorted (fun a b => TotalSize b <= TotalSize a) result.
Proof.
  intros (visited & Hvisited & ->). unfold groupArchiveVolumesIn.
  assert (Hfiles : allFiles visited ≡ₚ filter recognised files).
  { rewrite Hvisited. apply collectGroups_files. }
  assert (Hfrom : forall g,
             g ∈ Slices.SortStableFunc compareTotalSize (map orderVolumes visited) ->
             exists g0, g0 ∈ visited /\ g = orderVolumes g0).
  { intros g Hg.
    rewrite (SlicesFacts.SortStableFunc_Permutation compareTotalSize) in Hg.
    apply list_elem_of_fmap in Hg as (g0 & -> & Hg0). eauto. }
  split; [| split; [| split]].
  - rewrite (SlicesFacts.SortStableFunc_Permutation compareTotalSize).
    rewrite allFiles_orderVolumes. assumption.
  - apply Forall_forall. intros g Hg.
    destruct (Hfrom g Hg) as (g0 & _ & ->). apply orderVolumes_Volumes.
  - intros Hfit. apply Forall_forall. intros g Hg.
    destruct (Hfrom g Hg) as (g0 & Hg0 & ->). apply orderVolumes_sorted.
    apply Forall_forall. intros f Hf. rewrite Forall_forall in Hfit.
    apply Hfit.
    assert (Hin : f ∈ allFiles visited).
    { unfold allFiles. apply list_elem_of_In, in_concat. exists (Files g0).
      split; apply list_elem_of_In; [| assumption].
      apply list_elem_of_fmap. eauto. }
    rewrite Hfiles in Hin. apply list_elem_of_filter in Hin as [_ Hin]. assumption.
  - eapply StronglySorted_weaken;
      [| apply (SlicesFacts.SortStableFunc_sorted compareTotalSize
                  (fun g => - TotalSize g)), compareTotalSize_orders].
    unfold SlicesFacts.ascending. intros a b H. lia.
Qed.

(** *** A release with a part numbered twice and a text file *)

Definition named (filename : string) (size : Z) : file :=
  {| Name := filename; Size := size; typed := None |}.

Definition release : list file :=
  [named "a.part1.rar" 10; named "readme.txt" 5; named "a.part01.rar" 20].

Definition releaseGroup : archiveVolumeGroup :=
  {| BaseName := "a"; Aliased := false; FileType_ := FileTypeRAR;
     Files := [named "a.part1.rar" 10; named "a.part01.rar" 20];
     Volumes := [1; 1]; TotalSize := 30 |}.

(** C6, as stated, fails: of this release the grouper returns one group,
    whose [Volumes] are 1 and 1, not strictly increasing, and whose
    files do not include the text file of the input. *)
Lemma groupArchiveVolumes_repeats_a_volume_and_drops_a_file :
  groupArchiveVolumes release [releaseGroup]
  /\ (forall result, groupArchiveVolumes release result -> result = [releaseGroup])
  /\ Volumes releaseGroup = [1; 1]
  /\ allFiles [releaseGroup] = [named "a.part1.rar" 10; named "a.part01.rar" 20]
  /\ length release = 3%nat.
Proof.
  assert (Hone : map snd (map_to_list (collectGroups release))
                 = [ {| BaseName := "a"; Aliased := false; FileType_ := FileTypeRAR;
                        Files := [named "a.part1.rar" 10; named "a.part01.rar" 20];
                        Volumes := []; TotalSize := 30 |} ])
    by (vm_compute; reflexivity).
  split; [| split; [| repeat split]].
  - eexists. split; [reflexivity |]. rewrite Hone. vm_compute. reflexivity.
  - intros result (visited & Hperm & ->). rewrite Hone in Hperm.
    apply Permutation_singleton_r in Hperm as ->. vm_compute. reflexivity.
Qed.

Lemma groupArchiveVolumes_release_witness :
  allFiles [releaseGroup] ≡ₚ filter recognised release
  /\ Forall (fun g => Volumes g
                      = (fun f => getFileVolume f (FileType_ g)) <$> Files g)
       [releaseGroup]
  /\ Forall (fun g => StronglySorted Z.le (Volumes g)) [releaseGroup]
  /\ StronglySorted (fun a b => TotalSize b <= TotalSize a) [releaseGroup].
Proof.
  destruct (groupArchiveVolumes_groups_the_archive_volumes release [releaseGroup])
    as (Hfiles & Hvolumes & Hsorted & Hsizes).
  - exists (map snd (map_to_list (collectGroups release))).
    split; [reflexivity | vm_compute; reflexivity].
  - split; [exact Hfiles | split; [exact Hvolumes | split; [| exact Hsizes]]].
    apply Hsorted, Forall_forall. intros f Hf ty.
    repeat (apply elem_of_cons in Hf as [-> | Hf]);
      [.. | inversion Hf]; destruct ty; vm_compute; split; congruence.
Defined.

End ArchiveVolumeFacts.

(** ** File Stream: the search against any pool *)

Module SearchSafetyFacts.

Import Pool FileStream.

(** What holds of a result of the search: the index is one of the
    file's, the pool gives this range for it, and the range holds the
    target. *)
Definition sound (pool : fetcher) (s : t) (targetByte : Z) (lo hi : Z)
    (res : outcome * list Z) : Prop :=
  forall r, fst res = Found r ->
    lo <= SegmentIndex r < hi
    /\ getSegmentByteRange pool s (SegmentIndex r) = Go.Ok (ByteRange_ r)
    /\ Contains (ByteRange_ r) targetByte = true
    /\ last (snd res) = Some (SegmentIndex r).

Definition probed (lo hi : Z) (probes : list Z) : Prop :=
  Forall (fun i => lo <= i < hi) probes.

Lemma searchLoop_safe (pool : fetcher) (s : t) (targetByte : Z) (rounds : nat) :
  forall (lo hi : Z) (byteRange : ByteRange) (probes : list Z),
  0 <= lo <= hi -> hi <= Nzb.SegmentCount (file s) ->
  Nzb.SegmentCount (file s) <= Int64.max_int ->
  probed 0 (Nzb.SegmentCount (file s)) probes ->
  let res := searchLoop rounds pool s targetByte
               {| Start := lo; End_ := hi |} byteRange probes in
  sound pool s targetByte lo hi res
  /\ probed 0 (Nzb.SegmentCount (file s)) (snd res).
Proof.
  induction rounds as [| rounds IH]; intros lo hi byteRange probes Hlo Hhi Hmax Hprobes;
    [split; [intros r [=] | assumption] |].
  cbn [searchLoop].
  destruct (negb (Contains byteRange targetByte)); cbn [orb];
    [split; [intros r [=] | assumption] |].
  rewrite SearchFacts.Count_index by lia.
  destruct (Z.leb_spec (hi - lo) 0) as [| Hlen]; [split; [intros r [=] | assumption] |].
  pose proof (SearchFacts.guessIndex_clamped targetByte lo hi byteRange
                ltac:(lia) ltac:(lia)) as Hg.
  set (g := guessIndex targetByte {| Start := lo; End_ := hi |} byteRange) in *.
  assert (Hprobes' : probed 0 (Nzb.SegmentCount (file s)) (probes ++ [g])).
  { apply Forall_app. split; [assumption |]. constructor; [lia | constructor]. }
  destruct (getSegmentByteRange pool s g) as [segmentRange | e] eqn:Hrange;
    [| split; [intros r [=] | assumption]].
  destruct (negb (ContainsRange byteRange segmentRange));
    [split; [intros r [=] | assumption] |].
  destruct (Contains segmentRange targetByte) eqn:Hin.
  { split; [| assumption]. intros r [= <-]. cbn [SegmentIndex ByteRange_ snd].
    split; [assumption |]. split; [assumption |]. split; [assumption |].
    apply last_snoc. }
  cbn [Start End_].
  destruct (targetByte <? Start segmentRange).
  - destruct (IH lo g {| Start := Start byteRange; End_ := Start segmentRange |}
                (probes ++ [g])) as [Hsound Hp]; [lia | lia | lia | assumption |].
    split; [| assumption]. intros r Hr. destruct (Hsound r Hr) as (? & ? & ? & ?).
    split; [lia |]. auto.
  - rewrite (SearchFacts.next_index g hi) by lia.
    destruct (IH (g + 1) hi {| Start := End_ segmentRange; End_ := End_ byteRange |}
                (probes ++ [g])) as [Hsound Hp]; [lia | lia | lia | assumption |].
    split; [| assumption]. intros r Hr. destruct (Hsound r Hr) as (? & ? & ? & ?).
    split; [lia |]. auto.
Qed.

Lemma interpolationSearch_safe (pool : fetcher) (s : t) (targetByte : Z) :
  Nzb.SegmentCount (file s) <= Int64.max_int ->
  sound pool s targetByte 0 (Nzb.SegmentCount (file s))
    (interpolationSearch pool s targetByte)
  /\ probed 0 (Nzb.SegmentCount (file s)) (snd (interpolationSearch pool s targetByte)).
Proof.
  intros Hmax. unfold interpolationSearch.
  pose proof (Zle_0_nat (length (Nzb.Segments (file s)))) as Hnonneg.
  fold (Nzb.SegmentCount (file s)) in Hnonneg.
  destruct (Z.eqb_spec (Nzb.SegmentCount (file s)) 0) as [| Hne];
    [split; [intros r [=] | constructor] |].
  destruct ((targetByte <? 0) || (fileSize s <=? targetByte));
    [split; [intros r [=] | constructor] |].
  pose proof (SearchFacts.estimateSegmentIndex_range s targetByte ltac:(lia)) as He.
  set (e := estimateSegmentIndex s targetByte) in *.
  set (n := Nzb.SegmentCount (file s)) in *.
  assert (Hone : probed 0 n [e]) by (constructor; [lia | constructor]).
  destruct (Z.leb_spec 0 e); [| lia].
  destruct (Z.ltb_spec e n); [| lia].
  cbn [andb].
  destruct (getSegmentByteRange pool s e) as [segmentRange | err] eqn:Hrange.
  - destruct (Contains segmentRange targetByte) eqn:Hin.
    { split; [| assumption]. intros r [= <-]. cbn [SegmentIndex ByteRange_ snd].
      split; [lia |]. split; [assumption |]. split; [assumption | reflexivity]. }
    destruct (targetByte <? Start segmentRange).
    + destruct (searchLoop_safe pool s targetByte (S (Z.to_nat n)) 0 e
                  {| Start := 0; End_ := Start segmentRange |} [e]) as [Hsound Hp];
        [lia | fold n; lia | assumption | assumption |].
      split; [| assumption]. intros r Hr. destruct (Hsound r Hr) as (? & ? & ? & ?).
      split; [lia |]. auto.
    + rewrite (SearchFacts.next_index e n) by lia.
      destruct (searchLoop_safe pool s targetByte (S (Z.to_nat n)) (e + 1) n
                  {| Start := End_ segmentRange; End_ := fileSize s |} [e]) as [Hsound Hp];
        [lia | fold n; lia | assumption | assumption |].
      split; [| assumption]. intros r Hr. destruct (Hsound r Hr) as (? & ? & ? & ?).
      split; [lia |]. auto.
  - apply (searchLoop_safe pool s targetByte (S (Z.to_nat n)) 0 n
             {| Start := 0; End_ := fileSize s |} [e]);
      [lia | fold n; lia | assumption | assumption].
Qed.

(** X1.  Whatever the pool answers (failed fetches, ranges that overlap
    or lie outside the file), the search returns after asking the pool
    at most [SegmentCount + 1] times, and every index it asks for is one
    of the file's segments: [file.Segments[index]] is never out of
    range. *)
Theorem interpolationSearch_asks_only_for_segments_of_the_file
    (pool : fetcher) (s : t) (targetByte : Z) :
  Nzb.SegmentCount (file s) <= Int64.max_int ->
  fst (interpolationSearch pool s targetByte) <> Failed Unfinished
  /\ Z.of_nat (length (snd (interpolationSearch pool s targetByte)))
     <= Nzb.SegmentCount (file s) + 1
  /\ Forall (fun i => 0 <= i < Nzb.SegmentCount (file s))
       (snd (interpolationSearch pool s targetByte)).
Proof.
  intros Hmax.
  destruct (SearchFacts.interpolationSearch_finishes pool s targetByte Hmax) as [Hfin Hlen].
  destruct (interpolationSearch_safe pool s targetByte Hmax) as [_ Hp].
  split; [assumption |]. split; assumption.
Qed.

(** A pool that fails every fetch. *)
Definition deadPool : fetcher := fun _ => Go.Err (Go.Errorf "430 no such article").

Lemma interpolationSearch_deadPool_witness :
  fst (interpolationSearch deadPool SearchFacts.plainStream 1200) <> Failed Unfinished
  /\ Z.of_nat (length (snd (interpolationSearch deadPool SearchFacts.plainStream 1200)))
     <= Nzb.SegmentCount (file SearchFacts.plainStream) + 1
  /\ Forall (fun i => 0 <= i < Nzb.SegmentCount (file SearchFacts.plainStream))
       (snd (interpolationSearch deadPool SearchFacts.plainStream 1200)).
Proof.
  apply (interpolationSearch_asks_only_for_segments_of_the_file
           deadPool SearchFacts.plainStream 1200).
  vm_compute. discriminate.
Defined.

(** X2.  A result of the search is never wrong, whatever the pool
    answers: the index returned is one of the file's segments, the
    range returned is the one the pool gives for that segment, it holds
    the target byte, the target lies in the file, and the segment is
    the last one that was asked for. *)
Theorem interpolationSearch_result_holds_the_target
    (pool : fetcher) (s : t) (targetByte : Z) (r : searchResult) (probes : list Z) :
  Nzb.SegmentCount (file s) <= Int64.max_int ->
  interpolationSearch pool s targetByte = (Found r, probes) ->
  0 <= SegmentIndex r < Nzb.SegmentCount (file s)
  /\ getSegmentByteRange pool s (SegmentIndex r) = Go.Ok (ByteRange_ r)
  /\ Start (ByteRange_ r) <= targetByte < End_ (ByteRange_ r)
  /\ 0 <= targetByte < fileSize s
  /\ last probes = Some (SegmentIndex r).
Proof.
  intros Hmax Hres.
  destruct (interpolationSearch_safe pool s targetByte Hmax) as [Hsound _].
  rewrite Hres in Hsound. destruct (Hsound r eq_refl) as (Hi & Hr & Hc & Hl).
  split; [assumption |]. split; [assumption |].
  unfold Contains in Hc. apply andb_true_iff in Hc as [H1 H2].
  split; [lia |]. split; [| assumption].
  unfold interpolationSearch in Hres.
  destruct (Nzb.SegmentCount (file s) =? 0); [discriminate |].
  destruct (Z.ltb_spec targetByte 0); cbn [orb] in Hres; [discriminate |].
  destruct (Z.leb_spec (fileSize s) targetByte); [discriminate | lia].
Qed.

Lemma interpolationSearch_result_witness :
  0 <= 1 < Nzb.SegmentCount (file SearchFacts.plainStream)
  /\ getSegmentByteRange SearchFacts.plainPool SearchFacts.plainStream 1
     = Go.Ok {| Start := 1000; End_ := 1700 |}
  /\ 1000 <= 1200 < 1700
  /\ 0 <= 1200 < fileSize SearchFacts.plainStream
  /\ last [1] = Some 1.
Proof.
  apply (interpolationSearch_result_holds_the_target
           SearchFacts.plainPool SearchFacts.plainStream 1200
           {| SegmentIndex := 1; ByteRange_ := {| Start := 1000; End_ := 1700 |} |} [1]).
  - vm_compute. discriminate.
  - vm_compute. reflexivity.
Defined.

End SearchSafetyFacts.

(** ** File Stream: the position *)

Module PositionFacts.

Import Pool FileStream.

(** X3.  Every [Seek] leaves the position inside the file and returns it;
    neither the file nor its size changes.  A [Seek] that fails, and one
    that computes the position the stream is at, leave the stream as it
    is, with the Segments Stream it reads from; one that moves the
    position drops that Segments Stream. *)
Theorem Seek_keeps_the_position_inside_the_file (s : t) (offset whence : Z) :
  0 <= position s <= fileSize s ->
  let s' := fst (Seek s offset whence) in
  0 <= position s' <= fileSize s'
  /\ fst (snd (Seek s offset whence)) = position s'
  /\ file s' = file s /\ fileSize s' = fileSize s /\ closed s' = closed s
  /\ (snd (snd (Seek s offset whence)) <> None -> s' = s)
  /\ (position s' = position s -> s' = s)
  /\ (position s' <> position s -> stream s' = None).
Proof.
  intros Hpos. unfold Seek.
  destruct (seekTarget s offset whence) as [newPos |];
    [| simpl; repeat split; solve [lia | congruence]].
  destruct (Z.ltb_spec newPos 0); [simpl; repeat split; solve [lia | congruence] |].
  set (clamped := if fileSize s <? newPos then fileSize s else newPos).
  assert (Hclamped : 0 <= clamped <= fileSize s)
    by (unfold clamped; destruct (Z.ltb_spec (fileSize s) newPos); lia).
  destruct (Z.eqb_spec clamped (position s));
    simpl; repeat split; solve [lia | congruence].
Qed.

Lemma Seek_position_witness :
  let s' := fst (Seek SeekFacts.sampleStream (-10) SeekEnd) in
  0 <= position s' <= fileSize s'
  /\ fst (snd (Seek SeekFacts.sampleStream (-10) SeekEnd)) = position s'
  /\ file s' = file SeekFacts.sampleStream
  /\ fileSize s' = fileSize SeekFacts.sampleStream
  /\ closed s' = closed SeekFacts.sampleStream
  /\ (snd (snd (Seek SeekFacts.sampleStream (-10) SeekEnd)) <> None
      -> s' = SeekFacts.sampleStream)
  /\ (position s' = position SeekFacts.sampleStream -> s' = SeekFacts.sampleStream)
  /\ (position s' <> position SeekFacts.sampleStream -> stream s' = None).
Proof.
  apply (Seek_keeps_the_position_inside_the_file SeekFacts.sampleStream (-10) SeekEnd).
  vm_compute. split; discriminate.
Defined.

End PositionFacts.

(** ** Segments Stream: whatever the workers post *)

Module CollectorFacts.

Import Pool SegmentsStream.

(** The error of a failed result. *)
Definition failure (r : segmentResult) : option Go.error :=
  match fetched r with
  | Go.Err e => Some e
  | Go.Ok _ => None
  end.

Lemma collect_error (totalSegments : nat) (resultCh : list segmentResult) :
  forall (pending : gmap nat SegmentData) (nextIdx received : nat),
  snd (collect totalSegments resultCh pending nextIdx received)
  = head (omap failure (take (totalSegments - received) resultCh)).
Proof.
  induction resultCh as [| r rest IH]; intros pending nextIdx received; simpl.
  - rewrite take_nil. destruct (totalSegments <=? received)%nat; reflexivity.
  - destruct (Nat.leb_spec totalSegments received) as [Hle | Hlt].
    + replace (totalSegments - received)%nat with 0%nat by lia. reflexivity.
    + replace (totalSegments - received)%nat with (S (totalSegments - S received)) by lia.
      cbn [take]. rewrite ArchiveVolumeFacts.omap_cons. unfold failure at 1.
      destruct (fetched r) as [d | e]; [| reflexivity].
      destruct (flush _ _ nextIdx) as [[pending2 nextIdx2] sent].
      specialize (IH pending2 nextIdx2 (S received)).
      destruct (collect totalSegments rest pending2 nextIdx2 (S received)) as [more e].
      simpl in *. assumption.
Qed.

Lemma collect_sent (totalSegments : nat) (resultCh : list segmentResult) :
  forall (known : nat -> SegmentData -> Prop)
         (pending : gmap nat SegmentData) (nextIdx received : nat),
  (forall i d, pending !! i = Some d -> known i d) ->
  forall j d,
  fst (collect totalSegments resultCh pending nextIdx received) !! j = Some d ->
  known (nextIdx + j)%nat d
  \/ exists r, r ∈ resultCh /\ idx r = (nextIdx + j)%nat /\ fetched r = Go.Ok d.
Proof.
  induction resultCh as [| r rest IH]; intros known pending nextIdx received Hpending j d;
    simpl.
  - destruct (totalSegments <=? received)%nat; simpl; rewrite lookup_nil; discriminate.
  - destruct (totalSegments <=? received)%nat; [simpl; rewrite lookup_nil; discriminate |].
    destruct (fetched r) as [d0 | e] eqn:Hr; [| simpl; rewrite lookup_nil; discriminate].
    destruct (SegmentsStreamFacts.flush_spec (size (<[idx r := d0]> pending))
                (<[idx r := d0]> pending) nextIdx ltac:(lia))
      as (pending2 & sent & Hflush & Hsent & _ & Hrest).
    rewrite Hflush.
    specialize (IH (fun i d => known i d \/ (i = idx r /\ d = d0))
                   pending2 (nextIdx + length sent)%nat (S received)).
    destruct (collect totalSegments rest pending2 (nextIdx + length sent)%nat (S received))
      as [more e].
    cbn [fst] in *. intros Hj.
    assert (Hone : forall i d', <[idx r := d0]> pending !! i = Some d' ->
                     known i d' \/ (i = idx r /\ d' = d0)).
    { intros i d' Hi. destruct (decide (i = idx r)) as [-> | Hne].
      - rewrite lookup_insert_eq in Hi. right. split; congruence.
      - rewrite lookup_insert_ne in Hi by congruence. left. auto. }
    destruct (Nat.lt_ge_cases j (length sent)) as [Hlt | Hge].
    + rewrite lookup_app_l in Hj by assumption.
      rewrite <- (Hsent j Hlt) in Hj.
      destruct (Hone _ _ Hj) as [Hk | [Hi ->]]; [left; assumption |].
      right. exists r. split; [left |]. auto.
    + rewrite lookup_app_r in Hj by assumption.
      destruct (IH ltac:(intros i d' Hi; rewrite Hrest in Hi;
                         destruct (bool_decide _); [discriminate | auto])
                   (j - length sent)%nat d Hj) as [[Hk | [Hi ->]] | (r' & Hin & Hidx & Hok)].
      * left. replace (nextIdx + j)%nat with (nextIdx + length sent + (j - length sent))%nat
          by lia. assumption.
      * right. exists r. split; [left |]. split; [lia | assumption].
      * right. exists r'. split; [right; assumption |]. split; [lia | assumption].
Qed.

(** X4.  Whatever the workers post on the result channel (in any order, with
    failed fetches, with results missing or repeated), the collector
    hands the reader segments in index order without a gap: the data
    at place [j] of [dataChan] is data that was posted for segment [j].
    The error it publishes is the one of the first failed result among
    the first [len(segments)] posted, and there is none when none of
    these failed. *)
Theorem collector_sends_segment_j_at_place_j
    (totalSegments : nat) (resultCh : list segmentResult) :
  (forall j d,
     fst (collect totalSegments resultCh ∅ 0 0) !! j = Some d ->
     exists r, r ∈ resultCh /\ idx r = j /\ fetched r = Go.Ok d)
  /\ snd (collect totalSegments resultCh ∅ 0 0)
     = head (omap failure (take totalSegments resultCh)).
Proof.
  split.
  - intros j d Hj.
    destruct (collect_sent totalSegments resultCh (fun _ _ => False) ∅ 0 0
                ltac:(intros i d' Hi; rewrite lookup_empty in Hi; discriminate) j d Hj)
      as [[] | H].
    exact H.
  - rewrite collect_error. rewrite Nat.sub_0_r. reflexivity.
Qed.

(** *** The reader *)

(** X5.  On a stream that is open and holds no error, a [Read] into a buffer
    of positive length fills the buffer with the next bytes of the
    stream, across segment boundaries; it returns fewer bytes only when
    the stream ends within the buffer, and [EOF] (with no bytes) only
    when no byte is left.  The next [Read] goes on behind the bytes
    returned. *)
Theorem Read_fills_the_buffer_with_the_next_bytes (s : t) (plen : nat) :
  closed s = false -> errChan s = None -> (0 < plen)%nat ->
  let '(s', (bytes, err)) := Read s plen in
  bytes = take plen (SegmentsStreamFacts.remaining s)
  /\ length bytes = Nat.min plen (length (SegmentsStreamFacts.remaining s))
  /\ (err = Some Go.EOF <-> SegmentsStreamFacts.remaining s = [])
  /\ (err = None <-> bytes <> [])
  /\ SegmentsStreamFacts.remaining s' = drop plen (SegmentsStreamFacts.remaining s)
  /\ closed s' = false /\ errChan s' = None.
Proof.
  intros Hopen Herr Hplen.
  destruct (SegmentsStreamFacts.Read_spec s plen Hopen Herr Hplen)
    as (s' & HRead & Hrem & Hopen' & Herr').
  rewrite HRead. split; [reflexivity |]. split; [apply length_take |].
  destruct (SegmentsStreamFacts.remaining s) as [| b rest].
  - rewrite take_nil. repeat split; try assumption; try congruence; intros; congruence.
  - destruct plen as [| plen]; [lia |]. cbn [take].
    repeat split; try assumption; try congruence; intros; congruence.
Qed.

Lemma Read_next_bytes_witness :
  let s := NewSegmentsStream SegmentsStreamFacts.sampleConfig
             SegmentsStreamFacts.sampleSegments SegmentsStreamFacts.sampleArrival in
  let '(s', (bytes, err)) := Read s 3 in
  bytes = take 3 (SegmentsStreamFacts.remaining s)
  /\ length bytes = Nat.min 3 (length (SegmentsStreamFacts.remaining s))
  /\ (err = Some Go.EOF <-> SegmentsStreamFacts.remaining s = [])
  /\ (err = None <-> bytes <> [])
  /\ SegmentsStreamFacts.remaining s' = drop 3 (SegmentsStreamFacts.remaining s)
  /\ closed s' = false /\ errChan s' = None.
Proof.
  apply (Read_fills_the_buffer_with_the_next_bytes
           (NewSegmentsStream SegmentsStreamFacts.sampleConfig
              SegmentsStreamFacts.sampleSegments SegmentsStreamFacts.sampleArrival) 3);
    [reflexivity | reflexivity | lia].
Defined.

(** X6.  [Close] ends every stream, whatever state it is in: it returns no
    error, a second [Close] changes nothing, and every [Read] after it
    returns no bytes and [EOF], also into an empty buffer and also when
    an error was waiting to be read.  Closing an open stream empties
    the data channel. *)
Theorem Close_ends_the_stream (s : t) (plen : nat) :
  snd (Close s) = None
  /\ closed (fst (Close s)) = true
  /\ Close (fst (Close s)) = (fst (Close s), None)
  /\ Read (fst (Close s)) plen = (fst (Close s), ([], Some Go.EOF))
  /\ (closed s = false -> dataChan (fst (Close s)) = []).
Proof.
  unfold Close. destruct (closed s) eqn:Hclosed; cbn [fst snd].
  - rewrite Hclosed. unfold Read. rewrite Hclosed. repeat split. discriminate.
  - repeat split.
Qed.

End CollectorFacts.

(** ** File Stream: reading the file *)

Module FileStreamFacts.

Import Pool FileStream.

(** *** Skipping and filling *)

Lemma in_int64 (z : Z) : 0 <= z <= Int64.max_int -> Int64.in_range z.
Proof. unfold Int64.in_range, Int64.min_int, Int64.max_int. lia. Qed.

(** [CopyN] over a stream that is open, holds no error and has at least
    [n] bytes left skips [n] bytes. *)
Lemma discardLoop_skips (rounds : nat) :
  forall (s : SegmentsStream.t) (remaining written : Z),
  SegmentsStream.closed s = false -> SegmentsStream.errChan s = None ->
  0 <= remaining <= Z.of_nat (length (SegmentsStreamFacts.remaining s)) ->
  0 <= written -> written + remaining <= Int64.max_int ->
  (Z.to_nat remaining < rounds)%nat ->
  exists s',
    Io.discardLoop rounds s remaining written = (s', (written + remaining, None))
    /\ SegmentsStreamFacts.remaining s'
       = drop (Z.to_nat remaining) (SegmentsStreamFacts.remaining s)
    /\ SegmentsStream.closed s' = false /\ SegmentsStream.errChan s' = None.
Proof.
  induction rounds as [| rounds IH];
    intros s remaining written Hopen Herr Hrem Hwritten Hmax Hrounds; [lia |].
  cbn [Io.discardLoop].
  destruct (Z.leb_spec remaining 0) as [Hzero | Hpos].
  { exists s. replace remaining with 0 by lia. rewrite Z.add_0_r.
    split; [reflexivity |]. split; [reflexivity |]. split; assumption. }
  set (plen := Z.to_nat (Z.min Io.discardBuffer remaining)).
  assert (Hplen : (0 < plen)%nat /\ Z.of_nat plen <= remaining)
    by (unfold plen, Io.discardBuffer; lia).
  clearbody plen.
  destruct (SegmentsStreamFacts.Read_spec s plen Hopen Herr ltac:(lia))
    as (s1 & HRead & Hrem1 & Hopen1 & Herr1).
  rewrite HRead.
  assert (Hlen : length (take plen (SegmentsStreamFacts.remaining s)) = plen)
    by (rewrite length_take; lia).
  destruct (SegmentsStreamFacts.remaining s) as [| b rest] eqn:Hbytes;
    [simpl in Hrem; lia |].
  rewrite <- Hbytes in *. rewrite Hlen.
  unfold Int64.add, Int64.sub.
  rewrite (Int64Facts.wrap_in_range (remaining - Z.of_nat plen)) by (apply in_int64; lia).
  rewrite (Int64Facts.wrap_in_range (written + Z.of_nat plen)) by (apply in_int64; lia).
  destruct (IH s1 (remaining - Z.of_nat plen) (written + Z.of_nat plen) Hopen1 Herr1)
    as (s' & Hloop & Hrem' & Hopen' & Herr'); [| lia | lia | lia |].
  { rewrite Hrem1, length_drop. lia. }
  replace (written + Z.of_nat plen + (remaining - Z.of_nat plen))
    with (written + remaining) in Hloop by lia.
  exists s'. split; [assumption |].
  split; [| split; assumption].
  rewrite Hrem', Hrem1, drop_drop. f_equal. lia.
Qed.

Lemma CopyN_skips (s : SegmentsStream.t) (n : Z) :
  SegmentsStream.closed s = false -> SegmentsStream.errChan s = None ->
  0 <= n <= Z.of_nat (length (SegmentsStreamFacts.remaining s)) ->
  n <= Int64.max_int ->
  exists s',
    Io.CopyN s n = (s', (n, None))
    /\ SegmentsStreamFacts.remaining s' = drop (Z.to_nat n) (SegmentsStreamFacts.remaining s)
    /\ SegmentsStream.closed s' = false /\ SegmentsStream.errChan s' = None.
Proof.
  intros Hopen Herr Hn Hmax. unfold Io.CopyN.
  destruct (discardLoop_skips (S (Z.to_nat n)) s n 0 Hopen Herr Hn ltac:(lia) ltac:(lia)
              ltac:(lia)) as (s' & Hloop & Hrest).
  rewrite Hloop. cbn [Z.add]. rewrite Z.eqb_refl. exists s'. split; [reflexivity | assumption].
Qed.

(** [ReadFull] over a stream that is open and holds no error gives the
    next [plen] bytes, or all that is left when the stream is
    shorter. *)
Lemma readAtLeast_reads (plen rounds : nat) :
  forall (s : SegmentsStream.t) (out : list Byte.byte),
  SegmentsStream.closed s = false -> SegmentsStream.errChan s = None ->
  (plen <= rounds + length out)%nat ->
  exists s',
    Io.readAtLeast rounds s plen out
    = (s', (out ++ take (plen - length out) (SegmentsStreamFacts.remaining s),
            if (plen <=? length out + length (SegmentsStreamFacts.remaining s))%nat
            then None else Some Go.EOF)).
Proof.
  induction rounds as [| rounds IH]; intros s out Hopen Herr Hrounds.
  - cbn [Io.readAtLeast]. destruct (Nat.leb_spec plen (length out)); [| lia].
    exists s. replace (plen - length out)%nat with 0%nat by lia.
    rewrite take_0, app_nil_r.
    destruct (Nat.leb_spec plen (length out + length (SegmentsStreamFacts.remaining s)));
      [reflexivity | lia].
  - cbn [Io.readAtLeast]. destruct (Nat.leb_spec plen (length out)) as [Hfull | Hmore].
    { exists s. replace (plen - length out)%nat with 0%nat by lia.
      rewrite take_0, app_nil_r.
      destruct (Nat.leb_spec plen (length out + length (SegmentsStreamFacts.remaining s)));
        [reflexivity | lia]. }
    destruct (SegmentsStreamFacts.Read_spec s (plen - length out) Hopen Herr ltac:(lia))
      as (s1 & HRead & Hrem1 & Hopen1 & Herr1).
    rewrite HRead.
    destruct (SegmentsStreamFacts.remaining s) as [| b rest] eqn:Hbytes.
    { exists s1. rewrite take_nil. simpl length. rewrite Nat.add_0_r.
      destruct (Nat.leb_spec plen (length out)); [lia | reflexivity]. }
    rewrite <- Hbytes in *.
    assert (Hsome : (0 < length (SegmentsStreamFacts.remaining s))%nat)
      by (rewrite Hbytes; simpl; lia).
    destruct (IH s1 (out ++ take (plen - length out) (SegmentsStreamFacts.remaining s))
                Hopen1 Herr1) as (s' & Hloop).
    { rewrite length_app, length_take. lia. }
    exists s'. rewrite Hloop. rewrite Hrem1.
    rewrite !length_app, !length_take, !length_drop.
    f_equal. f_equal.
    + rewrite <- app_assoc. f_equal.
      destruct (Nat.le_gt_cases (plen - length out)
                  (length (SegmentsStreamFacts.remaining s))) as [Hle | Hgt].
      * replace (plen - (length out + Nat.min (plen - length out)
                           (length (SegmentsStreamFacts.remaining s))))%nat
          with 0%nat by lia.
        rewrite take_0, app_nil_r. reflexivity.
      * rewrite (drop_ge (SegmentsStreamFacts.remaining s)) by lia.
        rewrite take_nil, app_nil_r. reflexivity.
    + destruct (Nat.leb_spec plen (length out + length (SegmentsStreamFacts.remaining s)));
        destruct (Nat.leb_spec plen
                    (length out + Nat.min (plen - length out)
                                    (length (SegmentsStreamFacts.remaining s))
                     + (length (SegmentsStreamFacts.remaining s) - (plen - length out))));
        first [reflexivity | lia].
Qed.

Lemma ReadFull_reads (s : SegmentsStream.t) (plen : nat) :
  SegmentsStream.closed s = false -> SegmentsStream.errChan s = None ->
  snd (Io.ReadFull s plen)
  = (take plen (SegmentsStreamFacts.remaining s),
     if (plen <=? length (SegmentsStreamFacts.remaining s))%nat then None
     else match SegmentsStreamFacts.remaining s with
          | [] => Some Go.EOF
          | _ :: _ => Some Io.ErrUnexpectedEOF
          end).
Proof.
  intros Hopen Herr. unfold Io.ReadFull.
  destruct (readAtLeast_reads plen plen s [] Hopen Herr ltac:(lia)) as (s' & Hloop).
  rewrite Hloop. cbn [snd app length Nat.add]. rewrite Nat.sub_0_r. f_equal.
  rewrite length_take.
  destruct (Nat.leb_spec plen (length (SegmentsStreamFacts.remaining s))) as [Hle | Hgt].
  - rewrite Nat.min_l by lia. rewrite Nat.leb_refl. reflexivity.
  - rewrite Nat.min_r by lia.
    destruct (Nat.leb_spec plen (length (SegmentsStreamFacts.remaining s))); [lia |].
    destruct (SegmentsStreamFacts.remaining s); reflexivity.
Qed.

(** *** A file as it is posted *)

Lemma nth_error_lookup {A} (l : list A) (i : nat) : nth_error l i = l !! i.
Proof. revert i. induction l as [| a l IH]; intros [| i]; simpl; auto. Qed.

(** Where segment [i] starts in the file: the length of the bodies in
    front of it. *)
Definition offsetOf (datas : list SegmentData) (i : nat) : Z :=
  Z.of_nat (length (concat (Body <$> take i datas))).

(** The pool holds the file [f] with the bytes [content]: every segment
    can be fetched, the bodies in segment order make up [content], and
    every segment says where its body lies in the file and how long the
    file is. *)
Definition holds (pool : fetcher) (f : Nzb.File) (content : list Byte.byte) : Prop :=
  exists datas,
    Forall2 (fun seg d => pool seg = Go.Ok d) (Nzb.Segments f) datas
    /\ concat (Body <$> datas) = content
    /\ (forall i d, datas !! i = Some d ->
          Range d = {| Start := offsetOf datas i;
                       End_ := offsetOf datas i + Z.of_nat (length (Body d)) |}
          /\ FileSize d = Z.of_nat (length content))
    /\ Z.of_nat (length content) <= Int64.max_int
    /\ Nzb.SegmentCount f <= Int64.max_int.

Lemma offsetOf_S (datas : list SegmentData) (i : nat) (d : SegmentData) :
  datas !! i = Some d ->
  offsetOf datas (S i) = offsetOf datas i + Z.of_nat (length (Body d)).
Proof.
  intros Hd. unfold offsetOf. rewrite (take_S_r _ _ _ Hd), fmap_app, concat_app, length_app.
  simpl. rewrite app_nil_r. lia.
Qed.

Lemma concat_take_mono {A} (l : list (list A)) :
  forall i j : nat, (i <= j)%nat ->
  (length (concat (take i l)) <= length (concat (take j l)))%nat.
Proof.
  induction l as [| x l IH]; intros [| i] [| j] Hij; simpl; rewrite ?length_app; try lia.
  specialize (IH i j ltac:(lia)). lia.
Qed.

Lemma offsetOf_mono (datas : list SegmentData) (i j : nat) :
  (i <= j)%nat -> offsetOf datas i <= offsetOf datas j.
Proof.
  intros Hij. unfold offsetOf. rewrite !fmap_take.
  pose proof (concat_take_mono (Body <$> datas) i j Hij). lia.
Qed.

Lemma offsetOf_all (datas : list SegmentData) (i : nat) :
  (length datas <= i)%nat ->
  offsetOf datas i = Z.of_nat (length (concat (Body <$> datas))).
Proof. intros Hi. unfold offsetOf. rewrite take_ge by assumption. reflexivity. Qed.

Lemma drop_content (datas : list SegmentData) (i : nat) :
  concat (Body <$> drop i datas)
  = drop (Z.to_nat (offsetOf datas i)) (concat (Body <$> datas)).
Proof.
  unfold offsetOf. rewrite Nat2Z.id.
  rewrite <- (take_drop i datas) at 3. rewrite fmap_app, concat_app.
  symmetry. apply drop_app_length.
Qed.

(** *** The calls of a reader *)

Inductive call :=
  | CallSeek (offset whence : Z)
  | CallRead (plen : nat)
  | CallReadAt (plen : nat) (off : Z).

(** The answer to a call; [Undetermined] is that of a [ReadAt] inside
    the file on a closed File Stream. *)
Inductive answer :=
  | Position (pos : Z) (err : option seekError)
  | Bytes (bytes : list Byte.byte) (err : option Go.error)
  | Undetermined.

(** The bytes of the file from [off] on, [plen] at most. *)
Definition bytesAt (content : list Byte.byte) (off : Z) (plen : nat) : list Byte.byte :=
  take plen (drop (Z.to_nat off) content).

(** What a reader of [content] expects of the answers, the stream being
    at [pos]: [Seek] tells the position the stream is at from then on,
    [Read] gives the bytes at the position and moves it behind them
    ([EOF] and no bytes at the end of the file), and [ReadAt] gives the
    bytes at its offset ([EOF] outside the file, [ErrUnexpectedEOF] when
    the file ends inside the buffer) and leaves the position alone. *)
Fixpoint expected (content : list Byte.byte) (pos : Z) (trace : list (call * answer))
    : Prop :=
  match trace with
  | [] => True
  | (CallSeek _ _, Position pos' _) :: rest =>
      0 <= pos' <= Z.of_nat (length content) /\ expected content pos' rest
  | (CallRead plen, Bytes bytes err) :: rest =>
      bytes = bytesAt content pos plen
      /\ err = (if Z.of_nat (length content) <=? pos then Some Go.EOF else None)
      /\ expected content (pos + Z.of_nat (length bytes)) rest
  | (CallReadAt plen off, Bytes bytes err) :: rest =>
      (if (off <? 0) || (Z.of_nat (length content) <=? off)
       then bytes = [] /\ err = Some Go.EOF
       else bytes = bytesAt content off plen
            /\ err = if (plen <=? length bytes)%nat then None
                     else Some Io.ErrUnexpectedEOF)
      /\ expected content pos rest
  | _ => False
  end.

Section Posted.

Variable cfg : Config.
Variable pool : fetcher.
Variable arrival : list Nzb.Segment -> list SegmentsStream.segmentResult.
Variable f : Nzb.File.
Variable content : list Byte.byte.

Hypothesis Hholds : holds pool f content.
Hypothesis Harrival : forall segs, SegmentsStream.deliveryOrder pool segs (arrival segs).

(** The calls made one after the other, each with its answer. *)
Fixpoint calls (s : t) (cs : list call) : list (call * answer) :=
  match cs with
  | [] => []
  | CallSeek offset whence :: rest =>
      let '(s1, (pos, err)) := Seek s offset whence in
      (CallSeek offset whence, Position pos err) :: calls s1 rest
  | CallRead plen :: rest =>
      let '(s1, (bytes, err)) := FileStreamIO.Read cfg pool arrival s plen in
      (CallRead plen, Bytes bytes err) :: calls s1 rest
  | CallReadAt plen off :: rest =>
      (CallReadAt plen off,
       match FileStreamIO.ReadAt cfg pool arrival s plen off with
       | Some (bytes, err) => Bytes bytes err
       | None => Undetermined
       end) :: calls s rest
  end.

(** The state of a File Stream over [f] that is open: the position lies
    in the file, and the Segments Stream, when there is one, is about
    to deliver the byte at the position. *)
Definition serves (s : t) : Prop :=
  file s = f /\ fileSize s = Z.of_nat (length content) /\ closed s = false
  /\ 0 <= position s <= fileSize s
  /\ match stream s with
     | None => True
     | Some st =>
         SegmentsStream.closed st = false /\ SegmentsStream.errChan st = None
         /\ SegmentsStreamFacts.remaining st = drop (Z.to_nat (position s)) content
     end.

Lemma NewSegmentsStream_delivers (segs : list Nzb.Segment) (datas : list SegmentData) :
  Forall2 (fun seg d => pool seg = Go.Ok d) segs datas ->
  let st := SegmentsStream.NewSegmentsStream cfg segs (arrival segs) in
  SegmentsStream.closed st = false /\ SegmentsStream.errChan st = None
  /\ SegmentsStreamFacts.remaining st = concat (Body <$> datas).
Proof.
  intros Hdatas. unfold SegmentsStream.NewSegmentsStream.
  destruct (Z.eqb_spec (Z.of_nat (length segs)) 0) as [Hnone | Hsome].
  - destruct segs; [| simpl in Hnone; lia]. inversion Hdatas; subst.
    split; [reflexivity |]. split; reflexivity.
  - rewrite (SegmentsStreamFacts.collect_delivers_in_order pool segs datas _ Hdatas
               (Harrival segs)).
    split; [reflexivity |]. split; reflexivity.
Qed.

Lemma createSegmentsStream_delivers (s : t) (startPos bufferSize : Z) :
  file s = f -> fileSize s = Z.of_nat (length content) ->
  0 <= startPos < fileSize s ->
  exists st,
    FileStreamIO.createSegmentsStream cfg pool arrival s startPos bufferSize = Go.Ok st
    /\ SegmentsStream.closed st = false /\ SegmentsStream.errChan st = None
    /\ SegmentsStreamFacts.remaining st = drop (Z.to_nat startPos) content.
Proof.
  intros Hfile Hsize Hpos.
  destruct Hholds as (datas & Hdatas & Hcontent & Hranges & Hmax & Hcount).
  unfold FileStreamIO.createSegmentsStream. rewrite Hfile.
  destruct (Z.eqb_spec startPos 0) as [-> | Hne].
  { eexists. split; [reflexivity |].
    destruct (NewSegmentsStream_delivers (Nzb.Segments f) datas Hdatas) as (? & ? & Hrem).
    split; [assumption |]. split; [assumption |]. rewrite Hrem, Hcontent. reflexivity. }
  pose proof (Forall2_length _ _ _ Hdatas) as Hlen.
  set (bounds := fun z : Z => offsetOf datas (Z.to_nat z)).
  assert (Hrange : forall i, 0 <= i < Nzb.SegmentCount (file s) ->
            getSegmentByteRange pool s i
            = Go.Ok {| Start := bounds i; End_ := bounds (i + 1) |}).
  { apply SearchFacts.tiles_ranges. rewrite Hfile. intros i Hi.
    destruct (lookup_lt_is_Some_2 (Nzb.Segments f) (Z.to_nat i) ltac:(lia)) as [seg Hseg].
    destruct (Forall2_lookup_l _ _ _ _ _ Hdatas Hseg) as (d & Hd & Hpool).
    exists seg, d. rewrite nth_error_lookup. split; [assumption |]. split; [assumption |].
    destruct (Hranges _ _ Hd) as [-> _]. unfold bounds.
    replace (Z.to_nat (i + 1)) with (S (Z.to_nat i)) by lia.
    rewrite (offsetOf_S _ _ _ Hd). reflexivity. }
  assert (Hfound : SearchFacts.found pool s startPos (Nzb.SegmentCount (file s))
                     (interpolationSearch pool s startPos)).
  { apply (SearchFacts.interpolationSearch_tiled pool s startPos bounds).
    - rewrite Hfile. assumption.
    - intros i j Hij Hj. unfold bounds. apply offsetOf_mono. lia.
    - assumption.
    - reflexivity.
    - unfold bounds. rewrite Hfile, Hsize, <- Hcontent. apply offsetOf_all.
      unfold Nzb.SegmentCount. lia.
    - assumption. }
  destruct Hfound as (i & r & Hres & Hr & Hin & _).
  destruct (SearchSafetyFacts.interpolationSearch_safe pool s startPos
              ltac:(rewrite Hfile; assumption)) as [Hsound _].
  destruct (Hsound _ Hres) as (Hi & _). cbn [SegmentIndex] in Hi.
  rewrite Hres. cbn [SegmentIndex ByteRange_].
  rewrite (Hrange i Hi) in Hr. injection Hr as <-. cbn [Start].
  unfold Contains in Hin. cbn [Start End_] in Hin.
  apply andb_true_iff in Hin as [Hlo Hhi]. apply Z.leb_le in Hlo. apply Z.ltb_lt in Hhi.
  rewrite Hfile in Hi. unfold Nzb.SegmentCount in Hi.
  assert (Hlo0 : 0 <= bounds i) by (unfold bounds, offsetOf; lia).
  assert (Hskip : Int64.sub startPos (bounds i) = startPos - bounds i).
  { unfold Int64.sub. apply Int64Facts.wrap_in_range. apply in_int64. lia. }
  rewrite Hskip.
  assert (Hrest : Forall2 (fun seg d => pool seg = Go.Ok d)
                    (drop (Z.to_nat i) (Nzb.Segments f)) (drop (Z.to_nat i) datas))
    by (apply Forall2_drop; assumption).
  destruct (NewSegmentsStream_delivers _ _ Hrest) as (Hopen & Herr & Hrem).
  rewrite drop_content, Hcontent in Hrem. fold (bounds i) in Hrem.
  destruct (Z.ltb_spec 0 (startPos - bounds i)) as [Hsome | Hnone].
  - destruct (CopyN_skips _ (startPos - bounds i) Hopen Herr) as (st & HCopy & Hrem' & ? & ?).
    { rewrite Hrem, length_drop. lia. }
    { lia. }
    rewrite HCopy. exists st. split; [reflexivity |]. split; [assumption |].
    split; [assumption |]. rewrite Hrem', Hrem, drop_drop. f_equal. lia.
  - eexists. split; [reflexivity |]. split; [assumption |]. split; [assumption |].
    rewrite Hrem. f_equal. lia.
Qed.

(** One [Read] of a Segments Stream that is open and holds no error,
    the empty buffer included. *)
Lemma SegmentsStream_Read_next (st : SegmentsStream.t) (plen : nat) :
  SegmentsStream.closed st = false -> SegmentsStream.errChan st = None ->
  exists st',
    SegmentsStream.Read st plen
    = (st', (take plen (SegmentsStreamFacts.remaining st),
             if (0 <? plen)%nat
             then match SegmentsStreamFacts.remaining st with
                  | [] => Some Go.EOF
                  | _ :: _ => None
                  end
             else None))
    /\ SegmentsStreamFacts.remaining st' = drop plen (SegmentsStreamFacts.remaining st)
    /\ SegmentsStream.closed st' = false /\ SegmentsStream.errChan st' = None.
Proof.
  intros Hopen Herr. destruct plen as [| plen].
  - exists st. unfold SegmentsStream.Read. rewrite Hopen. cbn [Nat.eqb Nat.ltb Nat.leb].
    rewrite take_0, drop_0. split; [reflexivity |]. split; [reflexivity |].
    split; [reflexivity | assumption].
  - apply (SegmentsStreamFacts.Read_spec st (S plen) Hopen Herr). lia.
Qed.

Lemma NewFileStream_serves (bufSize : Z) :
  Nzb.Segments f <> [] ->
  exists s0,
    NewFileStream cfg pool f bufSize = Some (Go.Ok s0)
    /\ serves s0 /\ position s0 = 0 /\ stream s0 = None.
Proof.
  intros Hsegs. destruct Hholds as (datas & Hdatas & Hcontent & Hranges & Hmax & Hcount).
  unfold NewFileStream.
  destruct (Nzb.Segments f) as [| first rest] eqn:Hf; [congruence |].
  inversion Hdatas as [| ? d0 ? ? Hfirst Hrest]; subst. rewrite Hfirst.
  destruct (Hranges 0%nat d0 eq_refl) as [_ Hsize].
  eexists. split; [reflexivity |]. cbn [position stream].
  split; [| split; reflexivity].
  unfold serves. cbn [file fileSize closed position stream].
  split; [reflexivity |]. split; [assumption |]. split; [reflexivity |]. split; [lia | exact I].
Qed.

Lemma Seek_serves (s : t) (offset whence : Z) :
  serves s ->
  serves (fst (Seek s offset whence))
  /\ fst (snd (Seek s offset whence)) = position (fst (Seek s offset whence)).
Proof.
  intros Hs. pose proof Hs as (Hfile & Hsize & Hopen & Hpos & Hstream). unfold Seek.
  destruct (seekTarget s offset whence) as [newPos |]; [| split; [assumption | reflexivity]].
  destruct (Z.ltb_spec newPos 0); [split; [assumption | reflexivity] |].
  set (clamped := if fileSize s <? newPos then fileSize s else newPos).
  assert (Hclamped : 0 <= clamped <= fileSize s)
    by (unfold clamped; destruct (Z.ltb_spec (fileSize s) newPos); lia).
  destruct (Z.eqb_spec clamped (position s)); [split; [assumption | reflexivity] |].
  cbn [fst snd position]. split; [| reflexivity].
  unfold serves. cbn [file fileSize closed position stream].
  split; [assumption |]. split; [assumption |]. split; [assumption |]. split; [lia | exact I].
Qed.

Lemma Read_serves (s : t) (plen : nat) :
  serves s ->
  exists s',
    FileStreamIO.Read cfg pool arrival s plen
    = (s', (bytesAt content (position s) plen,
            if Z.of_nat (length content) <=? position s then Some Go.EOF else None))
    /\ serves s'
    /\ position s' = position s + Z.of_nat (length (bytesAt content (position s) plen)).
Proof.
  intros Hs. pose proof Hs as (Hfile & Hsize & Hopen & Hpos & Hstream).
  pose proof Hholds as (datas & _ & _ & _ & Hmax & _).
  unfold FileStreamIO.Read, bytesAt. rewrite Hopen, Hsize.
  destruct (Z.leb_spec (Z.of_nat (length content)) (position s)) as [Hend | Hin].
  { exists s. rewrite drop_ge by lia. rewrite take_nil. simpl length. rewrite Z.add_0_r.
    split; [reflexivity |]. split; [assumption | reflexivity]. }
  assert (Hst : exists st,
            match stream s with
            | Some stream => Go.Ok stream
            | None => FileStreamIO.createSegmentsStream cfg pool arrival s
                        (position s) (bufferSize s)
            end = Go.Ok st
            /\ SegmentsStream.closed st = false /\ SegmentsStream.errChan st = None
            /\ SegmentsStreamFacts.remaining st = drop (Z.to_nat (position s)) content).
  { destruct (stream s) as [st |].
    - exists st. split; [reflexivity | assumption].
    - apply createSegmentsStream_delivers; [assumption | assumption | lia]. }
  destruct Hst as (st & -> & Hopen1 & Herr1 & Hrem).
  destruct (SegmentsStream_Read_next st plen Hopen1 Herr1) as (st' & -> & Hrem' & Hopen' & Herr').
  rewrite Hrem in *.
  set (bytes := take plen (drop (Z.to_nat (position s)) content)) in *.
  assert (Hbytes : length bytes
                   = Nat.min plen (length content - Z.to_nat (position s)))
    by (unfold bytes; rewrite length_take, length_drop; reflexivity).
  assert (Hadd : Int64.add (position s) (Z.of_nat (length bytes))
                 = position s + Z.of_nat (length bytes)).
  { unfold Int64.add. apply Int64Facts.wrap_in_range. apply in_int64. lia. }
  rewrite Hadd. eexists. split; [| split].
  - f_equal. f_equal.
    destruct (drop (Z.to_nat (position s)) content) eqn:Hdrop;
      [apply (f_equal length) in Hdrop; rewrite length_drop in Hdrop; simpl in Hdrop; lia |].
    destruct (0 <? plen)%nat; reflexivity.
  - unfold serves. cbn [file fileSize closed position stream].
    split; [assumption |]. split; [reflexivity |]. split; [reflexivity |]. split; [lia |].
    split; [assumption |]. split; [assumption |].
    rewrite Hrem', drop_drop.
    destruct (Nat.le_gt_cases plen (length content - Z.to_nat (position s))).
    + f_equal. lia.
    + rewrite !drop_ge by lia. reflexivity.
  - reflexivity.
Qed.

Lemma ReadAt_serves (s : t) (plen : nat) (off : Z) :
  file s = f -> fileSize s = Z.of_nat (length content) -> closed s = false ->
  FileStreamIO.ReadAt cfg pool arrival s plen off
  = Some (if (off <? 0) || (Z.of_nat (length content) <=? off) then ([], Some Go.EOF)
          else (bytesAt content off plen,
                if (plen <=? length (bytesAt content off plen))%nat then None
                else Some Io.ErrUnexpectedEOF)).
Proof.
  intros Hfile Hsize Hlive. unfold FileStreamIO.ReadAt, bytesAt. rewrite Hsize, Hlive.
  destruct (Z.ltb_spec off 0); cbn [orb]; [reflexivity |].
  destruct (Z.leb_spec (Z.of_nat (length content)) off); [reflexivity |].
  destruct (createSegmentsStream_delivers s off
              (Int64.add (Z.of_nat plen) (avgSegmentSize s)) Hfile Hsize ltac:(lia))
    as (st & -> & Hopen & Herr & Hrem).
  rewrite (ReadFull_reads st plen Hopen Herr), Hrem. do 2 f_equal.
  rewrite length_take.
  destruct (drop (Z.to_nat off) content) eqn:Hdrop;
    [apply (f_equal length) in Hdrop; rewrite length_drop in Hdrop; simpl in Hdrop; lia |].
  rewrite <- Hdrop.
  destruct (Nat.leb_spec plen (length (drop (Z.to_nat off) content)));
    destruct (Nat.leb_spec plen (Nat.min plen (length (drop (Z.to_nat off) content))));
    first [reflexivity | lia].
Qed.

Lemma calls_expected (cs : list call) :
  forall s : t, serves s -> expected content (position s) (calls s cs).
Proof.
  induction cs as [| c cs IH]; intros s Hs; [exact I |].
  pose proof Hs as (Hfile & Hsize & Hlive & _ & _).
  destruct c as [offset whence | plen | plen off]; cbn [calls].
  - destruct (Seek_serves s offset whence Hs) as [Hs' Hpos'].
    destruct (Seek s offset whence) as [s1 [pos err]]. cbn [fst snd] in *. subst pos.
    cbn [expected]. split; [| apply IH; assumption].
    destruct Hs' as (_ & Hsize' & _ & Hin & _). lia.
  - destruct (Read_serves s plen Hs) as (s' & -> & Hs' & Hpos').
    cbn [expected]. split; [reflexivity |]. split; [reflexivity |].
    rewrite <- Hpos'. apply IH. assumption.
  - rewrite (ReadAt_serves s plen off Hfile Hsize Hlive).
    destruct ((off <? 0) || (Z.of_nat (length content) <=? off)) eqn:Hout;
      cbn [expected]; rewrite Hout.
    + split; [split; reflexivity | apply IH; assumption].
    + split; [split; reflexivity | apply IH; assumption].
Qed.

End Posted.

(** X7.  A File Stream opened over a posted file serves the bytes of the
    file.  When the pool holds every segment of the file, each segment
    with the place of its body in the file, [NewFileStream] succeeds and
    reports the length of the file as its size; and in every sequence of
    [Seek], [Read] and [ReadAt] calls made on it, whatever the order in
    which workers post their results, every [Read] returns the bytes of
    the file at the position the stream is at (up to the length of the
    buffer, [EOF] at the end of the file) and moves the position behind
    them, every [Seek] returns the position the stream is at from then
    on, and every [ReadAt] returns the bytes at its offset. *)
Theorem FileStream_serves_the_bytes_of_the_file
    (cfg : Config) (pool : fetcher)
    (arrival : list Nzb.Segment -> list SegmentsStream.segmentResult)
    (f : Nzb.File) (content : list Byte.byte) (bufSize : Z) (cs : list call) :
  holds pool f content ->
  (forall segs, SegmentsStream.deliveryOrder pool segs (arrival segs)) ->
  Nzb.Segments f <> [] ->
  exists s0,
    NewFileStream cfg pool f bufSize = Some (Go.Ok s0)
    /\ Size s0 = Z.of_nat (length content)
    /\ expected content 0 (calls cfg pool arrival s0 cs).
Proof.
  intros Hholds Harrival Hsegs.
  destruct (NewFileStream_serves cfg pool f content Hholds bufSize Hsegs)
    as (s0 & Hnew & Hs & Hpos & _).
  exists s0. split; [assumption |]. split; [exact (proj1 (proj2 Hs)) |].
  rewrite <- Hpos. exact (calls_expected cfg pool arrival f content Hholds Harrival cs s0 Hs).
Qed.

(** X8.  [ReadAt] on a File Stream over a posted file that has not been
    closed, whatever its position and whatever the order in which the
    workers post their results: outside the file it returns no bytes and
    [EOF]; inside, it returns the bytes of the file from [off] on, the
    buffer full and no error when the file has that many, and otherwise
    the bytes up to the end of the file with [ErrUnexpectedEOF]. *)
Theorem ReadAt_returns_the_bytes_at_the_offset
    (cfg : Config) (pool : fetcher)
    (arrival : list Nzb.Segment -> list SegmentsStream.segmentResult)
    (content : list Byte.byte) (s : t) (plen : nat) (off : Z) :
  closed s = false ->
  holds pool (file s) content ->
  fileSize s = Z.of_nat (length content) ->
  (forall segs, SegmentsStream.deliveryOrder pool segs (arrival segs)) ->
  FileStreamIO.ReadAt cfg pool arrival s plen off
  = Some (if (off <? 0) || (Z.of_nat (length content) <=? off) then ([], Some Go.EOF)
          else (take plen (drop (Z.to_nat off) content),
                if (Z.of_nat plen <=? Z.of_nat (length content) - off) then None
                else Some Io.ErrUnexpectedEOF)).
Proof.
  intros Hlive Hholds Hsize Harrival.
  rewrite (ReadAt_serves cfg pool arrival (file s) content Hholds Harrival s plen off
             eq_refl Hsize Hlive).
  destruct (Z.ltb_spec off 0); cbn [orb]; [reflexivity |].
  destruct (Z.leb_spec (Z.of_nat (length content)) off); [reflexivity |].
  unfold bytesAt. do 2 f_equal. rewrite length_take, length_drop.
  destruct (Nat.leb_spec plen (Nat.min plen (length content - Z.to_nat off)));
    destruct (Z.leb_spec (Z.of_nat plen) (Z.of_nat (length content) - off));
    first [reflexivity | lia].
Qed.

(** *** A posted file of five bytes *)

Definition postedFile : Nzb.File :=
  SearchFacts.fileOf
    [SearchFacts.segment 1 "1@f"; SearchFacts.segment 2 "2@f"; SearchFacts.segment 3 "3@f"].

Definition part (body : list Byte.byte) (start : Z) : SegmentData :=
  {| Body := body;
     Range := {| Start := start; End_ := start + Z.of_nat (length body) |};
     FileSize := 5; Pool.Size := Z.of_nat (length body) |}.

Definition postedPool : fetcher := fun seg =>
  if String.eqb (Nzb.MessageId seg) "1@f" then Go.Ok (part [Byte.x61; Byte.x62] 0)
  else if String.eqb (Nzb.MessageId seg) "2@f" then Go.Ok (part [Byte.x63] 2)
  else if String.eqb (Nzb.MessageId seg) "3@f" then Go.Ok (part [Byte.x64; Byte.x65] 3)
  else Go.Err (Go.Errorf "430 no such article").

Definition postedContent : list Byte.byte :=
  [Byte.x61; Byte.x62; Byte.x63; Byte.x64; Byte.x65].

Definition postedStream : t :=
  {| file := postedFile; fileSize := 5; avgSegmentSize := 1;
     segmentSizeRatio := F64.div (F64.of_int 5) (F64.of_int 300);
     bufferSize := 1048576; position := 0; stream := None; closed := false |}.

Lemma postedPool_holds : holds postedPool postedFile postedContent.
Proof.
  exists [part [Byte.x61; Byte.x62] 0; part [Byte.x63] 2; part [Byte.x64; Byte.x65] 3].
  split; [repeat constructor |]. split; [reflexivity |].
  split; [| split; vm_compute; discriminate].
  intros [| [| [| i]]] d; simpl; intros [= <-]; split; reflexivity.
Qed.

Lemma posted_deliveryOrder (pool : fetcher) (segs : list Nzb.Segment) :
  SegmentsStream.deliveryOrder pool segs (SegmentsStream.posted pool segs).
Proof. unfold SegmentsStream.deliveryOrder. reflexivity. Qed.

Lemma FileStream_serves_witness :
  exists s0,
    NewFileStream SearchFacts.config postedPool postedFile 0 = Some (Go.Ok s0)
    /\ Size s0 = 5
    /\ expected postedContent 0
         (calls SearchFacts.config postedPool (SegmentsStream.posted postedPool) s0
            [CallRead 2; CallSeek 3 SeekStart; CallRead 4; CallReadAt 3 1; CallRead 1]).
Proof.
  apply (FileStream_serves_the_bytes_of_the_file SearchFacts.config postedPool
           (SegmentsStream.posted postedPool) postedFile postedContent 0).
  - exact postedPool_holds.
  - apply posted_deliveryOrder.
  - discriminate.
Defined.

Lemma ReadAt_witness :
  FileStreamIO.ReadAt SearchFacts.config postedPool (SegmentsStream.posted postedPool)
    postedStream 3 1
  = Some ([Byte.x62; Byte.x63; Byte.x64], None).
Proof.
  apply (ReadAt_returns_the_bytes_at_the_offset SearchFacts.config postedPool
           (SegmentsStream.posted postedPool) postedContent postedStream 3 1).
  - reflexivity.
  - exact postedPool_holds.
  - reflexivity.
  - apply posted_deliveryOrder.
Defined.

(** *** Closing *)

(** X9.  [Close] on a File Stream returns no error and marks the stream
    closed, and closes the Segments Stream an open File Stream reads
    from; a second [Close] changes nothing.  Every [Read] after it
    fails with "file stream is closed" and leaves the stream as it is.
    [Seek] does not look at the mark: it answers on a closed stream as
    on an open one. *)
Theorem Close_makes_every_Read_fail
    (cfg : Config) (pool : fetcher)
    (arrival : list Nzb.Segment -> list SegmentsStream.segmentResult)
    (s : t) (plen : nat) (offset whence : Z) :
  snd (FileStreamIO.Close s) = None
  /\ closed (fst (FileStreamIO.Close s)) = true
  /\ FileStreamIO.Close (fst (FileStreamIO.Close s)) = (fst (FileStreamIO.Close s), None)
  /\ FileStreamIO.Read cfg pool arrival (fst (FileStreamIO.Close s)) plen
     = (fst (FileStreamIO.Close s), ([], Some (Go.Errorf "file stream is closed")))
  /\ (closed s = false ->
      forall st, stream (fst (FileStreamIO.Close s)) = Some st ->
                 SegmentsStream.closed st = true)
  /\ snd (Seek (fst (FileStreamIO.Close s)) offset whence) = snd (Seek s offset whence).
Proof.
  unfold FileStreamIO.Close. destruct (closed s) eqn:Hclosed.
  - cbn [fst snd]. unfold FileStreamIO.Read. rewrite Hclosed.
    repeat split. discriminate.
  - destruct (stream s) as [st0 |] eqn:Hstream.
    + unfold SegmentsStream.Close.
      destruct (SegmentsStream.closed st0) eqn:Hst0; cbn [fst snd closed stream].
      * unfold FileStreamIO.Read. cbn [closed].
        split; [reflexivity |]. split; [reflexivity |]. split; [reflexivity |].
        split; [reflexivity |]. split; [intros _ st [= <-]; assumption |].
        unfold Seek, seekTarget. cbn [position fileSize].
        repeat (destruct (_ =? _)); try reflexivity;
          repeat (destruct (_ <? _)); reflexivity.
      * unfold FileStreamIO.Read. cbn [closed].
        split; [reflexivity |]. split; [reflexivity |]. split; [reflexivity |].
        split; [reflexivity |]. split; [intros _ st [= <-]; reflexivity |].
        unfold Seek, seekTarget. cbn [position fileSize].
        repeat (destruct (_ =? _)); try reflexivity;
          repeat (destruct (_ <? _)); reflexivity.
    + cbn [fst snd closed stream]. unfold FileStreamIO.Read. cbn [closed].
      split; [reflexivity |]. split; [reflexivity |]. split; [reflexivity |].
      split; [reflexivity |]. split; [intros _ st [=] |].
      unfold Seek, seekTarget. cbn [position fileSize].
      repeat (destruct (_ =? _)); try reflexivity;
        repeat (destruct (_ <? _)); reflexivity.
Qed.

End FileStreamFacts.

(** ** Archive Volume Grouper: the groups *)

Module GroupFacts.

Import Text FileTypes ArchiveVolume.

(** The key of the map entry a file goes to, and the key of a group. *)
Definition keyOf (f : file) : option string :=
  match groupOf f with
  | Some (baseName, fileType, _) => Some (groupKey baseName fileType)
  | None => None
  end.

Definition keyOfGroup (g : archiveVolumeGroup) : string :=
  groupKey (BaseName g) (FileType_ g).

(** The files with the key [k], in the order of the input. *)
Definition withKey (k : string) (files : list file) : list file :=
  filter (fun f => keyOf f = Some k) files.

Definition total (sizes : list Z) : Z := foldr Z.add 0 sizes.

Lemma total_app (l k : list Z) : total (l ++ k) = total l + total k.
Proof. unfold total. induction l as [| x l IH]; simpl; lia. Qed.

Lemma total_Permutation (l k : list Z) : l ≡ₚ k -> total l = total k.
Proof. unfold total. induction 1; simpl; lia. Qed.

Lemma wrap_add (a b : Z) : Int64.add (Int64.wrap a) b = Int64.wrap (a + b).
Proof.
  unfold Int64.add, Int64.wrap. f_equal.
  replace ((a + 2 ^ 63) mod 2 ^ 64 - 2 ^ 63 + b + 2 ^ 63)
    with ((a + 2 ^ 63) mod 2 ^ 64 + b) by lia.
  rewrite Zplus_mod_idemp_l. f_equal. lia.
Qed.

(** What holds of the map after the first loop has gone through
    [seen]. *)
Definition collected (seen : list file) (m : gmap string archiveVolumeGroup) : Prop :=
  (forall k g, m !! k = Some g ->
     keyOfGroup g = k /\ Files g = withKey k seen /\ Files g <> []
     /\ (Forall (fun f => Int64.in_range (Size f)) seen ->
         TotalSize g = Int64.wrap (total (Size <$> Files g))))
  /\ (forall f k, f ∈ seen -> keyOf f = Some k -> is_Some (m !! k)).

Lemma withKey_snoc (k : string) (seen : list file) (f : file) :
  withKey k (seen ++ [f])
  = withKey k seen ++ (if decide (keyOf f = Some k) then [f] else []).
Proof.
  unfold withKey. rewrite filter_app. reflexivity.
Qed.

Lemma withKey_none (k : string) (seen : list file) :
  (forall f, f ∈ seen -> keyOf f <> Some k) -> withKey k seen = [].
Proof.
  induction seen as [| f seen IH]; intros Hnone; [reflexivity |].
  unfold withKey. rewrite filter_cons.
  destruct (decide (keyOf f = Some k)) as [Hk | _].
  - exfalso. apply (Hnone f); [left | assumption].
  - apply IH. intros f' Hin. apply Hnone. right. assumption.
Qed.

Lemma addFile_collected (seen : list file) (m : gmap string archiveVolumeGroup) (f : file) :
  collected seen m -> collected (seen ++ [f]) (addFile m f).
Proof.
  intros [Hgroups Hseen]. unfold addFile.
  pose proof (eq_refl : keyOf f = keyOf f) as Hkey. unfold keyOf at 2 in Hkey.
  destruct (groupOf f) as [[[baseName fileType] aliased] |] eqn:Hgroup.
  - set (k0 := groupKey baseName fileType) in *.
    destruct (m !! k0) as [g0 |] eqn:Hm.
    + destruct (Hgroups k0 g0 Hm) as (Hk0 & Hfiles0 & Hne0 & Htotal0).
      split.
      * intros k g. destruct (decide (k = k0)) as [-> | Hne].
        -- rewrite lookup_insert_eq. intros [= <-].
           cbn [Files TotalSize]. unfold keyOfGroup. cbn [BaseName FileType_].
           split; [exact Hk0 |]. rewrite withKey_snoc, decide_True by assumption.
           split; [rewrite Hfiles0; reflexivity |].
           split; [destruct (Files g0); discriminate |].
           intros Hsizes. apply Forall_app in Hsizes as [Hsizes _].
           rewrite (Htotal0 Hsizes), wrap_add, fmap_app, total_app.
           unfold total at 3. simpl. do 2 f_equal. lia.
        -- rewrite lookup_insert_ne by congruence. intros Hg.
           destruct (Hgroups k g Hg) as (Hk & Hfiles & Hne' & Htotal).
           split; [assumption |]. rewrite withKey_snoc, decide_False by congruence.
           rewrite app_nil_r. split; [assumption |]. split; [assumption |].
           intros Hsizes. apply Forall_app in Hsizes as [Hsizes _]. auto.
      * intros f' k Hin Hk. apply elem_of_app in Hin as [Hin | Hin].
        -- destruct (decide (k = k0)) as [-> | Hne];
             [rewrite lookup_insert_eq; eauto |].
           rewrite lookup_insert_ne by congruence. eauto.
        -- apply list_elem_of_singleton in Hin as ->.
           assert (k = k0) as -> by congruence. rewrite lookup_insert_eq. eauto.
    + split.
      * intros k g. destruct (decide (k = k0)) as [-> | Hne].
        -- rewrite lookup_insert_eq. intros [= <-].
           cbn [Files TotalSize]. unfold keyOfGroup. cbn [BaseName FileType_].
           split; [reflexivity |]. rewrite withKey_snoc, decide_True by assumption.
           assert (Hnone : withKey k0 seen = []).
           { apply withKey_none. intros f' Hin Hk.
             destruct (Hseen f' k0 Hin Hk) as [g Hg]. congruence. }
           rewrite Hnone. split; [reflexivity |]. split; [discriminate |].
           intros Hsizes. apply Forall_app in Hsizes as [_ Hsizes].
           rewrite Forall_singleton in Hsizes. unfold total. simpl. rewrite Z.add_0_r.
           symmetry. apply Int64Facts.wrap_in_range. assumption.
        -- rewrite lookup_insert_ne by congruence. intros Hg.
           destruct (Hgroups k g Hg) as (Hk & Hfiles & Hne' & Htotal).
           split; [assumption |]. rewrite withKey_snoc, decide_False by congruence.
           rewrite app_nil_r. split; [assumption |]. split; [assumption |].
           intros Hsizes. apply Forall_app in Hsizes as [Hsizes _]. auto.
      * intros f' k Hin Hk. apply elem_of_app in Hin as [Hin | Hin].
        -- destruct (decide (k = k0)) as [-> | Hne];
             [rewrite lookup_insert_eq; eauto |].
           rewrite lookup_insert_ne by congruence. eauto.
        -- apply list_elem_of_singleton in Hin as ->.
           assert (k = k0) as -> by congruence. rewrite lookup_insert_eq. eauto.
  - split.
    + intros k g Hg. destruct (Hgroups k g Hg) as (Hk & Hfiles & Hne' & Htotal).
      split; [assumption |]. rewrite withKey_snoc, decide_False by congruence.
      rewrite app_nil_r. split; [assumption |]. split; [assumption |].
      intros Hsizes. apply Forall_app in Hsizes as [Hsizes _]. auto.
    + intros f' k Hin Hk. apply elem_of_app in Hin as [Hin | Hin]; [eauto |].
      apply list_elem_of_singleton in Hin as ->. congruence.
Qed.

Lemma collectGroups_collected (files : list file) : collected files (collectGroups files).
Proof.
  unfold collectGroups.
  enough (H : forall seen m, collected seen m ->
                collected (seen ++ files) (fold_left addFile files m)).
  { apply (H [] ∅). split.
    - intros k g Hg. rewrite lookup_empty in Hg. discriminate.
    - intros f k Hin. inversion Hin. }
  induction files as [| f files IH]; intros seen m Hm; simpl.
  - rewrite app_nil_r. assumption.
  - replace (seen ++ f :: files) with ((seen ++ [f]) ++ files)
      by (rewrite <- app_assoc; reflexivity).
    apply IH. apply addFile_collected. assumption.
Qed.

Lemma map_agree {A B} (g h : A -> B) (l : list A) :
  (forall x, x ∈ l -> g x = h x) -> map g l = map h l.
Proof.
  induction l as [| a l IH]; intros Hagree; [reflexivity |]. simpl.
  rewrite (Hagree a) by left. rewrite IH; [reflexivity |].
  intros x Hx. apply Hagree. right. assumption.
Qed.

(** X10.  The grouper partitions the archive volumes by their key: the files
    of every group returned are, up to their order, the input files
    whose key [<base name>:<type>] is the one of the group, so no group
    is empty, no file of an archive is in the group of another, and no
    two groups have the same key.  [TotalSize] is the sum of the sizes
    of the files of the group, in [int64]. *)
Theorem groupArchiveVolumes_partitions_by_key
    (files : list file) (result : list archiveVolumeGroup) :
  groupArchiveVolumes files result ->
  Forall (fun g => Files g ≡ₚ withKey (keyOfGroup g) files /\ Files g <> []) result
  /\ NoDup (map keyOfGroup result)
  /\ (Forall (fun f => Int64.in_range (Size f)) files ->
      Forall (fun g => TotalSize g = Int64.wrap (total (map Size (Files g)))) result).
Proof.
  intros (visited & Hvisited & ->). unfold groupArchiveVolumesIn.
  destruct (collectGroups_collected files) as [Hgroups _].
  set (m := collectGroups files) in *.
  assert (Hresult : Slices.SortStableFunc compareTotalSize (map orderVolumes visited)
                    ≡ₚ map orderVolumes (map snd (map_to_list m))).
  { rewrite SlicesFacts.SortStableFunc_Permutation.
    apply Permutation_map. assumption. }
  assert (Hgroup : forall g', g' ∈ map orderVolumes (map snd (map_to_list m)) ->
            exists k g, m !! k = Some g /\ g' = orderVolumes g).
  { intros g' Hin. apply list_elem_of_In, in_map_iff in Hin as (g & <- & Hin).
    apply in_map_iff in Hin as ([k g0] & <- & Hin).
    apply list_elem_of_In, elem_of_map_to_list in Hin. exists k, g0. split; [assumption |].
    reflexivity. }
  split; [| split].
  - rewrite Hresult. apply Forall_forall. intros g' Hin.
    destruct (Hgroup g' Hin) as (k & g & Hm & ->).
    destruct (Hgroups k g Hm) as (Hk & Hfiles & Hne & _).
    change (keyOfGroup (orderVolumes g)) with (keyOfGroup g). rewrite Hk, <- Hfiles.
    split; [apply ArchiveVolumeFacts.orderVolumes_Files |].
    intros Hnil. apply Hne.
    pose proof (ArchiveVolumeFacts.orderVolumes_Files g) as Hp.
    rewrite Hnil in Hp. symmetry in Hp. apply Permutation_nil_r in Hp. assumption.
  - rewrite Hresult. rewrite !map_map.
    rewrite (map_agree (fun x => keyOfGroup (orderVolumes (snd x))) fst).
    + apply (NoDup_fst_map_to_list m).
    + intros [k g] Hin. apply elem_of_map_to_list in Hin.
      destruct (Hgroups k g Hin) as (Hk & _). exact Hk.
  - intros Hsizes. rewrite Hresult. apply Forall_forall. intros g' Hin.
    destruct (Hgroup g' Hin) as (k & g & Hm & ->).
    destruct (Hgroups k g Hm) as (_ & _ & _ & Htotal).
    change (TotalSize (orderVolumes g)) with (TotalSize g). rewrite (Htotal Hsizes).
    f_equal. apply total_Permutation. apply Permutation_map. symmetry.
    apply ArchiveVolumeFacts.orderVolumes_Files.
Qed.

(** A release of two archives and a text file. *)
Definition shipment : list file :=
  [ ArchiveVolumeFacts.named "b.7z.002" 7; ArchiveVolumeFacts.named "a.part02.rar" 20;
    ArchiveVolumeFacts.named "notes.nfo" 1; ArchiveVolumeFacts.named "a.part01.rar" 10;
    ArchiveVolumeFacts.named "b.7z.001" 5 ].

Definition shipmentGroups : list archiveVolumeGroup :=
  [ {| BaseName := "a"; Aliased := false; FileType_ := FileTypeRAR;
       Files := [ArchiveVolumeFacts.named "a.part01.rar" 10;
                 ArchiveVolumeFacts.named "a.part02.rar" 20];
       Volumes := [1; 2]; TotalSize := 30 |};
    {| BaseName := "b"; Aliased := false; FileType_ := FileType7z;
       Files := [ArchiveVolumeFacts.named "b.7z.001" 5;
                 ArchiveVolumeFacts.named "b.7z.002" 7];
       Volumes := [1; 2]; TotalSize := 12 |} ].

Lemma groupArchiveVolumes_shipment_witness :
  Forall (fun g => Files g ≡ₚ withKey (keyOfGroup g) shipment /\ Files g <> [])
    shipmentGroups
  /\ NoDup (map keyOfGroup shipmentGroups)
  /\ (Forall (fun f => Int64.in_range (Size f)) shipment ->
      Forall (fun g => TotalSize g = Int64.wrap (total (map Size (Files g))))
        shipmentGroups).
Proof.
  apply (groupArchiveVolumes_partitions_by_key shipment shipmentGroups).
  exists (map snd (map_to_list (collectGroups shipment))).
  split; [reflexivity | vm_compute; reflexivity].
Defined.

End GroupFacts.

(** ** Stable sorting: the first element *)

Module SortHeadFacts.

Import Slices.

Section Head.

Context {A : Type}.
Variable cmp : A -> A -> Z.
Variable key : A -> Z.

(** [x] is the first of the elements of [l] with the least key. *)
Definition firstLeast (x : A) (l : list A) : Prop :=
  exists before after,
    l = before ++ x :: after
    /\ Forall (fun y => key x < key y) before
    /\ Forall (fun y => key x <= key y) after.

Lemma sink_last (z x : A) (sortedRev : list A) :
  SlicesFacts.ordersBy cmp key (z :: sortedRev) ->
  StronglySorted (SlicesFacts.descending key) sortedRev ->
  last sortedRev = Some x ->
  last (sink cmp z sortedRev) = Some (if key z <? key x then z else x).
Proof.
  intros Horders Hsorted. revert x.
  induction sortedRev as [| y rest IH]; intros x Hlast; [discriminate |].
  assert (Hzy : (cmp z y <? 0) = (key z <? key y))
    by (apply Horders; [left | right; left]).
  inversion Hsorted as [| ? ? Hrest Hall]; subst.
  cbn [sink]. rewrite Hzy.
  destruct rest as [| y' rest'].
  - injection Hlast as <-. cbn [sink]. destruct (key z <? key y); reflexivity.
  - change (last (y :: y' :: rest')) with (last (y' :: rest')) in Hlast.
    assert (Hxy : key x <= key y).
    { apply last_Some_elem_of in Hlast.
      rewrite Forall_forall in Hall. apply (Hall x). assumption. }
    destruct (Z.ltb_spec (key z) (key y)) as [Hlt | Hge].
    + assert (Hne : sink cmp z (y' :: rest') <> []).
      { cbn [sink]. destruct (cmp z y' <? 0); discriminate. }
      destruct (sink cmp z (y' :: rest')) as [| a l] eqn:Hsink; [congruence |].
      change (last (y :: a :: l)) with (last (a :: l)).
      apply IH; [| assumption | assumption].
      intros u v Hu Hv. apply Horders.
      * apply elem_of_cons in Hu as [-> | Hu]; [left | right; right; assumption].
      * apply elem_of_cons in Hv as [-> | Hv]; [left | right; right; assumption].
    + change (last (z :: y :: y' :: rest')) with (last (y' :: rest')).
      rewrite Hlast. destruct (Z.ltb_spec (key z) (key x)); [lia | reflexivity].
Qed.

Lemma sink_all_first (l : list A) :
  forall (seen sortedRev : list A) (x : A),
  SlicesFacts.ordersBy cmp key (seen ++ l) ->
  sortedRev ≡ₚ seen ->
  StronglySorted (SlicesFacts.descending key) sortedRev ->
  last sortedRev = Some x -> firstLeast x seen ->
  exists x',
    last (fold_left (fun acc z => sink cmp z acc) l sortedRev) = Some x'
    /\ firstLeast x' (seen ++ l).
Proof.
  induction l as [| z l IH]; intros seen sortedRev x Horders Hperm Hsorted Hlast Hfirst.
  - exists x. rewrite app_nil_r. split; assumption.
  - cbn [fold_left].
    assert (Horders' : SlicesFacts.ordersBy cmp key (z :: sortedRev)).
    { intros u v Hu Hv. apply Horders.
      - apply elem_of_cons in Hu as [-> | Hu];
          [apply elem_of_app; right; left | apply elem_of_app; left; rewrite <- Hperm; assumption].
      - apply elem_of_cons in Hv as [-> | Hv];
          [apply elem_of_app; right; left | apply elem_of_app; left; rewrite <- Hperm; assumption]. }
    replace (seen ++ z :: l) with ((seen ++ [z]) ++ l) in *
      by (rewrite <- app_assoc; reflexivity).
    apply (IH (seen ++ [z]) (sink cmp z sortedRev) (if key z <? key x then z else x)).
    + assumption.
    + rewrite SlicesFacts.sink_Permutation, Hperm. apply Permutation_cons_append.
    + apply (SlicesFacts.sink_sorted cmp key); assumption.
    + apply sink_last; assumption.
    + destruct Hfirst as (before & after & -> & Hbefore & Hafter).
      destruct (Z.ltb_spec (key z) (key x)) as [Hlt | Hge].
      * exists (before ++ x :: after), []. split; [reflexivity |]. split; [| constructor].
        apply Forall_app. split; [eapply Forall_impl; [exact Hbefore | simpl; intros; lia] |].
        constructor; [lia |]. eapply Forall_impl; [exact Hafter | simpl; intros; lia].
      * exists before, (after ++ [z]). split; [rewrite <- app_assoc; reflexivity |].
        split; [assumption |]. apply Forall_app. split; [assumption |].
        constructor; [lia | constructor].
Qed.

(** What [slices.SortStableFunc] puts first: nothing when there is
    nothing to sort, and otherwise the first of the elements with the
    least key. *)
Lemma SortStableFunc_head (l : list A) :
  SlicesFacts.ordersBy cmp key l ->
  match SortStableFunc cmp l with
  | [] => l = []
  | x :: _ => firstLeast x l
  end.
Proof.
  intros Horders. unfold SortStableFunc.
  destruct l as [| z l]; [reflexivity |]. cbn [fold_left sink].
  destruct (sink_all_first l [z] [z] z) as (x' & Hlast & Hfirst).
  - exact Horders.
  - reflexivity.
  - repeat constructor.
  - reflexivity.
  - exists [], []. split; [reflexivity |]. split; constructor.
  - set (sortedRev := fold_left _ l [z]) in *.
    destruct (rev sortedRev) as [| x rest] eqn:Hrev.
    + apply (f_equal (@rev A)) in Hrev. rewrite rev_involutive in Hrev.
      rewrite Hrev in Hlast. discriminate.
    + apply (f_equal (@rev A)) in Hrev. rewrite rev_involutive in Hrev. simpl in Hrev.
      rewrite Hrev, last_snoc in Hlast. injection Hlast as ->. exact Hfirst.
Qed.

End Head.

Section Stable.

Context {A : Type}.
Variable cmp : A -> A -> Z.
Variable key : A -> Z.

(** The elements of [l] with the key [k], in their order. *)
Definition keyed (k : Z) (l : list A) : list A :=
  List.filter (fun x => key x =? k) l.

Lemma sink_keyed (k : Z) (x : A) (sortedRev : list A) :
  SlicesFacts.ordersBy cmp key (x :: sortedRev) ->
  keyed k (sink cmp x sortedRev) = keyed k [x] ++ keyed k sortedRev.
Proof.
  induction sortedRev as [| y rest IH]; intros Horders;
    [unfold keyed; cbn [sink List.filter]; rewrite app_nil_r; reflexivity |].
  assert (Hxy : (cmp x y <? 0) = (key x <? key y))
    by (apply Horders; [left | right; left]).
  cbn [sink]. rewrite Hxy.
  destruct (Z.ltb_spec (key x) (key y)) as [Hlt | Hge];
    [| unfold keyed; cbn [List.filter]; destruct (key x =? k); reflexivity].
  unfold keyed in *. cbn [List.filter app] in *. rewrite IH.
  - destruct (Z.eqb_spec (key x) k), (Z.eqb_spec (key y) k);
      first [reflexivity | lia].
  - intros u v Hu Hv. apply Horders.
    + apply elem_of_cons in Hu as [-> | Hu]; [left | right; right; assumption].
    + apply elem_of_cons in Hv as [-> | Hv]; [left | right; right; assumption].
Qed.

Lemma sink_all_keyed (k : Z) (l : list A) :
  forall sortedRev : list A,
  SlicesFacts.ordersBy cmp key (sortedRev ++ l) ->
  keyed k (fold_left (fun acc z => sink cmp z acc) l sortedRev)
  = rev (keyed k l) ++ keyed k sortedRev.
Proof.
  induction l as [| z l IH]; intros sortedRev Horders; [reflexivity |].
  cbn [fold_left]. rewrite IH.
  - rewrite sink_keyed.
    + unfold keyed. cbn [List.filter].
      destruct (key z =? k); cbn [rev app]; rewrite <- ?app_assoc; reflexivity.
    + intros u v Hu Hv. apply Horders.
      * apply elem_of_cons in Hu as [-> | Hu];
          [apply elem_of_app; right; left | apply elem_of_app; left; assumption].
      * apply elem_of_cons in Hv as [-> | Hv];
          [apply elem_of_app; right; left | apply elem_of_app; left; assumption].
  - intros u v Hu Hv. apply Horders.
    + apply elem_of_app in Hu as [Hu | Hu].
      * rewrite SlicesFacts.sink_Permutation in Hu.
        apply elem_of_cons in Hu as [-> | Hu];
          [apply elem_of_app; right; left | apply elem_of_app; left; assumption].
      * apply elem_of_app; right; right; assumption.
    + apply elem_of_app in Hv as [Hv | Hv].
      * rewrite SlicesFacts.sink_Permutation in Hv.
        apply elem_of_cons in Hv as [-> | Hv];
          [apply elem_of_app; right; left | apply elem_of_app; left; assumption].
      * apply elem_of_app; right; right; assumption.
Qed.

(** [slices.SortStableFunc] is stable: the elements of one key keep the
    order they had. *)
Lemma SortStableFunc_stable (k : Z) (l : list A) :
  SlicesFacts.ordersBy cmp key l ->
  keyed k (SortStableFunc cmp l) = keyed k l.
Proof.
  intros Horders. unfold SortStableFunc.
  pose proof (sink_all_keyed k l [] Horders) as Hall.
  unfold keyed in *. rewrite List.filter_rev, Hall.
  cbn [List.filter]. rewrite app_nil_r. apply rev_involutive.
Qed.

End Stable.
End SortHeadFacts.

(** ** RAR archives over an NZB: the first volume *)

Module FirstVolumeFacts.

Import UsenetRar.

Lemma omap_split {A B} (g : A -> option B) (l : list A) :
  forall (before : list B) (x : B) (after : list B),
  omap g l = before ++ x :: after ->
  exists l1 a l2,
    l = l1 ++ a :: l2 /\ g a = Some x /\ omap g l1 = before /\ omap g l2 = after.
Proof.
  induction l as [| a l IH]; intros before x after Hsplit.
  - destruct before; discriminate.
  - rewrite ArchiveVolumeFacts.omap_cons in Hsplit. destruct (g a) as [y |] eqn:Ha.
    + destruct before as [| v before].
      * injection Hsplit as -> Hafter. exists [], a, l.
        split; [reflexivity |]. split; [assumption |]. split; [reflexivity | assumption].
      * injection Hsplit as -> Hrest.
        destruct (IH before x after Hrest) as (l1 & a' & l2 & -> & Ha' & H1 & H2).
        exists (a :: l1), a', l2. split; [reflexivity |]. split; [assumption |].
        split; [| assumption]. rewrite ArchiveVolumeFacts.omap_cons, Ha, H1. reflexivity.
    + destruct (IH before x after Hsplit) as (l1 & a' & l2 & -> & Ha' & H1 & H2).
      exists (a :: l1), a', l2. split; [reflexivity |]. split; [assumption |].
      split; [| assumption]. rewrite ArchiveVolumeFacts.omap_cons, Ha. assumption.
Qed.

(** The volume number of a file of the NZB. *)
Definition volume (f : Nzb.File) : Z := Rar.GetRARVolumeNumber (Nzb.Name f).

Lemma GetRARVolumeNumber_max (filename : string) :
  Rar.GetRARVolumeNumber filename <= Int64.max_int.
Proof.
  unfold Rar.GetRARVolumeNumber.
  destruct (Rar.rarPartNumberRegex filename) as [[? digits] |].
  { unfold Text.Atoi. lia. }
  destruct (Rar.rarRNumberRegex filename) as [[? digits] |].
  { unfold Int64.add. pose proof (Int64Facts.wrap_bounds (Text.Atoi digits + 1)) as H.
    unfold Int64.in_range in H. lia. }
  destruct (Rar.rarFirstPartRegex filename); unfold Int64.max_int; lia.
Qed.

Lemma volumesOf_elem (files : list Nzb.File) (v : archiveVolume) :
  v ∈ volumesOf files ->
  exists f, f ∈ files /\ n v = volume f /\ name v = Nzb.Name f /\ 0 <= volume f.
Proof.
  unfold volumesOf. intros Hv. apply list_elem_of_omap in Hv as (f & Hf & Hv).
  exists f. split; [assumption |]. fold (volume f) in Hv.
  destruct (Z.ltb_spec (volume f) 0); [discriminate |].
  injection Hv as <-. cbn [n name]. split; [reflexivity |]. split; [reflexivity | assumption].
Qed.

Lemma compareN_orders (files : list Nzb.File) :
  SlicesFacts.ordersBy compareN n (volumesOf files).
Proof.
  intros x y Hx Hy. unfold compareN, Int64.sub.
  destruct (volumesOf_elem files x Hx) as (fx & _ & Hnx & _ & Hx0).
  destruct (volumesOf_elem files y Hy) as (fy & _ & Hny & _ & Hy0).
  pose proof (GetRARVolumeNumber_max (Nzb.Name fx)).
  pose proof (GetRARVolumeNumber_max (Nzb.Name fy)).
  unfold volume in *. rewrite Int64Facts.wrap_in_range.
  - destruct (Z.ltb_spec (n x - n y) 0); destruct (Z.ltb_spec (n x) (n y)); first [reflexivity | lia].
  - unfold Int64.in_range, Int64.min_int, Int64.max_int in *. lia.
Qed.

(** X11.  The archive made by [NewUsenetRARArchive] is named after the file
    of the NZB with the lowest RAR volume number, and after the first
    of these in the order of the NZB when several have it: a [.rar]
    (volume 0) goes before every [.partN.rar] with [N >= 1] and every
    [.rNN].  Files whose name has no RAR volume number are passed over,
    and when no file has one the name is empty. *)
Theorem NewUsenetRARArchive_names_the_first_lowest_volume (nzbDoc : Nzb.NZB) :
  (NewUsenetRARArchive nzbDoc = ""
   /\ Forall (fun f => volume f < 0) (Nzb.Files nzbDoc))
  \/ exists before f after,
       Nzb.Files nzbDoc = before ++ f :: after
       /\ NewUsenetRARArchive nzbDoc = Nzb.Name f
       /\ 0 <= volume f
       /\ Forall (fun g => volume g < 0 \/ volume f < volume g) before
       /\ Forall (fun g => volume g < 0 \/ volume f <= volume g) after.
Proof.
  unfold NewUsenetRARArchive.
  pose proof (SortHeadFacts.SortStableFunc_head compareN n (volumesOf (Nzb.Files nzbDoc))
                (compareN_orders (Nzb.Files nzbDoc))) as Hhead.
  assert (Hover : forall l g, g ∈ l -> 0 <= volume g ->
            exists v, v ∈ volumesOf l /\ n v = volume g).
  { intros l g Hg Hvol. exists {| n := volume g; name := Nzb.Name g |}.
    split; [| reflexivity]. unfold volumesOf. apply list_elem_of_omap.
    exists g. split; [assumption |]. fold (volume g).
    destruct (Z.ltb_spec (volume g) 0); [lia | reflexivity]. }
  destruct (Slices.SortStableFunc compareN (volumesOf (Nzb.Files nzbDoc)))
    as [| firstVolume rest].
  - left. split; [reflexivity |]. apply Forall_forall. intros g Hg.
    destruct (Z.lt_ge_cases (volume g) 0) as [| Hvol]; [assumption |].
    destruct (Hover _ g Hg ltac:(lia)) as (v & Hv & _).
    rewrite Hhead in Hv. inversion Hv.
  - right. destruct Hhead as (vbefore & vafter & Hsplit & Hbefore & Hafter).
    destruct (omap_split _ _ _ _ _ Hsplit) as (before & f & after & Hfiles & Hf & H1 & H2).
    cbv beta zeta in Hf. fold (volume f) in Hf.
    destruct (Z.ltb_spec (volume f) 0); [discriminate |].
    injection Hf as <-. cbn [n name] in *.
    exists before, f, after. split; [assumption |]. split; [reflexivity |].
    split; [assumption |]. split.
    + apply Forall_forall. intros g Hg.
      destruct (Z.lt_ge_cases (volume g) 0) as [| Hvol]; [left; assumption | right].
      destruct (Hover before g Hg ltac:(lia)) as (v & Hv & <-).
      fold (volumesOf before) in H1. rewrite H1 in Hv.
      rewrite Forall_forall in Hbefore. apply (Hbefore v Hv).
    + apply Forall_forall. intros g Hg.
      destruct (Z.lt_ge_cases (volume g) 0) as [| Hvol]; [left; assumption | right].
      destruct (Hover after g Hg ltac:(lia)) as (v & Hv & <-).
      fold (volumesOf after) in H2. rewrite H2 in Hv.
      rewrite Forall_forall in Hafter. apply (Hafter v Hv).
Qed.

End FirstVolumeFacts.

(** ** Text: cutting *)

Module CutFacts.

Import Text.

Lemma chars_text (l : list ascii) : chars (text l) = l.
Proof. apply list_ascii_of_string_of_list_ascii. Qed.

Lemma text_chars (s : string) : text (chars s) = s.
Proof. apply string_of_list_ascii_of_string. Qed.

Lemma chars_append (a b : string) : chars (String.append a b) = chars a ++ chars b.
Proof.
  unfold chars. induction a as [| c a IH]; simpl; [reflexivity |]. f_equal. exact IH.
Qed.

Lemma text_app (a b : list ascii) : text (a ++ b) = String.append (text a) (text b).
Proof.
  unfold text. induction a as [| c a IH]; simpl; [reflexivity |]. rewrite IH. reflexivity.
Qed.

(** [cutChars] gives the text in front of the first [sep]: it holds no
    [sep], and what follows it is nothing (and [sep] was not found) or
    starts with [sep]. *)
Lemma cutChars_spec (sep : ascii) (l : list ascii) :
  exists rest,
    l = fst (cutChars sep l) ++ rest
    /\ (sep ∉ fst (cutChars sep l))
    /\ (if snd (cutChars sep l) then exists rest', rest = sep :: rest' else rest = []).
Proof.
  induction l as [| c l (rest & Hl & Hsep & Hrest)]; simpl.
  - exists []. split; [reflexivity |]. split; [apply not_elem_of_nil | reflexivity].
  - destruct (Ascii.eqb_spec c sep) as [-> | Hne]; simpl.
    + exists (sep :: l). split; [reflexivity |]. split; [apply not_elem_of_nil | eauto].
    + destruct (cutChars sep l) as [before found]. simpl in *.
      exists rest. split; [congruence |]. split; [| assumption].
      intros Hin. apply elem_of_cons in Hin as [-> | Hin]; [congruence | auto].
Qed.

Lemma cutChars_found (sep : ascii) (before after : list ascii) :
  sep ∉ before -> cutChars sep (before ++ sep :: after) = (before, true).
Proof.
  induction before as [| c before IH]; intros Hsep; simpl.
  - rewrite Ascii.eqb_refl. reflexivity.
  - destruct (Ascii.eqb_spec c sep) as [-> | Hne]; [exfalso; apply Hsep; left |].
    rewrite IH; [reflexivity |]. intros Hin. apply Hsep. right. assumption.
Qed.

Lemma cutChars_missing (sep : ascii) (l : list ascii) :
  sep ∉ l -> cutChars sep l = (l, false).
Proof.
  induction l as [| c l IH]; intros Hsep; simpl; [reflexivity |].
  destruct (Ascii.eqb_spec c sep) as [-> | Hne]; [exfalso; apply Hsep; left |].
  rewrite IH; [reflexivity |]. intros Hin. apply Hsep. right. assumption.
Qed.

End CutFacts.

(** ** The key of an NZB file link *)

Module LinkFacts.

Import Text NzbInfo.

(** The clean link as a list of characters. *)
Lemma cleanNZBFileLink_chars (link : string) :
  chars (cleanNZBFileLink link)
  = let '(link1, ok) := cutChars "?" (chars link) in
    let link2 := if ok then link1 else fst (cutChars "&" link1) in
    fst (cutChars "#" link2).
Proof.
  unfold cleanNZBFileLink, Cut.
  destruct (cutChars "?" (chars link)) as [link1 ok].
  destruct ok.
  - rewrite CutFacts.chars_text.
    destruct (cutChars "#" link1) as [link3 ?]. cbn [fst]. apply CutFacts.chars_text.
  - rewrite CutFacts.chars_text.
    destruct (cutChars "&" link1) as [link2 ?]. cbn [fst]. rewrite CutFacts.chars_text.
    destruct (cutChars "#" link2) as [link3 ?]. cbn [fst]. apply CutFacts.chars_text.
Qed.

(** X12.  The key of a link is taken from a prefix of the link that holds
    neither a [?] nor a [#]; what the prefix leaves out of the link is
    nothing, or starts with [?], [&] or [#]. *)
Theorem cleanNZBFileLink_is_a_prefix_without_query_or_fragment (link : string) :
  exists rest,
    link = String.append (cleanNZBFileLink link) rest
    /\ ("?"%char ∉ chars (cleanNZBFileLink link))
    /\ ("#"%char ∉ chars (cleanNZBFileLink link))
    /\ match rest with
       | EmptyString => True
       | String c _ => c = "?"%char \/ c = "&"%char \/ c = "#"%char
       end.
Proof.
  pose proof (cleanNZBFileLink_chars link) as Hchars.
  destruct (CutFacts.cutChars_spec "?" (chars link)) as (r1 & H1 & Hq1 & Hr1).
  destruct (cutChars "?" (chars link)) as [link1 ok]. cbn [fst snd] in *.
  set (link2 := if ok then link1 else fst (cutChars "&" link1)) in *.
  assert (H2 : exists r2, link1 = link2 ++ r2
                 /\ match r2 with [] => True | c :: _ => c = "&"%char end
                 /\ (ok = true -> r2 = [])).
  { destruct ok.
    - exists []. rewrite app_nil_r. split; [reflexivity |]. split; [exact I | reflexivity].
    - destruct (CutFacts.cutChars_spec "&" link1) as (r2 & H2 & _ & Hr2).
      exists r2. split; [exact H2 |]. split; [| discriminate].
      destruct (snd (cutChars "&" link1)); [destruct Hr2 as [? ->]; reflexivity |].
      rewrite Hr2. exact I. }
  destruct H2 as (r2 & H2 & Hr2 & Hok).
  destruct (CutFacts.cutChars_spec "#" link2) as (r3 & H3 & Hq3 & Hr3).
  cbv zeta in Hchars. rewrite <- Hchars in *.
  exists (text (r3 ++ r2 ++ r1)). split; [| split; [| split]].
  - rewrite <- (CutFacts.text_chars (cleanNZBFileLink link)) at 1.
    rewrite <- CutFacts.text_app, !app_assoc, <- H3, <- H2, <- H1.
    symmetry. apply CutFacts.text_chars.
  - intros Hin. apply Hq1. rewrite H2, H3. apply elem_of_app. left.
    apply elem_of_app. left. assumption.
  - assumption.
  - destruct r3 as [| c r3].
    + destruct r2 as [| c r2].
      * simpl. destruct ok; [destruct Hr1 as [? ->]; simpl; auto |].
        rewrite Hr1. exact I.
      * simpl. auto.
    + destruct (snd (cutChars "#" link2)); [| discriminate].
      destruct Hr3 as [? [= -> _]]. simpl. auto.
Qed.

(** X13.  The query of a link does not count: a link made of [base], a [?]
    and any query has the key of [base ? ...], which is the hash of
    [base], when [base] holds neither [?] nor [#].  So two links that
    differ in their query only (an API key, say) share one cache
    entry. *)
Theorem HashNZBFileLink_ignores_the_query
    (MD5Hash : string -> string) (base query query' : string) :
  "?"%char ∉ chars base -> "#"%char ∉ chars base ->
  cleanNZBFileLink (String.append base (String "?" query)) = base
  /\ HashNZBFileLink MD5Hash (String.append base (String "?" query)) = MD5Hash base
  /\ HashNZBFileLink MD5Hash (String.append base (String "?" query))
     = HashNZBFileLink MD5Hash (String.append base (String "?" query')).
Proof.
  intros Hq Hf.
  assert (Hclean : forall q, cleanNZBFileLink (String.append base (String "?" q)) = base).
  { intros q. rewrite <- (CutFacts.text_chars (cleanNZBFileLink _)).
    rewrite cleanNZBFileLink_chars, CutFacts.chars_append.
    change (chars (String "?" q)) with ("?"%char :: chars q).
    rewrite (CutFacts.cutChars_found "?" (chars base) (chars q) Hq).
    cbv beta iota zeta.
    rewrite (CutFacts.cutChars_missing "#" (chars base) Hf).
    apply CutFacts.text_chars. }
  unfold HashNZBFileLink. rewrite !Hclean. repeat split.
Qed.

Lemma HashNZBFileLink_query_witness :
  cleanNZBFileLink (String.append "http://indexer.test/get" (String "?" "id=1&apikey=k"))
  = "http://indexer.test/get"
  /\ HashNZBFileLink (fun s => s)
       (String.append "http://indexer.test/get" (String "?" "id=1&apikey=k"))
     = "http://indexer.test/get"
  /\ HashNZBFileLink (fun s => s)
       (String.append "http://indexer.test/get" (String "?" "id=1&apikey=k"))
     = HashNZBFileLink (fun s => s)
         (String.append "http://indexer.test/get" (String "?" "id=2")).
Proof.
  apply (HashNZBFileLink_ignores_the_query (fun s => s) "http://indexer.test/get"
           "id=1&apikey=k" "id=2");
    vm_compute; intros H; repeat (apply elem_of_cons in H as [H | H]; [discriminate |]);
    inversion H.
Defined.

End LinkFacts.

(** ** Fetching NZB files: the two caches *)

Module FetchFacts.

Import NzbInfo.


(** X14.  A fetch that finds neither a cached file nor a live cached failure
    and whose download passes the checks sends one request, returns the
    file and leaves the failure cache alone.  When [nzbFileCache.Add]
    succeeds the file is in the file cache under the key of the link;
    when it fails the file cache is left as it is, and the file is
    returned all the same.  As long as the file cache holds the file,
    every fetch of a link with that key, at any time, returns this file
    without a request to the network, whatever the failure cache
    holds. *)
Theorem fetched_file_is_served_from_the_cache
    (MD5Hash : string -> string) (NZBFileMaxSize : Z)
    (t0 : Z) (network : string -> Go.result response)
    (addFile : string -> NZBFile -> option Go.error) (link : string)
    (st : state) (file : NZBFile) :
  nzbFileCache st !! HashNZBFileLink MD5Hash link = None ->
  cacheGet (nzbFetchErrCache st) t0 (HashNZBFileLink MD5Hash link) = None ->
  download NZBFileMaxSize t0 link (network link) = Go.Ok file ->
  let st1 := fst (fetchNZBFile MD5Hash NZBFileMaxSize t0 network addFile link st) in
  snd (fetchNZBFile MD5Hash NZBFileMaxSize t0 network addFile link st) = Go.Ok file
  /\ requests st1 = requests st ++ [link]
  /\ (addFile (HashNZBFileLink MD5Hash link) file = None ->
      nzbFileCache st1 !! MD5Hash (cleanNZBFileLink link) = Some file)
  /\ (addFile (HashNZBFileLink MD5Hash link) file <> None ->
      nzbFileCache st1 = nzbFileCache st)
  /\ nzbFetchErrCache st1 = nzbFetchErrCache st
  /\ forall (t : Z) (network' : string -> Go.result response)
            (addFile' : string -> NZBFile -> option Go.error) (link' : string)
            (st2 : state),
       cleanNZBFileLink link' = cleanNZBFileLink link ->
       nzbFileCache st2 !! HashNZBFileLink MD5Hash link = Some file ->
       fetchNZBFile MD5Hash NZBFileMaxSize t network' addFile' link' st2
       = (st2, Go.Ok file).
Proof.
  intros Hfile Herr Hdown st1.
  assert (Hfetch : fetchNZBFile MD5Hash NZBFileMaxSize t0 network addFile link st
                   = ({| nzbFileCache :=
                           match addFile (HashNZBFileLink MD5Hash link) file with
                           | None => <[HashNZBFileLink MD5Hash link := file]> (nzbFileCache st)
                           | Some _ => nzbFileCache st
                           end;
                         nzbFetchErrCache := nzbFetchErrCache st;
                         requests := requests st ++ [link] |}, Go.Ok file)).
  { unfold fetchNZBFile. rewrite Hfile, Herr, Hdown. reflexivity. }
  subst st1. rewrite Hfetch. cbn [fst snd requests nzbFileCache nzbFetchErrCache].
  split; [reflexivity |]. split; [reflexivity |].
  split; [intros ->; apply lookup_insert_eq |].
  split; [destruct (addFile (HashNZBFileLink MD5Hash link) file); [reflexivity | congruence] |].
  split; [reflexivity |].
  intros t network' addFile' link' st2 Hkey Hcached. unfold fetchNZBFile.
  replace (HashNZBFileLink MD5Hash link') with (HashNZBFileLink MD5Hash link)
    by (unfold HashNZBFileLink; rewrite Hkey; reflexivity).
  rewrite Hcached. reflexivity.
Qed.

(** An indexer that answers every request with the same document. *)
Definition up (link : string) : Go.result response :=
  Go.Ok {| StatusCode := 200; ContentLength := 11; Body := "<nzb></nzb>";
           FileNameGiven := "release.nzb" |}.

Definition release : NZBFile :=
  {| Blob := "<nzb></nzb>"; FileName := "release.nzb";
     Link := "http://indexer.test/get?id=1"; Mod_ := 1000 |}.

Lemma fetched_file_witness :
  let st1 := fst (fetchNZBFile (fun s => s) 1048576 1000 up NzbInfoFacts.kept
                    "http://indexer.test/get?id=1" NzbInfoFacts.noState) in
  snd (fetchNZBFile (fun s => s) 1048576 1000 up NzbInfoFacts.kept
         "http://indexer.test/get?id=1" NzbInfoFacts.noState)
  = Go.Ok release
  /\ requests st1 = requests NzbInfoFacts.noState ++ ["http://indexer.test/get?id=1"]
  /\ (NzbInfoFacts.kept (HashNZBFileLink (fun s => s) "http://indexer.test/get?id=1")
        release = None ->
      nzbFileCache st1 !! cleanNZBFileLink "http://indexer.test/get?id=1" = Some release)
  /\ (NzbInfoFacts.kept (HashNZBFileLink (fun s => s) "http://indexer.test/get?id=1")
        release <> None ->
      nzbFileCache st1 = nzbFileCache NzbInfoFacts.noState)
  /\ nzbFetchErrCache st1 = nzbFetchErrCache NzbInfoFacts.noState
  /\ forall (t : Z) (network' : string -> Go.result response)
            (addFile' : string -> NZBFile -> option Go.error) (link' : string)
            (st2 : state),
       cleanNZBFileLink link' = cleanNZBFileLink "http://indexer.test/get?id=1" ->
       nzbFileCache st2 !! HashNZBFileLink (fun s => s) "http://indexer.test/get?id=1"
       = Some release ->
       fetchNZBFile (fun s => s) 1048576 t network' addFile' link' st2
       = (st2, Go.Ok release).
Proof.
  apply (fetched_file_is_served_from_the_cache (fun s => s) 1048576 1000 up
           NzbInfoFacts.kept
           "http://indexer.test/get?id=1" NzbInfoFacts.noState release);
    reflexivity.
Defined.







End FetchFacts.

(** ** Content Resolver: finding and opening a file *)

Module ResolverFacts.

Import Text Stream.

Lemma find_agree {A} (p q : A -> bool) (l : list A) :
  (forall x, p x = q x) -> find p l = find q l.
Proof.
  intros Hpq. induction l as [| a l IH]; simpl; [reflexivity |].
  rewrite Hpq, IH. reflexivity.
Qed.

(** The name a path part stands for: slashes trimmed, letter case
    dropped. *)
Definition folded (name : string) : string := ToLower (TrimSlashes name).

Lemma EqualFold_folded (a name name' : string) :
  folded name = folded name' ->
  EqualFold a (TrimSlashes name) = EqualFold a (TrimSlashes name').
Proof. unfold folded, EqualFold. intros ->. reflexivity. Qed.

(** X17.  [findFileByName] looks at a name only up to the slashes around it
    and the case of its letters: two names that agree up to these find
    the same file and the same content record. *)
Theorem findFileByName_ignores_case_and_slashes
    (nzbDoc : Nzb.NZB) (contentFiles : list NZBContentFile) (name name' : string) :
  ToLower (TrimSlashes name) = ToLower (TrimSlashes name') ->
  findFileByName nzbDoc contentFiles name = findFileByName nzbDoc contentFiles name'.
Proof.
  intros Hfold. unfold findFileByName.
  rewrite (find_agree
             (fun cf => EqualFold (CName cf) (TrimSlashes name)
                        || EqualFold (CAlias cf) (TrimSlashes name))
             (fun cf => EqualFold (CName cf) (TrimSlashes name')
                        || EqualFold (CAlias cf) (TrimSlashes name')))
    by (intros cf; rewrite !(EqualFold_folded _ name name') by exact Hfold; reflexivity).
  destruct (find _ contentFiles) as [cf |]; [reflexivity |].
  rewrite (find_agree
             (fun f => EqualFold (Nzb.Name f) (TrimSlashes name))
             (fun f => EqualFold (Nzb.Name f) (TrimSlashes name')))
    by (intros f; apply EqualFold_folded; exact Hfold).
  reflexivity.
Qed.

Lemma findFileByName_case_witness :
  findFileByName StreamFacts.movieNzb [] "/MOVIE.RAR/"
  = findFileByName StreamFacts.movieNzb [] "Movie.rar".
Proof.
  apply (findFileByName_ignores_case_and_slashes StreamFacts.movieNzb []
           "/MOVIE.RAR/" "Movie.rar").
  reflexivity.
Defined.
(** X18.  [streamFile] fetches the first segment of a file only after it has
    checked the index and the segments: the file it goes on with is the
    file at the index given, the index is one of the NZB, the file has
    a segment, and neither the fetch of its first segment nor the plain
    stream over it indexes an empty slice.  It reports an index out of
    range exactly when the index is none of the NZB, and a file without
    segments as such. *)
Theorem streamFile_opens_only_a_file_with_segments
    (cfg : Pool.Config) (pool : Pool.fetcher) (config : StreamConfig)
    (nzbDoc : Nzb.NZB) (fileIdx : Z) :
  match streamFile nzbDoc fileIdx with
  | StreamFileAt i f =>
      i = fileIdx /\ 0 <= fileIdx < Nzb.FileCount nzbDoc
      /\ Nzb.Files nzbDoc !! Z.to_nat fileIdx = Some f
      /\ Nzb.Segments f <> []
      /\ is_Some (PlainStream.fetchFirstSegment pool f)
      /\ is_Some (PlainStream.streamPlainFile cfg pool f config)
  | IndexOutOfRange i count =>
      i = fileIdx /\ count = Nzb.FileCount nzbDoc
      /\ (fileIdx < 0 \/ Nzb.FileCount nzbDoc <= fileIdx)
  | FileHasNoSegments =>
      0 <= fileIdx < Nzb.FileCount nzbDoc
      /\ exists f, Nzb.Files nzbDoc !! Z.to_nat fileIdx = Some f /\ Nzb.Segments f = []
  | NoFiles => False
  end.
Proof.
  unfold streamFile.
  destruct (Z.ltb_spec fileIdx 0); cbn [orb]; [split; [| split]; auto |].
  destruct (Z.leb_spec (Nzb.FileCount nzbDoc) fileIdx); [split; [| split]; auto |].
  rewrite FileStreamFacts.nth_error_lookup.
  destruct (Nzb.Files nzbDoc !! Z.to_nat fileIdx) as [f |] eqn:Hf.
  - unfold Nzb.SegmentCount.
    destruct (Nzb.Segments f) as [| firstSegment rest] eqn:Hsegs; simpl.
    + split; [lia |]. exists f. split; [reflexivity | assumption].
    + split; [reflexivity |]. split; [lia |]. split; [reflexivity |].
      split; [rewrite Hsegs; discriminate |].
      unfold PlainStream.fetchFirstSegment, PlainStream.streamPlainFile,
        FileStream.NewFileStream.
      rewrite Hsegs. split; [eauto |].
      destruct (pool firstSegment); eauto.
  - apply lookup_ge_None in Hf. unfold Nzb.FileCount in *. lia.
Qed.

(** X19.  [StreamByContentPath] does not check that the file it opens
    has segments.  With a path of one part that names a file of the
    NZB without segments it goes on to the plain stream of that file,
    and [NewFileStream] there takes [file.Segments[0]] of the empty
    slice and panics, whereas [streamFile] answers "file has no
    segments" for the same file. *)
Theorem StreamByContentPath_panics_on_a_file_without_segments
    (cfg : Pool.Config) (pool : Pool.fetcher)
    (nzbDoc : Nzb.NZB) (name : string) (config : StreamConfig)
    (f : Nzb.File) (contentFile : option NZBContentFile) (fileIdx : nat) :
  name <> "" ->
  findFileByName nzbDoc (ContentFiles config) name = (Some f, contentFile) ->
  Nzb.Files nzbDoc !! fileIdx = Some f ->
  Nzb.Segments f = [] ->
  StreamByContentPath nzbDoc [name] (Some config) = StreamPlainFile f
  /\ PlainStream.streamPlainFile cfg pool f config = None
  /\ streamFile nzbDoc (Z.of_nat fileIdx) = FileHasNoSegments.
Proof.
  intros Hname Hfind Hidx Hsegs. split; [| split].
  - unfold StreamByContentPath. destruct (String.eqb_spec name ""); [contradiction |].
    rewrite Hfind. reflexivity.
  - unfold PlainStream.streamPlainFile, FileStream.NewFileStream. rewrite Hsegs. reflexivity.
  - unfold streamFile. pose proof (lookup_lt_Some _ _ _ Hidx) as Hlt.
    destruct (Z.ltb_spec (Z.of_nat fileIdx) 0); [lia |].
    unfold Nzb.FileCount.
    destruct (Z.leb_spec (Z.of_nat (length (Nzb.Files nzbDoc))) (Z.of_nat fileIdx)); [lia |].
    cbn [orb]. rewrite Nat2Z.id, FileStreamFacts.nth_error_lookup, Hidx.
    unfold Nzb.SegmentCount. rewrite Hsegs. reflexivity.
Qed.

(** An NZB whose only file lists no segments. *)
Definition hollowFile : Nzb.File :=
  {| Nzb.Poster := "poster"; Nzb.Date := 0; Nzb.Subject := "Movie.mkv";
     Nzb.Groups := ["alt.binaries.test"]; Nzb.Segments := [];
     Nzb.name := "Movie.mkv" |}.

Definition hollowNzb : Nzb.NZB := {| Nzb.Files := [hollowFile] |}.

Lemma StreamByContentPath_hollow_witness :
  StreamByContentPath hollowNzb ["Movie.mkv"] (Some emptyConfig) = StreamPlainFile hollowFile
  /\ PlainStream.streamPlainFile SearchFacts.config SearchFacts.plainPool hollowFile
       emptyConfig = None
  /\ streamFile hollowNzb (Z.of_nat 0) = FileHasNoSegments.
Proof.
  apply (StreamByContentPath_panics_on_a_file_without_segments
           SearchFacts.config SearchFacts.plainPool hollowNzb "Movie.mkv" emptyConfig
           hollowFile None 0);
    [discriminate | reflexivity | reflexivity | reflexivity].
Defined.

End ResolverFacts.

(** ** Package nzb: what parsing leaves in order *)

Module ParseFacts.

Import NzbParse.

(** A number small enough for the difference of two such to fit. *)
Definition fits (v : Z) : Prop := - 2 ^ 62 <= v < 2 ^ 62.

Lemma sub_orders {A} (key : A -> Z) (l : list A) :
  Forall (fun x => fits (key x)) l ->
  SlicesFacts.ordersBy (fun a b => Int64.sub (key a) (key b)) key l.
Proof.
  intros Hfits x y Hx Hy. rewrite Forall_forall in Hfits.
  rewrite Int64Facts.sub_small by (apply Hfits; assumption).
  destruct (Z.ltb_spec (key x - key y) 0); destruct (Z.ltb_spec (key x) (key y));
    first [reflexivity | lia].
Qed.

(** A sum accumulated in an [int64] is the sum, wrapped once. *)
Lemma fold_add_wrap {A} (size : A -> Z) (l : list A) :
  forall a : Z,
  fold_left (fun acc x => Int64.add acc (size x)) l (Int64.wrap a)
  = Int64.wrap (a + GroupFacts.total (map size l)).
Proof.
  induction l as [| x l IH]; intros a; simpl.
  - unfold GroupFacts.total. simpl. rewrite Z.add_0_r. reflexivity.
  - rewrite GroupFacts.wrap_add, IH. f_equal. unfold GroupFacts.total. simpl. lia.
Qed.

Lemma Size_total (f : Nzb.File) :
  Nzb.Size f = Int64.wrap (GroupFacts.total (map Nzb.Bytes (Nzb.Segments f))).
Proof. unfold Nzb.Size. apply (fold_add_wrap Nzb.Bytes (Nzb.Segments f) 0). Qed.

Lemma TotalSize_total (n : Nzb.NZB) :
  TotalSize n = Int64.wrap (GroupFacts.total (map Nzb.Size (Nzb.Files n))).
Proof. unfold TotalSize. apply (fold_add_wrap Nzb.Size (Nzb.Files n) 0). Qed.

Lemma sortSegments_Size (f : Nzb.File) : Nzb.Size (sortSegments f) = Nzb.Size f.
Proof.
  rewrite !Size_total. f_equal. apply GroupFacts.total_Permutation, Permutation_map.
  apply SlicesFacts.SortStableFunc_Permutation.
Qed.

(** X20.  [Parse] keeps the files and the segments and puts them in order.
    The files of the parsed document are the files decoded, in the
    order of their numbers, each with the segments it was decoded with
    in the order of their numbers; equal numbers keep the order of the
    document (the files, and the segments, of one number are in the
    order they were decoded in), and the first segment of a file is the
    first of those with the least number.  The sizes, the file count and the total
    size are those of the document decoded.  (The numbers are compared
    by their difference, which orders them as long as it does not
    overflow: numbers below [2^62] in magnitude.) *)
Theorem Parse_puts_files_and_segments_in_order
    (number : Nzb.File -> Z) (decoded : Nzb.NZB) :
  exists ordered,
    ordered ≡ₚ Nzb.Files decoded
    /\ Nzb.Files (sortParsed number decoded) = map sortSegments ordered
    /\ (Forall (fun f => fits (number f)) (Nzb.Files decoded) ->
        StronglySorted (fun a b => number a <= number b) ordered
        /\ forall k, SortHeadFacts.keyed number k ordered
                     = SortHeadFacts.keyed number k (Nzb.Files decoded))
    /\ Forall (fun f =>
                 Nzb.Name (sortSegments f) = Nzb.Name f
                 /\ Nzb.Segments (sortSegments f) ≡ₚ Nzb.Segments f
                 /\ Nzb.Size (sortSegments f) = Nzb.Size f
                 /\ (Forall (fun s => fits (Nzb.Number s)) (Nzb.Segments f) ->
                     StronglySorted (fun a b => Nzb.Number a <= Nzb.Number b)
                       (Nzb.Segments (sortSegments f))
                     /\ match Nzb.Segments (sortSegments f) with
                        | [] => Nzb.Segments f = []
                        | first :: _ =>
                            SortHeadFacts.firstLeast Nzb.Number first (Nzb.Segments f)
                        end
                     /\ forall k,
                          SortHeadFacts.keyed Nzb.Number k (Nzb.Segments (sortSegments f))
                          = SortHeadFacts.keyed Nzb.Number k (Nzb.Segments f)))
         ordered
    /\ Nzb.FileCount (sortParsed number decoded) = Nzb.FileCount decoded
    /\ TotalSize (sortParsed number decoded) = TotalSize decoded.
Proof.
  set (ordered := Slices.SortStableFunc (compareFileNumber number) (Nzb.Files decoded)).
  assert (Hperm : ordered ≡ₚ Nzb.Files decoded)
    by apply SlicesFacts.SortStableFunc_Permutation.
  exists ordered. split; [assumption |]. split; [reflexivity |].
  split; [| split; [| split]].
  - intros Hfits. pose proof (sub_orders number _ Hfits) as Horders. split.
    + apply (SlicesFacts.SortStableFunc_sorted (compareFileNumber number) number).
      assumption.
    + intros k.
      apply (SortHeadFacts.SortStableFunc_stable (compareFileNumber number) number).
      assumption.
  - apply Forall_forall. intros f _. split; [reflexivity |].
    split; [apply SlicesFacts.SortStableFunc_Permutation |].
    split; [apply sortSegments_Size |].
    intros Hfits. pose proof (sub_orders Nzb.Number _ Hfits) as Horders.
    split; [| split].
    + apply (SlicesFacts.SortStableFunc_sorted compareNumber Nzb.Number). assumption.
    + apply (SortHeadFacts.SortStableFunc_head compareNumber Nzb.Number). assumption.
    + intros k.
      apply (SortHeadFacts.SortStableFunc_stable compareNumber Nzb.Number). assumption.
  - unfold Nzb.FileCount, sortParsed. cbn [Nzb.Files]. fold ordered.
    rewrite length_map, Hperm. reflexivity.
  - rewrite !TotalSize_total. f_equal. unfold sortParsed. cbn [Nzb.Files]. fold ordered.
    rewrite map_map. rewrite (GroupFacts.map_agree _ Nzb.Size)
      by (intros f _; apply sortSegments_Size).
    apply GroupFacts.total_Permutation, Permutation_map. assumption.
Qed.

End ParseFacts.

(** ** The head of an NZB: the first and the last of a type *)

Module MetaFacts.

Import NzbParse Api.

Definition typed (metaType : string) (m : Meta) : bool := String.eqb (Type_ m) metaType.

Lemma find_app {A} (p : A -> bool) (l k : list A) :
  find p (l ++ k) = match find p l with Some x => Some x | None => find p k end.
Proof.
  induction l as [| a l IH]; [reflexivity |]. cbn [app find].
  destruct (p a); [reflexivity | exact IH].
Qed.

Lemma responseMeta_last (metaType : string) (metas : list Meta) :
  forall head : gmap string string,
  fold_left (fun head m => <[Type_ m := Value m]> head) metas head !! metaType
  = match find (typed metaType) (rev metas) with
    | Some m => Some (Value m)
    | None => head !! metaType
    end.
Proof.
  induction metas as [| m metas IH]; intros head; [reflexivity |].
  cbn [fold_left rev]. rewrite IH, find_app.
  destruct (find (typed metaType) (rev metas)); [reflexivity |].
  cbn [find]. unfold typed at 1.
  destruct (String.eqb_spec (Type_ m) metaType) as [<- | Hne].
  - apply lookup_insert_eq.
  - apply lookup_insert_ne. assumption.
Qed.

Lemma find_rev_unique {A} (p : A -> bool) (l : list A) :
  (forall x y, x ∈ l -> y ∈ l -> p x = true -> p y = true -> x = y) ->
  find p (rev l) = find p l.
Proof.
  induction l as [| a l IH]; intros Hunique; [reflexivity |].
  cbn [rev find]. rewrite find_app, IH
    by (intros x y Hx Hy; apply Hunique; right; assumption).
  destruct (p a) eqn:Ha.
  - destruct (find p l) as [x |] eqn:Hx; [| cbn [find]; rewrite Ha; reflexivity].
    apply find_some in Hx as [Hin Hpx]. f_equal.
    apply Hunique; [right; apply list_elem_of_In; assumption | left | assumption | assumption].
  - destruct (find p l); [reflexivity |]. cbn [find]. rewrite Ha. reflexivity.
Qed.

Lemma NoDup_typed (metas : list Meta) (x y : Meta) :
  NoDup (map Type_ metas) -> x ∈ metas -> y ∈ metas -> Type_ x = Type_ y -> x = y.
Proof.
  induction metas as [| m metas IH]; intros Hnodup Hx Hy Hxy; [inversion Hx |].
  cbn [map] in Hnodup. apply NoDup_cons in Hnodup as [Hm Hnodup].
  assert (Hin : forall z, z ∈ metas -> Type_ z ∈ map Type_ metas).
  { intros z Hz. apply list_elem_of_In, in_map, list_elem_of_In. assumption. }
  apply elem_of_cons in Hx as [-> | Hx]; apply elem_of_cons in Hy as [-> | Hy].
  - reflexivity.
  - exfalso. apply Hm. rewrite Hxy. auto.
  - exfalso. apply Hm. rewrite <- Hxy. auto.
  - auto.
Qed.

(** X21.  [GetMeta] returns the value of the first [meta] of the type asked
    for, and the empty text when there is none or the document has no
    head; the [Meta] map of the parse response holds, for a type, the
    value of the last [meta] of that type.  When no type occurs twice
    in the head the two agree: [GetMeta] returns what the map holds,
    and the empty text for a type the map does not hold. *)
Theorem GetMeta_returns_the_first_meta_and_the_response_the_last
    (metas : list Meta) (metaType : string) :
  GetMeta None metaType = ""
  /\ GetMeta (Some metas) metaType
     = default "" (Value <$> find (typed metaType) metas)
  /\ responseMeta (Some metas) !! metaType
     = Value <$> find (typed metaType) (rev metas)
  /\ (NoDup (map Type_ metas) ->
      GetMeta (Some metas) metaType
      = default "" (responseMeta (Some metas) !! metaType)).
Proof.
  assert (Hfirst : GetMeta (Some metas) metaType
                   = default "" (Value <$> find (typed metaType) metas)).
  { unfold GetMeta. fold (typed metaType).
    destruct (find (typed metaType) metas); reflexivity. }
  assert (Hlast : responseMeta (Some metas) !! metaType
                  = Value <$> find (typed metaType) (rev metas)).
  { unfold responseMeta. rewrite responseMeta_last.
    destruct (find (typed metaType) (rev metas)); [reflexivity | apply lookup_empty]. }
  split; [reflexivity |]. split; [exact Hfirst |]. split; [exact Hlast |].
  intros Hnodup. rewrite Hfirst, Hlast. do 2 f_equal. symmetry.
  apply find_rev_unique. intros x y Hx Hy Hpx Hpy.
  apply (NoDup_typed metas); [assumption | assumption | assumption |].
  unfold typed in *. apply String.eqb_eq in Hpx, Hpy. congruence.
Qed.

End MetaFacts.

(** ** The job of the scheduler: the date of an NZB *)

Module SchedulerFacts.

Import Scheduler.

(** A date that [time.Unix] takes without wrapping around. *)
Definition sane (f : Nzb.File) : Prop := Nzb.Date f <= Int64.max_int - unixToInternal.

(** What the loop has found after the files [seen]. *)
Definition earliest (seen : list Nzb.File) (nzbDate : Z) : Prop :=
  (nzbDate = 0 /\ Forall (fun f => Nzb.Date f <= 0) seen)
  \/ exists f,
       f ∈ seen /\ 0 < Nzb.Date f
       /\ nzbDate = Nzb.Date f + unixToInternal
       /\ Forall (fun g => 0 < Nzb.Date g -> Nzb.Date f <= Nzb.Date g) seen.

Lemma Unix_sane (f : Nzb.File) :
  0 < Nzb.Date f -> sane f -> Unix (Nzb.Date f) = Nzb.Date f + unixToInternal.
Proof.
  unfold sane, Unix, Int64.add. intros Hpos Hsane. apply Int64Facts.wrap_in_range.
  unfold Int64.in_range, Int64.min_int, Int64.max_int, unixToInternal in *. lia.
Qed.

Lemma nzbDate_step (seen : list Nzb.File) (acc : Z) (f : Nzb.File) :
  sane f -> earliest seen acc ->
  earliest (seen ++ [f])
    (if 0 <? Nzb.Date f then
       let t := Unix (Nzb.Date f) in if (acc =? 0) || (t <? acc) then t else acc
     else acc).
Proof.
  intros Hsane Hacc. destruct (Z.ltb_spec 0 (Nzb.Date f)) as [Hpos | Hnon].
  - cbv zeta. rewrite (Unix_sane f Hpos Hsane).
    destruct Hacc as [[-> Hnone] | (g & Hg & Hgpos & -> & Hleast)].
    + cbn [Z.eqb orb]. right. exists f.
      split; [apply elem_of_app; right; left |]. split; [assumption |].
      split; [reflexivity |]. apply Forall_app. split.
      * eapply Forall_impl; [exact Hnone | simpl; intros; lia].
      * constructor; [lia | constructor].
    + assert (Hnz : (Nzb.Date g + unixToInternal =? 0) = false)
        by (apply Z.eqb_neq; unfold unixToInternal; lia).
      rewrite Hnz. cbn [orb].
      destruct (Z.ltb_spec (Nzb.Date f + unixToInternal) (Nzb.Date g + unixToInternal)).
      * right. exists f. split; [apply elem_of_app; right; left |]. split; [assumption |].
        split; [reflexivity |]. apply Forall_app. split.
        -- eapply Forall_impl; [exact Hleast | simpl; intros a Ha Ha0; specialize (Ha Ha0); lia].
        -- constructor; [lia | constructor].
      * right. exists g. split; [apply elem_of_app; left; assumption |].
        split; [assumption |]. split; [reflexivity |]. apply Forall_app.
        split; [assumption |]. constructor; [lia | constructor].
  - destruct Hacc as [[-> Hnone] | (g & Hg & Hgpos & -> & Hleast)].
    + left. split; [reflexivity |]. apply Forall_app. split; [assumption |].
      constructor; [lia | constructor].
    + right. exists g. split; [apply elem_of_app; left; assumption |].
      split; [assumption |]. split; [reflexivity |]. apply Forall_app.
      split; [assumption |]. constructor; [lia | constructor].
Qed.

(** X22.  The date the job stores for an NZB is the earliest of the dates of
    its files, the files without a date (a date of 0 or below) left
    out; it is the zero time when no file has a date. *)
Theorem nzbDate_is_the_earliest_file_date (files : list Nzb.File) :
  Forall sane files ->
  (nzbDate files = 0 /\ Forall (fun f => Nzb.Date f <= 0) files)
  \/ exists f,
       f ∈ files /\ 0 < Nzb.Date f
       /\ nzbDate files = Nzb.Date f + unixToInternal
       /\ Forall (fun g => 0 < Nzb.Date g -> Nzb.Date f <= Nzb.Date g) files.
Proof.
  intros Hsane. change (earliest files (nzbDate files)). unfold nzbDate.
  enough (H : forall seen acc, earliest seen acc ->
                earliest (seen ++ files)
                  (fold_left
                     (fun nzbDate f =>
                        if 0 <? Nzb.Date f then
                          let t := Unix (Nzb.Date f) in
                          if (nzbDate =? 0) || (t <? nzbDate) then t else nzbDate
                        else nzbDate) files acc)).
  { apply (H [] 0). left. split; [reflexivity | constructor]. }
  induction Hsane as [| f files Hf Hfiles IH]; intros seen acc Hacc; cbn [fold_left].
  - rewrite app_nil_r. assumption.
  - replace (seen ++ f :: files) with ((seen ++ [f]) ++ files)
      by (rewrite <- app_assoc; reflexivity).
    apply IH. apply nzbDate_step; assumption.
Qed.

Definition dated (date : Z) : Nzb.File :=
  {| Nzb.Poster := "poster"; Nzb.Date := date; Nzb.Subject := "payload";
     Nzb.Groups := ["alt.binaries.test"]; Nzb.Segments := []; Nzb.name := "payload" |}.

Lemma nzbDate_witness :
  (nzbDate [dated 0; dated 1700000000; dated 1600000000; dated (-5)] = 0
   /\ Forall (fun f => Nzb.Date f <= 0)
        [dated 0; dated 1700000000; dated 1600000000; dated (-5)])
  \/ exists f,
       f ∈ [dated 0; dated 1700000000; dated 1600000000; dated (-5)]
       /\ 0 < Nzb.Date f
       /\ nzbDate [dated 0; dated 1700000000; dated 1600000000; dated (-5)]
          = Nzb.Date f + unixToInternal
       /\ Forall (fun g => 0 < Nzb.Date g -> Nzb.Date f <= Nzb.Date g)
            [dated 0; dated 1700000000; dated 1600000000; dated (-5)].
Proof.
  apply (nzbDate_is_the_earliest_file_date
           [dated 0; dated 1700000000; dated 1600000000; dated (-5)]).
  repeat constructor; vm_compute; discriminate.
Defined.

End SchedulerFacts.

(** ** Content Resolver: the video streamed from an archive *)

Module ArchiveStreamFacts.

Import Rar ArchiveStream.

(** [x] is the first of the elements of [l] with the greatest key. *)
Definition firstGreatest {A} (key : A -> Z) (x : A) (l : list A) : Prop :=
  exists before after,
    l = before ++ x :: after
    /\ Forall (fun y => key y < key x) before
    /\ Forall (fun y => key y <= key x) after.

Lemma MaxFunc_fold {A} (key : A -> Z) (rest : list A) :
  forall (seen : list A) (m : A),
  firstGreatest key m seen ->
  firstGreatest key
    (fold_left (fun m e => if 0 <? Slices.Compare (key e) (key m) then e else m) rest m)
    (seen ++ rest).
Proof.
  induction rest as [| e rest IH]; intros seen m Hm; cbn [fold_left].
  - rewrite app_nil_r. assumption.
  - replace (seen ++ e :: rest) with ((seen ++ [e]) ++ rest)
      by (rewrite <- app_assoc; reflexivity).
    apply IH. destruct Hm as (before & after & -> & Hbefore & Hafter).
    unfold Slices.Compare.
    destruct (Z.ltb_spec (key e) (key m)); [| destruct (Z.ltb_spec (key m) (key e))];
      cbn [Z.ltb Z.compare].
    + exists before, (after ++ [e]). split; [rewrite <- app_assoc; reflexivity |].
      split; [assumption |]. apply Forall_app. split; [assumption |].
      constructor; [lia | constructor].
    + exists (before ++ m :: after), []. split; [reflexivity |]. split; [| constructor].
      apply Forall_app. split; [eapply Forall_impl; [exact Hbefore | simpl; intros; lia] |].
      constructor; [lia |]. eapply Forall_impl; [exact Hafter | simpl; intros; lia].
    + exists before, (after ++ [e]). split; [rewrite <- app_assoc; reflexivity |].
      split; [assumption |]. apply Forall_app. split; [assumption |].
      constructor; [lia | constructor].
Qed.

Lemma MaxFunc_first_greatest {A} (key : A -> Z) (l : list A) :
  match MaxFunc (fun a b => Slices.Compare (key a) (key b)) l with
  | None => l = []
  | Some x => firstGreatest key x l
  end.
Proof.
  destruct l as [| first rest]; [reflexivity |]. cbn [MaxFunc].
  apply (MaxFunc_fold key rest [first] first).
  exists [], []. split; [reflexivity |]. split; constructor.
Qed.

Section Videos.

Variable isVideoFile : string -> bool.

(** X23.  Of the videos of an archive, [streamVideoFromArchive] takes the one
    with the greatest size, the first of these when several have it,
    and opens it when it is streamable (not solid, and stored: packed
    size equal to size).  When that one is not streamable it fails,
    whether or not a smaller video is. *)
Theorem streamVideoFromArchive_takes_the_largest_video (videos : list UsenetRARFile) :
  match streamVideoFromArchive videos with
  | None => videos = []
  | Some (Go.Ok file) =>
      firstGreatest Size file videos /\ FileIsStreamable file = true
  | Some (Go.Err _) =>
      exists file, firstGreatest Size file videos /\ FileIsStreamable file = false
  end.
Proof.
  unfold streamVideoFromArchive.
  pose proof (MaxFunc_first_greatest Size videos) as Hmax.
  destruct (MaxFunc _ videos) as [file |]; [| assumption].
  destruct (FileIsStreamable file) eqn:Hstreamable; [split; assumption |].
  exists file. split; assumption.
Qed.

(** X24.  [streamArchiveFileInner] never takes the greatest of no videos
    (which would panic), and the file it opens is a video of the
    archive's listing that is streamable and at least as large as every
    video of the listing; the archive itself holds no solid entry. *)
Theorem streamArchiveFileInner_opens_the_largest_video_of_the_listing
    (archive : RARArchive) :
  match snd (streamArchiveFileInner isVideoFile archive) with
  | None => False
  | Some (Go.Err _) => True
  | Some (Go.Ok file) =>
      snd (IsStreamable archive) = true
      /\ exists files,
           snd (GetFiles (fst (IsStreamable archive))) = Go.Ok files
           /\ In file files
           /\ isVideoFile (name file) = true
           /\ FileIsStreamable file = true
           /\ (forall other, In other files -> isVideoFile (name other) = true ->
                 Size other <= Size file)
  end.
Proof.
  unfold streamArchiveFileInner.
  destruct (IsStreamable archive) as [archive1 streamable]. cbn [fst snd].
  destruct streamable; cbn [negb]; [| exact I].
  destruct (GetFiles archive1) as [archive2 [files | e]]; cbn [snd]; [| exact I].
  destruct (Nat.eqb_spec (length (filterVideoFiles isVideoFile files)) 0) as [| Hsome];
    cbn [snd]; [exact I |].
  unfold streamVideoFromArchive.
  pose proof (MaxFunc_first_greatest Size (filterVideoFiles isVideoFile files)) as Hmax.
  destruct (MaxFunc _ (filterVideoFiles isVideoFile files)) as [file |].
  - destruct (FileIsStreamable file) eqn:Hstreamable; [| exact I].
    destruct Hmax as (before & after & Hsplit & Hbefore & Hafter).
    split; [reflexivity |]. exists files. split; [reflexivity |].
    assert (Hin : forall g, In g (filterVideoFiles isVideoFile files) ->
                    Size g <= Size file).
    { intros g Hg. rewrite Hsplit in Hg. apply in_app_or in Hg as [Hg | [<- | Hg]].
      - rewrite Forall_forall in Hbefore. apply list_elem_of_In in Hg.
        specialize (Hbefore g Hg). lia.
      - lia.
      - rewrite Forall_forall in Hafter. apply list_elem_of_In in Hg. auto. }
    assert (Hfile : In file (filterVideoFiles isVideoFile files))
      by (rewrite Hsplit; apply in_or_app; right; left; reflexivity).
    unfold filterVideoFiles in *. apply filter_In in Hfile as [Hfile Hvideo].
    split; [assumption |]. split; [assumption |]. split; [assumption |].
    intros other Hother Hvideo'. apply Hin. apply filter_In. split; assumption.
  - rewrite Hmax in Hsome. simpl in Hsome. congruence.
Qed.

End Videos.

End ArchiveStreamFacts.

(** ** Volume names: the grouper and the volume numbers agree *)

Module VolumeNameFacts.

Import Text FileTypes ArchiveVolume.

Lemma lowerChar_idempotent (c : ascii) : lowerChar (lowerChar c) = lowerChar c.
Proof. destruct c as [[] [] [] [] [] [] [] []]; reflexivity. Qed.

Lemma isDigit_lowerChar (c : ascii) : isDigit (lowerChar c) = isDigit c.
Proof. destruct c as [[] [] [] [] [] [] [] []]; reflexivity. Qed.

Lemma lowerChar_digit (c : ascii) : isDigit c = true -> lowerChar c = c.
Proof. destruct c as [[] [] [] [] [] [] [] []]; simpl; intros H; try discriminate; reflexivity. Qed.

Definition lower (l : list ascii) : list ascii := map lowerChar l.

Lemma chars_ToLower (s : string) : chars (ToLower s) = lower (chars s).
Proof. unfold ToLower. apply CutFacts.chars_text. Qed.

Lemma lower_idempotent (l : list ascii) : lower (lower l) = lower l.
Proof.
  unfold lower. rewrite map_map. apply GroupFacts.map_agree.
  intros c _. apply lowerChar_idempotent.
Qed.

Lemma dropWhile_lower (l : list ascii) :
  dropWhile isDigit (lower l) = lower (dropWhile isDigit l).
Proof.
  induction l as [| c l IH]; [reflexivity |]. cbn [lower map dropWhile].
  rewrite isDigit_lowerChar. destruct (isDigit c); [exact IH | reflexivity].
Qed.

Lemma takeWhile_lower (l : list ascii) :
  takeWhile isDigit (lower l) = takeWhile isDigit l.
Proof.
  induction l as [| c l IH]; [reflexivity |]. cbn [lower map takeWhile].
  rewrite isDigit_lowerChar. destruct (isDigit c) eqn:Hc; [| reflexivity].
  rewrite (lowerChar_digit c Hc). f_equal. exact IH.
Qed.

Lemma lower_rev (l : list ascii) : lower (rev l) = rev (lower l).
Proof. unfold lower. apply map_rev. Qed.

Lemma splitDigits_lower (l : list ascii) :
  splitDigits (lower l) = (lower (fst (splitDigits l)), snd (splitDigits l)).
Proof.
  unfold splitDigits. cbn [fst snd].
  rewrite <- lower_rev, dropWhile_lower, takeWhile_lower, lower_rev. reflexivity.
Qed.

Lemma stripSuffixFold_lower (suffix : string) (l : list ascii) :
  stripSuffixFold suffix (lower l) = option_map lower (stripSuffixFold suffix l).
Proof.
  unfold stripSuffixFold.
  assert (Hlen : length (lower l) = length l) by apply length_map.
  rewrite Hlen.
  replace (text (map lowerChar (drop (length l - length (chars suffix)) (lower l))))
    with (text (map lowerChar (drop (length l - length (chars suffix)) l))).
  - destruct (_ && _); [| reflexivity]. cbn [option_map]. f_equal.
    unfold lower. apply firstn_map.
  - f_equal. unfold lower. rewrite skipn_map, map_map.
    apply GroupFacts.map_agree. intros c _. symmetry. apply lowerChar_idempotent.
Qed.

(** A match in the lower-cased name is the match in the name, with the
    text in front of it lower-cased and the same digits. *)
Lemma matchNumbered_ToLower (before after filename : string) :
  matchNumbered before after (ToLower filename)
  = option_map (fun m => (lower (fst m), snd m)) (matchNumbered before after filename).
Proof.
  unfold matchNumbered. rewrite chars_ToLower, stripSuffixFold_lower.
  destruct (stripSuffixFold after (chars filename)) as [s1 |]; [| reflexivity].
  cbn [option_map]. rewrite splitDigits_lower.
  destruct (splitDigits s1) as [s2 digits]. cbn [fst snd].
  destruct digits as [| d digits]; [reflexivity |].
  rewrite stripSuffixFold_lower.
  destruct (stripSuffixFold before s2); reflexivity.
Qed.

Lemma matchSuffix_ToLower (suffix filename : string) :
  matchSuffix suffix (ToLower filename)
  = option_map (fun m => (lower (fst m), snd m)) (matchSuffix suffix filename).
Proof.
  unfold matchSuffix. rewrite chars_ToLower, stripSuffixFold_lower.
  destruct (stripSuffixFold suffix (chars filename)); reflexivity.
Qed.

(** *** The digits of a match *)

Lemma takeWhile_digits (l : list ascii) : Forall (fun c => isDigit c = true) (takeWhile isDigit l).
Proof.
  induction l as [| c l IH]; [constructor |]. cbn [takeWhile].
  destruct (isDigit c) eqn:Hc; constructor; assumption.
Qed.

Lemma splitDigits_spec (l : list ascii) :
  Forall (fun c => isDigit c = true) (snd (splitDigits l))
  /\ l = fst (splitDigits l) ++ snd (splitDigits l).
Proof.
  unfold splitDigits. cbn [fst snd]. split.
  - apply Forall_rev, takeWhile_digits.
  - rewrite <- rev_app_distr. rewrite <- (rev_involutive l) at 1. f_equal.
    induction (rev l) as [| c r IH]; [reflexivity |]. cbn [takeWhile dropWhile].
    destruct (isDigit c); [cbn [app]; f_equal; exact IH | reflexivity].
Qed.

Lemma digitValue_digit (c : ascii) : isDigit c = true -> 0 <= digitValue c <= 9.
Proof.
  unfold isDigit, digitValue. intros H. apply andb_true_iff in H as [H1 H2].
  apply Nat.leb_le in H1, H2. lia.
Qed.

Lemma Atoi_range (digits : list ascii) :
  Forall (fun c => isDigit c = true) digits -> 0 <= Atoi digits <= Int64.max_int.
Proof.
  intros Hdigits. unfold Atoi.
  enough (H : forall acc, 0 <= acc ->
                0 <= fold_left (fun acc c => acc * 10 + digitValue c) digits acc).
  { specialize (H 0 ltac:(lia)). unfold Int64.max_int in *. lia. }
  induction Hdigits as [| c digits Hc _ IH]; intros acc Hacc; cbn [fold_left]; [assumption |].
  apply IH. pose proof (digitValue_digit c Hc). lia.
Qed.

Lemma stripSuffixFold_spec (suffix : string) (l x : list ascii) :
  stripSuffixFold suffix l = Some x ->
  exists ext, l = x ++ ext /\ length ext = length (chars suffix).
Proof.
  unfold stripSuffixFold.
  destruct (Nat.leb_spec (length (chars suffix)) (length l)) as [Hle |]; [| discriminate].
  cbn [andb]. destruct (String.eqb _ suffix); [| discriminate]. intros [= <-].
  exists (drop (length l - length (chars suffix)) l). split; [symmetry; apply take_drop |].
  rewrite length_drop. lia.
Qed.

(** A match of a numbered pattern: the name is the text in front of the
    match followed by the text matched, which holds the digits. *)
Lemma matchNumbered_spec (before after filename : string) (m : list ascii * list ascii) :
  matchNumbered before after filename = Some m ->
  Forall (fun c => isDigit c = true) (snd m)
  /\ snd m <> []
  /\ exists ext, chars filename = fst m ++ ext /\ ext <> [].
Proof.
  unfold matchNumbered.
  destruct (stripSuffixFold after (chars filename)) as [s1 |] eqn:H1; [| discriminate].
  destruct (splitDigits_spec s1) as [Hdigits Hs1].
  destruct (splitDigits s1) as [s2 digits]. cbn [fst snd] in *.
  destruct digits as [| d digits]; [discriminate |].
  destruct (stripSuffixFold before s2) as [s3 |] eqn:H3; [| discriminate].
  intros [= <-]. cbn [fst snd].
  destruct (stripSuffixFold_spec _ _ _ H1) as (ext1 & Hl & _).
  destruct (stripSuffixFold_spec _ _ _ H3) as (ext3 & Hs2 & _).
  split; [assumption |]. split; [discriminate |].
  exists (ext3 ++ (d :: digits) ++ ext1). split.
  - rewrite Hl, Hs1, Hs2, <- !app_assoc. reflexivity.
  - destruct ext3; discriminate.
Qed.

Lemma matchSuffix_spec (suffix filename : string) (m : list ascii * list ascii) :
  matchSuffix suffix filename = Some m -> chars suffix <> [] ->
  exists ext, chars filename = fst m ++ ext /\ ext <> [].
Proof.
  unfold matchSuffix.
  destruct (stripSuffixFold suffix (chars filename)) as [s1 |] eqn:H1; [| discriminate].
  intros [= <-] Hsuffix. destruct (stripSuffixFold_spec _ _ _ H1) as (ext & Hl & Hlen).
  exists ext. split; [assumption |]. intros ->. destruct (chars suffix); [congruence | discriminate].
Qed.

(** Cutting the match found in the lower-cased name off the name. *)
Lemma cutMatch_cuts (filename : string) (m : list ascii * list ascii) (ext : list ascii) :
  chars filename = fst m ++ ext -> ext <> [] ->
  cutMatch filename (ToLower filename) (lower (fst m), snd m) = text (fst m)
  /\ filename = String.append (text (fst m)) (text ext)
  /\ text ext <> "".
Proof.
  intros Hsplit Hext. unfold cutMatch, matchLength, prefix. cbn [fst].
  rewrite chars_ToLower. unfold lower. rewrite !length_map, Hsplit, length_app.
  replace (length (fst m) + length ext - (length (fst m) + length ext - length (fst m)))%nat
    with (length (fst m)) by lia.
  rewrite take_app_length. split; [reflexivity |]. split.
  - rewrite <- CutFacts.text_app, <- Hsplit. symmetry. apply CutFacts.text_chars.
  - destruct ext; [congruence | discriminate].
Qed.

(** X25.  The grouper and the volume numbers read a name alike.  A name is
    classed as a RAR volume by [getArchiveBaseName] exactly when
    [GetRARVolumeNumber] gives it a volume number (anything but -1), so
    the letter case of the extension does not matter to either.  A
    name classed as a volume is its base name followed by the
    extension that was recognised, which is not empty; the base name
    keeps the letter case of the name.  A name that is not classed has
    the empty base name. *)
Theorem getArchiveBaseName_agrees_with_GetRARVolumeNumber (filename : string) :
  (snd (getArchiveBaseName filename) = FileTypeRAR
   <-> Rar.GetRARVolumeNumber filename <> -1)
  /\ (snd (getArchiveBaseName filename) <> FileTypePlain ->
      exists ext,
        filename = String.append (fst (getArchiveBaseName filename)) ext /\ ext <> "")
  /\ (snd (getArchiveBaseName filename) = FileTypePlain ->
      fst (getArchiveBaseName filename) = "").
Proof.
  unfold getArchiveBaseName, Rar.GetRARVolumeNumber, Rar.rarPartNumberRegex,
    Rar.rarRNumberRegex, Rar.rarFirstPartRegex, SevenZip.sevenzipPartNumberRegex,
    SevenZip.sevenzipFirstPartRegex.
  rewrite !matchNumbered_ToLower, !matchSuffix_ToLower.
  destruct (matchNumbered ".part" ".rar" filename) as [m |] eqn:Hpart; cbn [option_map fst snd].
  { destruct (matchNumbered_spec _ _ _ _ Hpart) as (Hdigits & _ & ext & Hsplit & Hext).
    destruct (cutMatch_cuts filename m ext Hsplit Hext) as (-> & Hname & Hne).
    destruct m as [s3 digits]. cbn [fst snd] in *.
    pose proof (Atoi_range digits Hdigits).
    split; [split; [intros _; lia | reflexivity] |].
    split; [intros _; eauto | discriminate]. }
  destruct (matchNumbered ".r" "" filename) as [m |] eqn:Hr; cbn [option_map fst snd].
  { destruct (matchNumbered_spec _ _ _ _ Hr) as (Hdigits & _ & ext & Hsplit & Hext).
    destruct (cutMatch_cuts filename m ext Hsplit Hext) as (-> & Hname & Hne).
    destruct m as [s3 digits]. cbn [fst snd] in *.
    pose proof (Atoi_range digits Hdigits).
    pose proof (Int64Facts.wrap_bounds (Atoi digits + 1)) as Hwrap.
    assert (Hnum : Int64.add (Atoi digits) 1 <> -1).
    { unfold Int64.add, Int64.wrap, Int64.max_int in *. intros Heq.
      assert (Hmod : (Atoi digits + 1 + 2 ^ 63) mod 2 ^ 64 = 2 ^ 63 - 1) by lia.
      destruct (Z.le_gt_cases (Atoi digits + 1) (2 ^ 63 - 1)).
      - rewrite Z.mod_small in Hmod by lia. lia.
      - replace (Atoi digits + 1 + 2 ^ 63) with (0 + 1 * 2 ^ 64) in Hmod by lia.
        rewrite Z_mod_plus_full in Hmod. rewrite Z.mod_small in Hmod by lia. lia. }
    split; [split; [intros _; assumption | reflexivity] |].
    split; [intros _; eauto | discriminate]. }
  destruct (matchSuffix ".rar" filename) as [m |] eqn:Hrar; cbn [option_map fst snd].
  { destruct (matchSuffix_spec _ _ _ Hrar ltac:(discriminate)) as (ext & Hsplit & Hext).
    destruct (cutMatch_cuts filename m ext Hsplit Hext) as (-> & Hname & Hne).
    split; [split; [intros _; lia | reflexivity] |].
    split; [intros _; eauto | discriminate]. }
  destruct (matchNumbered ".7z." "" filename) as [m |] eqn:H7z; cbn [option_map fst snd].
  { destruct (matchNumbered_spec _ _ _ _ H7z) as (_ & _ & ext & Hsplit & Hext).
    destruct (cutMatch_cuts filename m ext Hsplit Hext) as (-> & Hname & Hne).
    split; [split; [discriminate | intros H; exfalso; apply H; reflexivity] |].
    split; [intros _; eauto | discriminate]. }
  destruct (matchSuffix ".7z" filename) as [m |] eqn:H7; cbn [option_map fst snd].
  { destruct (matchSuffix_spec _ _ _ H7 ltac:(discriminate)) as (ext & Hsplit & Hext).
    destruct (cutMatch_cuts filename m ext Hsplit Hext) as (-> & Hname & Hne).
    split; [split; [discriminate | intros H; exfalso; apply H; reflexivity] |].
    split; [intros _; eauto | discriminate]. }
  split; [split; [discriminate | intros H; exfalso; apply H; reflexivity] |].
  split; [intros H; exfalso; apply H; reflexivity | reflexivity].
Qed.

End VolumeNameFacts.

(** ** Segments Stream: when fetches fail *)

Module FailureFacts.

Import Pool SegmentsStream.

Lemma posted_elem (pool : fetcher) (segs : list Nzb.Segment) (r : segmentResult) :
  r ∈ posted pool segs ->
  exists seg, segs !! idx r = Some seg /\ fetched r = pool seg.
Proof.
  unfold posted. intros Hr. apply elem_of_lookup_imap_1 in Hr as (i & seg & -> & Hseg).
  exists seg. split; [exact Hseg | reflexivity].
Qed.

Lemma posted_length (pool : fetcher) (segs : list Nzb.Segment) :
  length (posted pool segs) = length segs.
Proof. unfold posted. apply length_imap. Qed.

(** X26.  Whatever the order in which the workers post, and whichever
    fetches fail, the stream hands its reader nothing but the data of
    the segments, each at its place: the data at place [j] of the data
    channel is what the pool gives for segment [j].  An error is
    published exactly when the fetch of some segment fails, and it is
    the error of such a fetch. *)
Theorem SegmentsStream_delivers_only_the_data_of_the_segments
    (cfg : Config) (pool : fetcher) (segs : list Nzb.Segment)
    (resultCh : list segmentResult) :
  deliveryOrder pool segs resultCh ->
  let s := NewSegmentsStream cfg segs resultCh in
  (forall j d, dataChan s !! j = Some d ->
     exists seg, segs !! j = Some seg /\ pool seg = Go.Ok d)
  /\ (forall e, errChan s = Some e -> exists seg, seg ∈ segs /\ pool seg = Go.Err e)
  /\ (errChan s = None -> Forall (fun seg => exists d, pool seg = Go.Ok d) segs).
Proof.
  intros Horder. unfold deliveryOrder in Horder. unfold NewSegmentsStream.
  destruct (Z.eqb_spec (Z.of_nat (length segs)) 0) as [Hnone | Hsome]; cbv zeta.
  { destruct segs; [| simpl in Hnone; lia]. cbn [dataChan errChan].
    split; [intros j d Hj; rewrite lookup_nil in Hj; discriminate |].
    split; [discriminate | constructor]. }
  pose proof (CollectorFacts.collect_sent (length segs) resultCh (fun _ _ => False) ∅ 0 0
                ltac:(intros i d' Hi; rewrite lookup_empty in Hi; discriminate)) as Hsent.
  pose proof (CollectorFacts.collect_error (length segs) resultCh ∅ 0 0) as Herror.
  destruct (collect (length segs) resultCh ∅ 0 0) as [sent e]. cbn [fst snd] in *.
  cbn [dataChan errChan].
  assert (Hall : take (length segs - 0) resultCh = resultCh).
  { apply take_ge. rewrite Horder, posted_length. lia. }
  rewrite Hall in Herror.
  split; [| split].
  - intros j d Hj. destruct (Hsent j d Hj) as [[] | (r & Hr & Hidx & Hok)].
    rewrite Horder in Hr. destruct (posted_elem pool segs r Hr) as (seg & Hseg & Hpool).
    exists seg. rewrite Hidx in Hseg. split; [exact Hseg | congruence].
  - intros e' ->. destruct (omap CollectorFacts.failure resultCh) as [| e0 rest] eqn:Hfail;
      [discriminate |]. injection Herror as <-.
    assert (Hin : e' ∈ omap CollectorFacts.failure resultCh) by (rewrite Hfail; left).
    apply list_elem_of_omap in Hin as (r & Hr & Hfailure).
    rewrite Horder in Hr. destruct (posted_elem pool segs r Hr) as (seg & Hseg & Hpool).
    exists seg. split; [apply (list_elem_of_lookup_2 _ _ _ Hseg) |].
    unfold CollectorFacts.failure in Hfailure. rewrite Hpool in Hfailure.
    destruct (pool seg); congruence.
  - intros ->. apply Forall_forall. intros seg Hseg.
    apply list_elem_of_lookup_1 in Hseg as [i Hi].
    assert (Hr : {| idx := i; fetched := pool seg |} ∈ resultCh).
    { rewrite Horder. unfold posted. apply elem_of_lookup_imap. eauto. }
    destruct (pool seg) as [d | e'] eqn:Hpool; [eauto |].
    assert (Hin : e' ∈ omap CollectorFacts.failure resultCh).
    { apply list_elem_of_omap. eexists. split; [exact Hr |]. reflexivity. }
    destruct (omap CollectorFacts.failure resultCh); [inversion Hin | discriminate].
Qed.

(** A pool that has lost the second of three segments. *)
Definition lossyPool : fetcher := fun seg =>
  if String.eqb (Nzb.MessageId seg) "2@x" then Go.Err (Go.Errorf "430 no such article")
  else SegmentsStreamFacts.samplePool seg.

Definition lossyArrival : list segmentResult :=
  [ {| idx := 2; fetched := lossyPool (SegmentsStreamFacts.seg "3@x") |};
    {| idx := 0; fetched := lossyPool (SegmentsStreamFacts.seg "1@x") |};
    {| idx := 1; fetched := lossyPool (SegmentsStreamFacts.seg "2@x") |} ].

Lemma SegmentsStream_lossy_witness :
  let s := NewSegmentsStream SegmentsStreamFacts.sampleConfig
             SegmentsStreamFacts.sampleSegments lossyArrival in
  (forall j d, dataChan s !! j = Some d ->
     exists seg, SegmentsStreamFacts.sampleSegments !! j = Some seg
                 /\ lossyPool seg = Go.Ok d)
  /\ (forall e, errChan s = Some e ->
        exists seg, seg ∈ SegmentsStreamFacts.sampleSegments /\ lossyPool seg = Go.Err e)
  /\ (errChan s = None ->
      Forall (fun seg => exists d, lossyPool seg = Go.Ok d)
        SegmentsStreamFacts.sampleSegments).
Proof.
  apply (SegmentsStream_delivers_only_the_data_of_the_segments
           SegmentsStreamFacts.sampleConfig lossyPool
           SegmentsStreamFacts.sampleSegments lossyArrival).
  unfold deliveryOrder.
  apply (Permutation_cons_app
           [ {| idx := 0%nat; fetched := lossyPool (SegmentsStreamFacts.seg "1@x") |};
             {| idx := 1%nat; fetched := lossyPool (SegmentsStreamFacts.seg "2@x") |} ] []).
  reflexivity.
Defined.

End FailureFacts.
